(** * CodeGraphContext: the KuzuDB session layer

    A shallow embedding of [src/codegraphcontext/core/database_kuzu.py]:
    the query translator [KuzuSessionWrapper._translate_query], the
    session's [run], [KuzuRecord] and [KuzuResultWrapper], the
    connection manager [KuzuDBManager] with its schema bootstrap, and
    of [get_database_manager] in [src/codegraphcontext/core/__init__.py],
    which chooses the backend.  The [kuzu] library, the environment
    variables, the module lookup, the constructors of the manager
    classes and the exception class tests ([isinstance]) are
    parameters of the model.

    Text is a list of characters.  A character is a code point in
    U+0000..U+00FF; the character tables Python consults ([\w], [\s],
    [str.lower], [str.upper], [repr]) are written out for that range.
    Floating-point parameter values and opaque native node and
    relationship handles are outside the model. *)

From Stdlib Require Import String DecimalString.
From Stdlib Require Import List Ascii ZArith Bool Arith Lia.
Import ListNotations.

Set Implicit Arguments.
Set Warnings "-register-all".

Definition str := list ascii.

(** [# "..."] reads a literal as text. *)
Notation "# x" := (String.list_ascii_of_string x%string)
  (at level 9, x at level 0, only parsing).

Definition dquote : ascii := ascii_of_nat 34.
Definition code (c : ascii) : nat := nat_of_ascii c.
Definition between (lo hi : nat) (c : ascii) : bool :=
  (lo <=? code c) && (code c <=? hi).

Module Text.

Definition eqb (a b : str) : bool :=
  if list_eq_dec ascii_dec a b then true else false.

(** [a.startswith(p)], returning what follows the prefix. *)
Fixpoint strip_prefix (p a : str) : option str :=
  match p, a with
  | [], _ => Some a
  | _ :: _, [] => None
  | x :: p', y :: a' => if Ascii.eqb x y then strip_prefix p' a' else None
  end.

(** [needle in hay]. *)
Fixpoint contains (needle hay : str) : bool :=
  match strip_prefix needle hay with
  | Some _ => true
  | None => match hay with
            | [] => false
            | _ :: hay' => contains needle hay'
            end
  end.

(** [hay.replace(old, new)] for a non-empty [old]: every occurrence,
    left to right, without overlap.  [skip] counts the characters of
    an occurrence still to be passed over. *)
Fixpoint replace_go (old new : str) (skip : nat) (hay : str) : str :=
  match hay with
  | [] => []
  | c :: hay' =>
      match skip with
      | S n => replace_go old new n hay'
      | O =>
          match strip_prefix old hay with
          | Some _ => new ++ replace_go old new (length old - 1) hay'
          | None => c :: replace_go old new 0 hay'
          end
      end
  end.

(** With an empty [old] Python puts [new] before every character and
    at the end. *)
Definition replace (old new hay : str) : str :=
  match old with
  | [] => new ++ flat_map (fun c => c :: new) hay
  | _ :: _ => replace_go old new 0 hay
  end.

(** [sep.join(parts)]. *)
Fixpoint join (sep : str) (parts : list str) : str :=
  match parts with
  | [] => []
  | [p] => p
  | p :: ps => p ++ sep ++ join sep ps
  end.

Fixpoint lstrip (set : ascii -> bool) (a : str) : str :=
  match a with
  | c :: a' => if set c then lstrip set a' else a
  | [] => []
  end.

(** [a.strip(chars)]. *)
Definition strip (set : ascii -> bool) (a : str) : str :=
  rev (lstrip set (rev (lstrip set a))).

(** [a[:n]]. *)
Definition prefix (n : nat) (a : str) : str := firstn n a.

(** Character tables of CPython for U+0000..U+00FF. *)

Definition is_ascii_alnum (c : ascii) : bool :=
  between 48 57 c || between 65 90 c || between 97 122 c.

(** [[a-zA-Z0-9_]]. *)
Definition is_label_char (c : ascii) : bool :=
  is_ascii_alnum c || Ascii.eqb c "_"%char.

(** [\w] on text: alphanumeric code points and the underscore. *)
Definition is_word (c : ascii) : bool :=
  is_label_char c
  || Nat.eqb (code c) 170 || Nat.eqb (code c) 178 || Nat.eqb (code c) 179
  || Nat.eqb (code c) 181 || Nat.eqb (code c) 185 || Nat.eqb (code c) 186
  || between 188 190 c || between 192 214 c || between 216 246 c
  || between 248 255 c.

(** [\s] on text. *)
Definition is_space (c : ascii) : bool :=
  between 9 13 c || between 28 32 c || Nat.eqb (code c) 133
  || Nat.eqb (code c) 160.

Definition lower_char (c : ascii) : ascii :=
  if between 65 90 c || (between 192 222 c && negb (Nat.eqb (code c) 215))
  then ascii_of_nat (code c + 32) else c.

(** [a.lower()]. *)
Definition lower (a : str) : str := map lower_char a.

(** [str.upper] of one character.  U+00DF becomes two letters.  The
    upper-case forms of U+00B5 and U+00FF lie beyond U+00FF; they are
    kept as they are, which a search for ASCII text cannot observe. *)
Definition upper_char (c : ascii) : str :=
  if between 97 122 c || (between 224 254 c && negb (Nat.eqb (code c) 247))
  then [ascii_of_nat (code c - 32)]
  else if Nat.eqb (code c) 223 then # "SS" else [c].

(** [a.upper()]. *)
Definition upper (a : str) : str := flat_map upper_char a.

Definition hex_digit (n : nat) : ascii :=
  if n <? 10 then ascii_of_nat (48 + n) else ascii_of_nat (87 + n).

Definition hex2 (c : ascii) : str :=
  [hex_digit (code c / 16); hex_digit (code c mod 16)].

End Text.

(** * Regular expressions, as Python's [re] matches them

    A backtracking matcher in continuation-passing style: alternatives
    are tried left to right, repetition is greedy, and a later failure
    comes back to the most recent choice.  A match of the empty text
    is not reported: every pattern of the translator takes at least
    one character (see [translator_patterns_consume]). *)

Module Re.

Inductive regex : Type :=
| Chr (p : ascii -> bool)      (* one character of a class *)
| Eps
| Cat (r1 r2 : regex)
| Alt (r1 r2 : regex)
| Star (r : regex)             (* greedy [r*] *)
| Group (n : nat) (r : regex)  (* capturing group number [n] *)
| Backref (n : nat)            (* [\n] *)
| WordB.                       (* [\b] *)

Definition Plus (r : regex) : regex := Cat r (Star r).

(** A literal, character by character. *)
Fixpoint Lit (a : str) : regex :=
  match a with
  | [] => Eps
  | c :: a' => Cat (Chr (Ascii.eqb c)) (Lit a')
  end.

(** A literal under [re.IGNORECASE]. *)
Fixpoint ILit (a : str) : regex :=
  match a with
  | [] => Eps
  | c :: a' =>
      Cat (Chr (fun x => Ascii.eqb (Text.lower_char c) (Text.lower_char x)))
          (ILit a')
  end.

Fixpoint Seq (rs : list regex) : regex :=
  match rs with
  | [] => Eps
  | [r] => r
  | r :: rs' => Cat r (Seq rs')
  end.

(** The matcher's position: the character before it, the text ahead,
    and the groups captured so far (most recent first). *)
Record mstate : Type := MState {
  prev : option ascii;
  rest : str;
  caps : list (nat * str)
}.

Fixpoint lookup_cap (n : nat) (cs : list (nat * str)) : option str :=
  match cs with
  | [] => None
  | (m, a) :: cs' => if Nat.eqb n m then Some a else lookup_cap n cs'
  end.

Definition last_or (d : option ascii) (a : str) : option ascii :=
  match rev a with
  | [] => d
  | c :: _ => Some c
  end.

(** The text passed between two positions of the same scan. *)
Definition consumed (before after : mstate) : str :=
  firstn (length (rest before) - length (rest after)) (rest before).

Definition word_at (c : option ascii) : bool :=
  match c with
  | Some x => Text.is_word x
  | None => false
  end.

Fixpoint go {A : Type} (r : regex) (st : mstate)
         (k : mstate -> option A) : option A :=
  match r with
  | Chr p =>
      match rest st with
      | c :: a => if p c then k (MState (Some c) a (caps st)) else None
      | [] => None
      end
  | Eps => k st
  | Cat r1 r2 => go r1 st (fun st1 => go r2 st1 k)
  | Alt r1 r2 =>
      match go r1 st k with
      | Some x => Some x
      | None => go r2 st k
      end
  | Star r1 =>
      (fix loop (fuel : nat) (st0 : mstate) : option A :=
         match fuel with
         | O => k st0
         | S fuel' =>
             match go r1 st0 (fun st1 =>
                      if length (rest st1) <? length (rest st0)
                      then loop fuel' st1 else None) with
             | Some x => Some x
             | None => k st0
             end
         end) (length (rest st)) st
  | Group n r1 =>
      go r1 st (fun st1 =>
        k (MState (prev st1) (rest st1) ((n, consumed st st1) :: caps st1)))
  | Backref n =>
      match lookup_cap n (caps st) with
      | Some a =>
          match Text.strip_prefix a (rest st) with
          | Some a' => k (MState (last_or (prev st) a) a' (caps st))
          | None => None
          end
      | None => None
      end
  | WordB =>
      if xorb (word_at (prev st)) (word_at (hd_error (rest st)))
      then k st else None
  end.

(** A match object: [group(0)] and the numbered groups. *)
Record rmatch : Type := RMatch {
  whole : str;
  groups : list (nat * str)
}.

Definition group (n : nat) (m : rmatch) : str :=
  match lookup_cap n (groups m) with
  | Some a => a
  | None => []
  end.

(** [pattern.match] at one position of a scan ([p] is the character
    before it). *)
Definition match_at (r : regex) (p : option ascii) (a : str) : option rmatch :=
  let st := MState p a [] in
  match go r st (fun st1 => Some st1) with
  | Some st1 =>
      match consumed st st1 with
      | [] => None
      | w => Some (RMatch w (caps st1))
      end
  | None => None
  end.

(** One scan of a text: the characters outside a match, and the
    matches, in order. *)
Inductive piece : Type :=
| Keep (c : ascii)
| Hit (m : rmatch).

Fixpoint scan_go (r : regex) (skip : nat) (p : option ascii) (a : str)
  : list piece :=
  match a with
  | [] => []
  | c :: a' =>
      match skip with
      | S n => scan_go r n (Some c) a'
      | O =>
          match match_at r p a with
          | Some m => Hit m :: scan_go r (length (whole m) - 1) (Some c) a'
          | None => Keep c :: scan_go r 0 (Some c) a'
          end
      end
  end.

Definition scan (r : regex) (a : str) : list piece := scan_go r 0 None a.

(** [list(re.finditer(r, a))]. *)
Definition finditer (r : regex) (a : str) : list rmatch :=
  flat_map (fun x => match x with Hit m => [m] | Keep _ => [] end) (scan r a).

(** [re.search(r, a)]. *)
Definition search (r : regex) (a : str) : option rmatch :=
  hd_error (finditer r a).

(** [re.findall(r, a)] for a pattern with one group. *)
Definition findall1 (r : regex) (a : str) : list str :=
  map (group 1) (finditer r a).

(** [re.sub(r, f, a)] with a function for the replacement. *)
Definition sub (r : regex) (f : rmatch -> str) (a : str) : str :=
  flat_map (fun x => match x with Hit m => f m | Keep c => [c] end) (scan r a).

End Re.

(** * Python values and dictionaries *)

Module Py.

(** The values a parameter can be bound to.  A dictionary is kept as
    its items in insertion order; its keys are text. *)
Inductive value : Type :=
| VNone
| VBool (b : bool)
| VInt (z : Z)
| VStr (a : str)
| VList (l : list value)
| VDict (d : list (str * value)).

Definition dict := list (str * value).

Definition keys (d : dict) : list str := map fst d.

(** [d.get(k)]. *)
Fixpoint get (k : str) (d : dict) : option value :=
  match d with
  | [] => None
  | (k', v) :: d' => if Text.eqb k k' then Some v else get k d'
  end.

(** [d[k] = v]: an existing key keeps its place, a new key goes last. *)
Fixpoint set (k : str) (v : value) (d : dict) : dict :=
  match d with
  | [] => [(k, v)]
  | (k', v') :: d' =>
      if Text.eqb k k' then (k, v) :: d' else (k', v') :: set k v d'
  end.

(** [d.pop(k, None)], the dictionary that is left. *)
Fixpoint pop (k : str) (d : dict) : dict :=
  match d with
  | [] => []
  | (k', v') :: d' =>
      if Text.eqb k k' then d' else (k', v') :: pop k d'
  end.

(** The items of a dictionary have distinct keys. *)
Definition wf (d : dict) : Prop := NoDup (keys d).

(** [isinstance(v, (dict, list))]. *)
Definition is_dict_or_list (v : value) : bool :=
  match v with VDict _ | VList _ => true | _ => false end.

(** [repr] of text: quoted, with the escapes CPython writes. *)
Definition printable (c : ascii) : bool :=
  between 32 126 c || (between 161 255 c && negb (Nat.eqb (code c) 173)).

Definition repr_char (q c : ascii) : str :=
  if Ascii.eqb c q || Ascii.eqb c "\"%char then ["\"%char; c]
  else if Nat.eqb (code c) 9 then # "\t"
  else if Nat.eqb (code c) 10 then # "\n"
  else if Nat.eqb (code c) 13 then # "\r"
  else if printable c then [c]
  else # "\x" ++ Text.hex2 c.

Definition repr_str (a : str) : str :=
  let q := if existsb (Ascii.eqb "'"%char) a && negb (existsb (Ascii.eqb dquote) a)
           then dquote else "'"%char in
  q :: flat_map (repr_char q) a ++ [q].

Definition str_of_Z (z : Z) : str :=
  list_ascii_of_string (NilZero.string_of_int (Z.to_int z)).

(** [repr(v)]. *)
Fixpoint repr (v : value) : str :=
  match v with
  | VNone => # "None"
  | VBool true => # "True"
  | VBool false => # "False"
  | VInt z => str_of_Z z
  | VStr a => repr_str a
  | VList l => # "[" ++ Text.join (# ", ") (map repr l) ++ # "]"
  | VDict d =>
      # "{"
      ++ Text.join (# ", ")
           ((fix items (d : list (str * value)) : list str :=
               match d with
               | [] => []
               | (k, x) :: d' => (repr_str k ++ # ": " ++ repr x) :: items d'
               end) d)
      ++ # "}"
  end.

(** [str(v)]. *)
Definition to_str (v : value) : str :=
  match v with
  | VStr a => a
  | _ => repr v
  end.

(** A string of [json.dumps]: everything outside U+0020..U+007E, the
    quote and the backslash are escaped. *)
Definition json_char (c : ascii) : str :=
  if Ascii.eqb c dquote then ["\"%char; dquote]
  else if Ascii.eqb c "\"%char then # "\\"
  else if Nat.eqb (code c) 10 then # "\n"
  else if Nat.eqb (code c) 13 then # "\r"
  else if Nat.eqb (code c) 9 then # "\t"
  else if Nat.eqb (code c) 12 then # "\f"
  else if Nat.eqb (code c) 8 then # "\b"
  else if between 32 126 c then [c]
  else # "\u00" ++ Text.hex2 c.

Definition json_str (a : str) : str :=
  dquote :: flat_map json_char a ++ [dquote].

(** [json.dumps] of a list of texts. *)
Definition json_dumps (l : list str) : str :=
  # "[" ++ Text.join (# ", ") (map json_str l) ++ # "]".

End Py.

(** * The session: [KuzuSessionWrapper] *)

Module Kuzu.

Import Re.

(** [self.uid_map]: the ordered key fields of the labels with a
    composite key. *)
Definition npl : list str := [# "name"; # "path"; # "line_number"].

Definition uid_map : list (str * list str) :=
  [ (# "Function", npl); (# "Class", npl); (# "Variable", npl);
    (# "Trait", npl); (# "Interface", npl); (# "Macro", npl);
    (# "Struct", npl); (# "Enum", npl); (# "Union", npl);
    (# "Annotation", npl); (# "Record", npl); (# "Property", npl);
    (# "Parameter", [# "name"; # "path"; # "function_line_number"]) ].

(** A session holds its connection and the key table. *)
Record session (conn : Type) : Type := Session {
  session_conn : conn;
  session_uid_map : list (str * list str)
}.

(** [KuzuSessionWrapper.__init__]. *)
Definition session_init {conn : Type} (c : conn) : session conn :=
  Session c uid_map.

Fixpoint assoc {B : Type} (k : str) (l : list (str * B)) : option B :=
  match l with
  | [] => None
  | (k', b) :: l' => if Text.eqb k k' then Some b else assoc k l'
  end.

(** [SCHEMA_MAP]: the attributes each label may carry. *)
Definition construct_attrs : list str :=
  [# "uid"; # "name"; # "path"; # "line_number"; # "end_line"; # "source";
   # "docstring"; # "lang"; # "is_dependency"].

Definition SCHEMA_MAP : list (str * list str) :=
  [ (# "Repository", [# "path"; # "name"; # "is_dependency"]);
    (# "File", [# "path"; # "name"; # "relative_path"; # "is_dependency"]);
    (# "Directory", [# "path"; # "name"]);
    (# "Module", [# "name"; # "lang"; # "full_import_name"]);
    (# "Function",
      [# "uid"; # "name"; # "path"; # "line_number"; # "end_line"; # "source";
       # "docstring"; # "lang"; # "cyclomatic_complexity"; # "context";
       # "context_type"; # "class_context"; # "is_dependency";
       # "decorators"; # "args"]);
    (# "Class",
      [# "uid"; # "name"; # "path"; # "line_number"; # "end_line"; # "source";
       # "docstring"; # "lang"; # "is_dependency"; # "decorators"]);
    (# "Variable",
      [# "uid"; # "name"; # "path"; # "line_number"; # "source"; # "docstring";
       # "lang"; # "value"; # "context"; # "is_dependency"]);
    (# "Trait", construct_attrs);
    (# "Interface", construct_attrs);
    (# "Macro", construct_attrs);
    (# "Struct", construct_attrs);
    (# "Enum", construct_attrs);
    (# "Union", construct_attrs);
    (# "Annotation", construct_attrs);
    (# "Record", construct_attrs);
    (# "Property", construct_attrs);
    (# "Parameter", [# "uid"; # "name"; # "path"; # "function_line_number"]) ].

Definition in_set (k : str) (l : list str) : bool := existsb (Text.eqb k) l.

(** A set is false when it is empty. *)
Definition is_empty (l : list str) : bool :=
  match l with [] => true | _ :: _ => false end.

(** ** The patterns *)

Definition W : regex := Chr Text.is_word.          (* \w *)
Definition Sp : regex := Chr Text.is_space.        (* \s *)
Definition LabelChar : regex := Chr Text.is_label_char.  (* [a-zA-Z0-9_] *)

(** [SET\s+(\w+)\s*\+=\s*\$(\w+)] *)
Definition set_pattern : regex :=
  Seq [Lit (# "SET"); Plus Sp; Group 1 (Plus W); Star Sp; Lit (# "+=");
       Star Sp; Lit (# "$"); Group 2 (Plus W)].

(** [\({node_var}:(\w+)] *)
Definition def_pattern (node_var : str) : regex :=
  Seq [Lit (# "("); Lit node_var; Lit (# ":"); Group 1 (Plus W)].

(** [MERGE\s+\((\w+):([^\s\{]+)\s*\{([^}]+)\}\)] *)
Definition merge_pattern : regex :=
  Seq [Lit (# "MERGE"); Plus Sp; Lit (# "("); Group 1 (Plus W); Lit (# ":");
       Group 2 (Plus (Chr (fun c => negb (Text.is_space c || Ascii.eqb c "{"%char))));
       Star Sp; Lit (# "{");
       Group 3 (Plus (Chr (fun c => negb (Ascii.eqb c "}"%char))));
       Lit (# "})")].

(** [{part}:\s*\$(\w+)] *)
Definition part_pattern (part : str) : regex :=
  Seq [Lit part; Lit (# ":"); Star Sp; Lit (# "$"); Group 1 (Plus W)].

(** [:{label}\b] *)
Definition escape_pattern (label : str) : regex :=
  Seq [Lit (# ":"); Lit label; WordB].

(** [\((\w+):[a-zA-Z0-9_]+(?:\s+OR\s+\1:[a-zA-Z0-9_]+)+\)] *)
Definition poly_pattern : regex :=
  Seq [Lit (# "("); Group 1 (Plus W); Lit (# ":"); Plus LabelChar;
       Plus (Seq [Plus Sp; Lit (# "OR"); Plus Sp; Backref 1; Lit (# ":");
                  Plus LabelChar]);
       Lit (# ")")].

(** [{var_name}:([a-zA-Z0-9_]+)] *)
Definition var_label_pattern (var_name : str) : regex :=
  Seq [Lit var_name; Lit (# ":"); Group 1 (Plus LabelChar)].

(** [(WHERE\s+|AND\s+|OR\s+)(\w+):([a-zA-Z0-9_]+)] under
    [re.IGNORECASE]. *)
Definition single_label_pattern : regex :=
  Seq [Group 1 (Alt (Cat (ILit (# "WHERE")) (Plus Sp))
                 (Alt (Cat (ILit (# "AND")) (Plus Sp))
                      (Cat (ILit (# "OR")) (Plus Sp))));
       Group 2 (Plus W); Lit (# ":"); Group 3 (Plus LabelChar)].

(** [\$(\w+)] *)
Definition param_pattern : regex := Seq [Lit (# "$"); Group 1 (Plus W)].

(** ** [_translate_query] *)

(** Rule 1, the loop over [props_dict.items()]: the assignments
    collected so far and the copy of the parameters. *)
Definition expand_item (node_var param_name : str)
           (allowed_props : option (list str))
           (acc : list str * Py.dict) (item : str * Py.value)
  : list str * Py.dict :=
  let '(set_clauses, new_params) := acc in
  let '(k, v) := item in
  if Py.is_dict_or_list v && negb (Text.eqb k (# "args"))
     && negb (Text.eqb k (# "decorators"))
  then acc
  else if match allowed_props with
          | Some a => negb (is_empty a) && negb (in_set k a)
          | None => false
          end
  then acc
  else
    let clean_k := param_name ++ # "_" ++ k in
    (set_clauses ++ [node_var ++ # "." ++ k ++ # " = $" ++ clean_k],
     Py.set clean_k v new_params).

Definition expand_props (node_var param_name : str)
           (allowed_props : option (list str))
           (props_dict parameters : Py.dict) : list str * Py.dict :=
  fold_left (expand_item node_var param_name allowed_props)
            props_dict ([], parameters).

(** Rule 1: [SET n += $props].  The boolean tells whether
    [parameters] now names a copy instead of the caller's
    dictionary. *)
Definition translate_set (query : str) (parameters : Py.dict)
  : str * Py.dict * bool :=
  if Text.contains (# "SET") query && Text.contains (# "+=") query then
    match search set_pattern query with
    | Some m =>
        let node_var := group 1 m in
        let param_name := group 2 m in
        let label :=
          match search (def_pattern node_var) query with
          | Some def_match => Some (group 1 def_match)
          | None => None
          end in
        let props_dict :=
          match Py.get param_name parameters with
          | Some v => v
          | None => Py.VDict []
          end in
        match props_dict with
        | Py.VDict props =>
            let allowed_props :=
              match label with
              | Some l => Some match assoc l SCHEMA_MAP with
                               | Some a => a
                               | None => []
                               end
              | None => None
              end in
            let '(set_clauses, new_params) :=
              expand_props node_var param_name allowed_props props parameters in
            match set_clauses with
            | _ :: _ =>
                (Text.replace (whole m)
                   (# "SET " ++ Text.join (# ", ") set_clauses) query,
                 Py.pop param_name new_params, true)
            | [] => (Text.replace (whole m) [] query, parameters, false)
            end
        | _ => (query, parameters, false)
        end
    | None => (query, parameters, false)
    end
  else (query, parameters, false).

(** Rule 2, the inner loop over the key fields. *)
Fixpoint build_uid (pk_parts : list str) (props_str : str)
         (parameters : Py.dict) (uid_val : str) : option str :=
  match pk_parts with
  | [] => Some uid_val
  | part :: pk_parts' =>
      match search (part_pattern part) props_str with
      | Some p_match =>
          match Py.get (group 1 p_match) parameters with
          | Some Py.VNone | None => None
          | Some p_val =>
              build_uid pk_parts' props_str parameters
                        (uid_val ++ Py.to_str p_val)
          end
      | None => None
      end
  end.

(** What one pass of the translator carries: the query text, the
    parameters, and the lines printed. *)
Record tstate : Type := TState {
  t_query : str;
  t_params : Py.dict;
  t_out : list str
}.

Definition backtick (c : ascii) : bool := Ascii.eqb c "`"%char.
Definition colon (c : ascii) : bool := Ascii.eqb c ":"%char.

(** Rule 2, the body of the loop over the [MERGE] matches. *)
Definition merge_step (uid_map : list (str * list str))
           (st : tstate) (m : rmatch) : tstate :=
  let var_name := group 1 m in
  let label_raw := group 2 m in
  let props_str := group 3 m in
  let label := Text.strip colon (Text.strip backtick label_raw) in
  match assoc label uid_map with
  | Some pk_parts =>
      match build_uid pk_parts props_str (t_params st) [] with
      | Some uid_val =>
          let uid_param := # "__uid_" ++ var_name in
          let old_block := # "{" ++ props_str ++ # "}" in
          let new_block :=
            # "{" ++ props_str ++ # ", uid: $" ++ uid_param ++ # "}" in
          let parameters := Py.set uid_param (Py.VStr uid_val) (t_params st) in
          if Text.contains old_block (t_query st)
          then TState (Text.replace old_block new_block (t_query st))
                      parameters (t_out st)
          else TState (t_query st) parameters
                      (t_out st ++
                       [# "DEBUG_FAILURE: Could not find old_block in query: '"
                        ++ old_block ++ # "'"])
      | None => st
      end
  | None => st
  end.

(** Rule 2: the matches are taken from the text as it stands before
    the loop. *)
Definition inject_uids (uid_map : list (str * list str)) (st : tstate)
  : tstate :=
  fold_left (merge_step uid_map) (finditer merge_pattern (t_query st)) st.

(** Rule 3. *)
Definition labels_to_escape : list str :=
  [# "Macro"; # "Union"; # "Property"; # "CONTAINS"; # "CALLS"].

Definition escape_label (query label : str) : str :=
  sub (escape_pattern label) (fun _ => # ":`" ++ label ++ # "`") query.

Definition escape_labels (query : str) : str :=
  fold_left escape_label labels_to_escape query.

(** Rule 4. *)
Definition poly_replacer (m : rmatch) : str :=
  let full_match := whole m in
  let var_name := group 1 m in
  let labels := findall1 (var_label_pattern var_name) full_match in
  # "label(" ++ var_name ++ # ") IN " ++ Py.json_dumps labels.

Definition single_label_replacer (m : rmatch) : str :=
  let prefix := group 1 m in
  let var_name := group 2 m in
  let label := group 3 m in
  prefix ++ # "label(" ++ var_name ++ # ") = '" ++ label ++ # "'".

Definition label_predicates (query : str) : str :=
  let query := Text.replace (# "labels(n)[0]") (# "label(n)") query in
  let query := sub poly_pattern poly_replacer query in
  sub single_label_pattern single_label_replacer query.

Definition is_schema_statement (query : str) : bool :=
  existsb (fun x => Text.contains x (Text.upper query))
          [# "CREATE CONSTRAINT"; # "CREATE INDEX"].

(** Rule 5: the names after a [$] in the text, and the parameters
    that are among them. *)
Definition used_params (query : str) : list str :=
  findall1 param_pattern query.

Definition prune (query : str) (parameters : Py.dict) : Py.dict :=
  filter (fun kv => in_set (fst kv) (used_params query)) parameters.

(** The text after rules 1 to 4 and the built-in casing, with the
    parameters as they stand before pruning. *)
Definition rewrite {conn : Type} (self : session conn) (query : str)
           (parameters : Py.dict) : tstate * bool :=
  let '(query1, parameters1, copied) := translate_set query parameters in
  let st2 := inject_uids (session_uid_map self) (TState query1 parameters1 []) in
  let query3 := escape_labels (t_query st2) in
  let query4 := label_predicates query3 in
  let query5 := Text.replace (# "coalesce(") (# "COALESCE(") query4 in
  (TState query5 (t_params st2) (t_out st2), copied).

(** What a call leaves behind: the pair it returns, the caller's
    dictionary (rule 2 writes into it unless rule 1 has made a
    copy), and the lines printed. *)
Record translated : Type := Translated {
  tr_query : str;
  tr_params : Py.dict;
  tr_caller_params : Py.dict;
  tr_printed : list str
}.

Definition _translate_query {conn : Type} (self : session conn) (query : str)
           (parameters : Py.dict) : translated :=
  let '(st, copied) := rewrite self query parameters in
  let caller := if copied then parameters else t_params st in
  if is_schema_statement (t_query st)
  then Translated (# "RETURN 1") [] caller (t_out st)
  else Translated (t_query st) (prune (t_query st) (t_params st))
                  caller (t_out st).

(** ** Exceptions, the native engine, and what the session does *)

(** An exception: its class and [str(e)]. *)
Record exn : Type := Exn {
  exn_class : str;
  exn_str : str
}.

Inductive outcome (A : Type) : Type :=
| Return (a : A)
| Raise (e : exn).
Arguments Return {A} a.
Arguments Raise {A} e.

(** A native query result: the column names and the rows still to
    be read. *)
Record native_result : Type := NativeResult {
  column_names : list str;
  pending_rows : list (list Py.value)
}.

(** [conn.execute]: the engine answers a query with a result or
    raises. *)
Definition connection : Type := str -> Py.dict -> outcome native_result.

(** What a call does besides returning, in order. *)
Inductive event : Type :=
| DebugLog (line : str)
| ErrorLog (line : str)
| Printed (line : str)
| Executed (query : str) (parameters : Py.dict).

(** ** [KuzuRecord] *)

Record KuzuRecord : Type := MkRecord {
  _data : Py.dict;
  _keys : list str
}.

(** [KuzuRecord.__init__]. *)
Definition KuzuRecord_init (data_dict : Py.dict) : KuzuRecord :=
  MkRecord data_dict (Py.keys data_dict).

Inductive index : Type :=
| ByPosition (i : Z)
| ByName (k : str).

(** [self._data[k]]. *)
Definition subscript (d : Py.dict) (k : str) : outcome Py.value :=
  match Py.get k d with
  | Some v => Return v
  | None => Raise (Exn (# "KeyError") (Py.repr_str k))
  end.

(** [KuzuRecord.__getitem__]. *)
Definition __getitem__ (self : KuzuRecord) (key : index) : outcome Py.value :=
  match key with
  | ByPosition i =>
      if ((0 <=? i) && (i <? Z.of_nat (length (_keys self))))%Z
      then match nth_error (_keys self) (Z.to_nat i) with
           | Some k => subscript (_data self) k
           | None => Raise (Exn (# "IndexError") (# "list index out of range"))
           end
      else Raise (Exn (# "IndexError")
                      (# "Index " ++ Py.str_of_Z i ++ # " out of range"))
  | ByName k => subscript (_data self) k
  end.

(** ** [KuzuResultWrapper] *)

Record KuzuResultWrapper : Type := MkWrapper {
  result : option native_result;
  _consumed : bool
}.

Definition KuzuResultWrapper_init (r : option native_result)
  : KuzuResultWrapper := MkWrapper r false.

(** The loop over one row: [record[cols[i]] = val]. *)
Fixpoint fill_record (cols : list str) (i : nat) (row : list Py.value)
         (record : Py.dict) : outcome Py.dict :=
  match row with
  | [] => Return record
  | val :: row' =>
      match nth_error cols i with
      | Some c => fill_record cols (S i) row' (Py.set c val record)
      | None => Raise (Exn (# "IndexError") (# "list index out of range"))
      end
  end.

Fixpoint read_rows (cols : list str) (rows : list (list Py.value))
         (records : list Py.dict)
  : outcome (list Py.dict) * list (list Py.value) :=
  match rows with
  | [] => (Return records, [])
  | row :: rows' =>
      match fill_record cols 0 row [] with
      | Return record => read_rows cols rows' (records ++ [record])
      | Raise e => (Raise e, rows')
      end
  end.

(** [data_raw]: the rows read, and the wrapper with the native cursor
    where the reading stopped. *)
Definition data_raw (self : KuzuResultWrapper)
  : outcome (list Py.dict) * KuzuResultWrapper :=
  match result self with
  | None => (Return [], self)
  | Some r =>
      let '(records, unread) := read_rows (column_names r) (pending_rows r) [] in
      (records, MkWrapper (Some (NativeResult (column_names r) unread))
                          (_consumed self))
  end.

(** [__iter__]: the records the iterator yields. *)
Definition __iter__ (self : KuzuResultWrapper)
  : outcome (list KuzuRecord) :=
  match fst (data_raw self) with
  | Return records => Return (map KuzuRecord_init records)
  | Raise e => Raise e
  end.

(** [single]. *)
Definition single (self : KuzuResultWrapper) : outcome (option KuzuRecord) :=
  match fst (data_raw self) with
  | Return (r :: _) => Return (Some (KuzuRecord_init r))
  | Return [] => Return None
  | Raise e => Raise e
  end.

(** ** [run] *)

Definition failure_line (query : str) (e : exn) : str :=
  # "Kuzu Query failed: " ++ Text.prefix 100 query ++ # "... Error: "
    ++ exn_str e.

(** [run].  The handler is [except Exception]: it takes the
    exceptions that are instances of [Exception] and lets the others
    (KeyboardInterrupt, SystemExit, ...) pass.  The class of what the
    engine raises is not known from its name, so
    [isinstance(e, Exception)] is a parameter, [is_Exception]. *)
Definition run (is_Exception : exn -> bool) (self : session connection)
           (query : str) (parameters : Py.dict)
  : outcome KuzuResultWrapper * list event :=
  let tr := _translate_query self query parameters in
  let before :=
    [DebugLog (# "Original Query: " ++ Text.prefix 200 query)]
    ++ map Printed (tr_printed tr)
    ++ [DebugLog (# "Translated Query: " ++ Text.prefix 200 (tr_query tr));
        Executed (tr_query tr) (tr_params tr)] in
  match session_conn self (tr_query tr) (tr_params tr) with
  | Return r => (Return (KuzuResultWrapper_init (Some r)), before)
  | Raise e =>
      if is_Exception e then
        let err_str := Text.lower (exn_str e) in
        if Text.contains (# "already exists") err_str
        then (Return (KuzuResultWrapper_init None), before)
        else (Raise e,
              before ++ [ErrorLog (failure_line query e);
                         DebugLog (failure_line query e)])
      else (Raise e, before)
  end.

End Kuzu.

(** * Notions used to state the properties *)

Module Notions.

Import Re Kuzu.

Definition is_executed (ev : event) : bool :=
  match ev with Executed _ _ => true | _ => false end.

Definition is_error_log (ev : event) : bool :=
  match ev with ErrorLog _ => true | _ => false end.

(** The calls of [conn.execute] in a trace. *)
Definition executions (trace : list event) : list event :=
  filter is_executed trace.

(** What the matcher can do, without the order in which it tries:
    [path r st st'] when [r] can take the matcher from [st] to [st']. *)
Inductive path : regex -> mstate -> mstate -> Prop :=
| path_chr p c a pr cs :
    p c = true -> path (Chr p) (MState pr (c :: a) cs) (MState (Some c) a cs)
| path_eps st : path Eps st st
| path_cat r1 r2 st st1 st2 :
    path r1 st st1 -> path r2 st1 st2 -> path (Cat r1 r2) st st2
| path_alt_l r1 r2 st st1 : path r1 st st1 -> path (Alt r1 r2) st st1
| path_alt_r r1 r2 st st1 : path r2 st st1 -> path (Alt r1 r2) st st1
| path_star_nil r st : path (Star r) st st
| path_star_step r st st1 st2 :
    path r st st1 -> path (Star r) st1 st2 -> path (Star r) st st2
| path_group n r st st1 :
    path r st st1 ->
    path (Group n r) st
         (MState (prev st1) (rest st1) ((n, consumed st st1) :: caps st1))
| path_backref n st a a' :
    lookup_cap n (caps st) = Some a ->
    Text.strip_prefix a (rest st) = Some a' ->
    path (Backref n) st (MState (last_or (prev st) a) a' (caps st))
| path_wordb st :
    xorb (word_at (prev st)) (word_at (hd_error (rest st))) = true ->
    path WordB st st.

(** The parameters rule 2 adds are named [__uid_...]. *)
Definition uid_named (kv : str * Py.value) : Prop :=
  exists v, fst kv = # "__uid_" ++ v.

(** The value a key field is bound to in a [MERGE] fragment: the
    parameter after the first [field: $p] of the inline properties,
    when it is bound to something other than [None]. *)
Definition key_value (part props_str : str) (parameters : Py.dict)
  : option Py.value :=
  match Re.search (part_pattern part) props_str with
  | Some p_match =>
      match Py.get (Re.group 1 p_match) parameters with
      | Some Py.VNone | None => None
      | Some p_val => Some p_val
      end
  | None => None
  end.

Fixpoint key_values (pk_parts : list str) (props_str : str)
         (parameters : Py.dict) : option (list Py.value) :=
  match pk_parts with
  | [] => Some []
  | part :: pk_parts' =>
      match key_value part props_str parameters with
      | Some v =>
          match key_values pk_parts' props_str parameters with
          | Some vs => Some (v :: vs)
          | None => None
          end
      | None => None
      end
  end.

Definition all_of (p : ascii -> bool) (w : str) : Prop :=
  Forall (fun c => p c = true) w.

(** A pattern that takes at least one character whenever it
    matches. *)
Definition consumes (r : regex) : Prop :=
  forall st st', path r st st' -> length (rest st') < length (rest st).

(** The label's attribute set, when the query shows a label for the
    variable and the schema knows it. *)
Definition known_attrs (query node_var : str) : option (list str) :=
  match search (def_pattern node_var) query with
  | Some def_match => assoc (group 1 def_match) SCHEMA_MAP
  | None => None
  end.

(** The keys of the bound map that get an assignment. *)
Definition kept_key (attrs : option (list str)) (item : str * Py.value)
  : bool :=
  negb (Py.is_dict_or_list (snd item)
        && negb (Text.eqb (fst item) (# "args"))
        && negb (Text.eqb (fst item) (# "decorators")))
  && match attrs with
     | Some a => in_set (fst item) a
     | None => true
     end.

Definition assignment (node_var param_name : str) (item : str * Py.value)
  : str :=
  node_var ++ # "." ++ fst item ++ # " = $" ++ param_name ++ # "_" ++ fst item.

Definition bind_item (param_name : str) (d : Py.dict) (item : str * Py.value)
  : Py.dict :=
  Py.set (param_name ++ # "_" ++ fst item) (snd item) d.

(** Two texts agree as far as both go. *)
Fixpoint compatible (a b : str) : bool :=
  match a, b with
  | x :: a', y :: b' => Ascii.eqb x y && compatible a' b'
  | _, _ => true
  end.

(** The ends of a text that are not empty. *)
Fixpoint tails (a : str) : list str :=
  match a with
  | [] => []
  | c :: a' => (c :: a') :: tails a'
  end.

(** No end of [needle] agrees with [head]: a text that starts with
    [head] cannot start inside [needle]. *)
Definition clear_of (head needle : str) : bool :=
  forallb (fun b => negb (compatible b head)) (tails needle).

(** How the texts the rules look for begin, in upper case. *)
Definition heads : list str :=
  [# "SET"; # "{"; # ":"; # "LABELS(N)[0]"; # "("; # "W"; # "AN"; # "OR";
   # "COALESCE("].

Definition schema_keywords : list str :=
  [# "CREATE CONSTRAINT"; # "CREATE INDEX"].

Definition is_keyword (kw : str) : Prop := In (Text.upper kw) schema_keywords.

End Notions.

(** * Sample queries, parameters and engines *)

Module Samples.

Import Re Kuzu.

Definition row_demo : Py.dict :=
  [(# "name", Py.VStr (# "foo")); (# "line", Py.VInt 10)].

(** The engine that always fails with one message. *)
Definition failing (msg : str) : connection :=
  fun _ _ => Raise (Exn (# "RuntimeError") msg).

(** The engine that is interrupted from the keyboard. *)
Definition interrupted : connection :=
  fun _ _ => Raise (Exn (# "KeyboardInterrupt") []).

(** [isinstance(e, Exception)] for the exceptions of the built-in
    classes: all but these four are instances of [Exception]. *)
Definition builtin_is_Exception (e : exn) : bool :=
  negb (in_set (exn_class e)
               [# "BaseException"; # "KeyboardInterrupt"; # "SystemExit";
                # "GeneratorExit"]).

Definition ab_params : Py.dict := [(# "a", Py.VInt 1); (# "b", Py.VInt 2)].

Definition foo_params : Py.dict :=
  [(# "name", Py.VStr (# "foo")); (# "path", Py.VStr (# "/x.py"));
   (# "line_number", Py.VInt 10)].

Definition foo_params_text_line : Py.dict :=
  [(# "name", Py.VStr (# "foo")); (# "path", Py.VStr (# "/x.py"));
   (# "line_number", Py.VStr (# "10"))].

Definition foo_props : str :=
  # "name: $name, path: $path, line_number: $line_number".

Definition ab_c_params : Py.dict :=
  [(# "name", Py.VStr (# "ab")); (# "path", Py.VStr (# "c"));
   (# "line_number", Py.VInt 1)].

Definition a_bc_params : Py.dict :=
  [(# "name", Py.VStr (# "a")); (# "path", Py.VStr (# "bc"));
   (# "line_number", Py.VInt 1)].

Definition bar_params : Py.dict :=
  [(# "name", Py.VStr (# "bar")); (# "path", Py.VStr (# "/x.py"));
   (# "line_number", Py.VInt 10)].

Definition foo_merge : str :=
  # "MERGE (f:Function {name: $name, path: $path, line_number: $line_number})".

Definition foo_match : rmatch :=
  RMatch foo_merge
         [(3, # "name: $name, path: $path, line_number: $line_number");
          (2, # "Function"); (1, # "f")].

Definition shared_var_query : str :=
  # "MERGE (f:Function {name: $a, path: $p, line_number: $l}) MERGE (f:Class {name: $b, path: $p, line_number: $l})".

Definition shared_var_params : Py.dict :=
  [(# "a", Py.VStr (# "A")); (# "b", Py.VStr (# "B"));
   (# "p", Py.VStr (# "/x")); (# "l", Py.VInt 1)].

Definition shared_block_query : str :=
  # "MERGE (a:Function {name: $n, path: $p, line_number: $l}) MERGE (b:Parameter {name: $n, path: $p, line_number: $l})".

Definition shared_block_params : Py.dict :=
  [(# "n", Py.VStr (# "A")); (# "p", Py.VStr (# "/x")); (# "l", Py.VInt 1)].

(** Two fragments with one property block, and a query that names a
    parameter [__uid_...] itself. *)
Definition twin_query : str :=
  # "MERGE (a:Function {name: $n, path: $p, line_number: $l}) MERGE (b:Function {name: $n, path: $p, line_number: $l})".

Definition own_uid_query : str :=
  # "MERGE (a:Function {name: $n, path: $p, line_number: $l}) SET a += $__uid_a".

Definition two_sets_query : str := # "SET a += $p SET b += $q".

Definition two_sets_params : Py.dict :=
  [(# "p", Py.VDict [(# "x", Py.VInt 1)]);
   (# "q", Py.VDict [(# "y", Py.VInt 2)])].

Definition doc_query : str :=
  # "MATCH (f:Function {name: $name}) SET f += $props".

Definition doc_params : Py.dict :=
  [(# "name", Py.VStr (# "foo"));
   (# "props", Py.VDict [(# "docstring", Py.VStr (# "hi"));
                         (# "color", Py.VStr (# "red"));
                         (# "lang", Py.VList []);
                         (# "args", Py.VList [Py.VStr (# "x")])])].

Definition doc_match : rmatch :=
  RMatch (# "SET f += $props") [(2, # "props"); (1, # "f")].

Definition poly_query (a b : str) : str :=
  # "MATCH (n) WHERE (n:" ++ a ++ # " OR n:" ++ b ++ # ") RETURN n".

Definition plain_query : str := # "MERGE (f:File {path: $path}) RETURN f.name".

Definition plain_params : Py.dict :=
  [(# "path", Py.VStr (# "/x.py")); (# "unused", Py.VInt 0)].

Definition fulltext_query : str :=
  # "CREATE FULLTEXT INDEX code_search FOR (n:Function) ON EACH [n.name]".

Definition spaced_index_query : str :=
  # "CREATE  INDEX file_path FOR (f:File) ON (f.path)".

End Samples.

(** * The rest of the record and result interface *)

Module Rec.

Import Kuzu.

(** [KuzuRecord.data]. *)
Definition data (self : KuzuRecord) : Py.dict := _data self.

(** [KuzuRecord.keys]. *)
Definition keys (self : KuzuRecord) : list str := _keys self.

(** [KuzuRecord.items]. *)
Definition items (self : KuzuRecord) : list (str * Py.value) := _data self.

(** [KuzuRecord.values]. *)
Definition values (self : KuzuRecord) : list Py.value := map snd (_data self).

(** [KuzuRecord.__len__]. *)
Definition __len__ (self : KuzuRecord) : nat := length (_data self).

(** [KuzuRecord.get]: [self._data.get(key, default)].  The keys of
    the dictionary are column names, so a position is never found. *)
Definition get (self : KuzuRecord) (key : index) (default : Py.value)
  : Py.value :=
  match key with
  | ByName k =>
      match Py.get k (_data self) with
      | Some v => v
      | None => default
      end
  | ByPosition _ => default
  end.

(** [KuzuResultWrapper.consume]. *)
Definition consume (self : KuzuResultWrapper) : KuzuResultWrapper :=
  MkWrapper (result self) true.

(** [KuzuResultWrapper.data]. *)
Definition data_of_result (self : KuzuResultWrapper)
  : outcome (list Py.dict) * KuzuResultWrapper :=
  data_raw self.

End Rec.

(** * The connection manager: [KuzuDBManager] *)

Module Manager.

Import Kuzu.

Definition node_tables : list (str * str) :=
  [
    (# "Repository",
     # "path STRING, name STRING, is_dependency BOOLEAN, PRIMARY KEY (path)");
    (# "File",
     # "path STRING, name STRING, relative_path STRING, is_dependency BOOLEAN, PRIMARY KEY (path)");
    (# "Directory",
     # "path STRING, name STRING, PRIMARY KEY (path)");
    (# "Module",
     # "name STRING, lang STRING, full_import_name STRING, PRIMARY KEY (name)");
    (# "Function",
     # "uid STRING, name STRING, path STRING, line_number INT64, end_line INT64, source STRING, docstring STRING, lang STRING, cyclomatic_complexity INT64, context STRING, context_type STRING, class_context STRING, is_dependency BOOLEAN, decorators STRING[], args STRING[], PRIMARY KEY (uid)");
    (# "Class",
     # "uid STRING, name STRING, path STRING, line_number INT64, end_line INT64, source STRING, docstring STRING, lang STRING, is_dependency BOOLEAN, decorators STRING[], PRIMARY KEY (uid)");
    (# "Variable",
     # "uid STRING, name STRING, path STRING, line_number INT64, source STRING, docstring STRING, lang STRING, value STRING, context STRING, is_dependency BOOLEAN, PRIMARY KEY (uid)");
    (# "Trait",
     # "uid STRING, name STRING, path STRING, line_number INT64, end_line INT64, source STRING, docstring STRING, lang STRING, is_dependency BOOLEAN, PRIMARY KEY (uid)");
    (# "Interface",
     # "uid STRING, name STRING, path STRING, line_number INT64, end_line INT64, source STRING, docstring STRING, lang STRING, is_dependency BOOLEAN, PRIMARY KEY (uid)");
    (# "Macro",
     # "uid STRING, name STRING, path STRING, line_number INT64, end_line INT64, source STRING, docstring STRING, lang STRING, is_dependency BOOLEAN, PRIMARY KEY (uid)");
    (# "Struct",
     # "uid STRING, name STRING, path STRING, line_number INT64, end_line INT64, source STRING, docstring STRING, lang STRING, is_dependency BOOLEAN, PRIMARY KEY (uid)");
    (# "Enum",
     # "uid STRING, name STRING, path STRING, line_number INT64, end_line INT64, source STRING, docstring STRING, lang STRING, is_dependency BOOLEAN, PRIMARY KEY (uid)");
    (# "Union",
     # "uid STRING, name STRING, path STRING, line_number INT64, end_line INT64, source STRING, docstring STRING, lang STRING, is_dependency BOOLEAN, PRIMARY KEY (uid)");
    (# "Annotation",
     # "uid STRING, name STRING, path STRING, line_number INT64, end_line INT64, source STRING, docstring STRING, lang STRING, is_dependency BOOLEAN, PRIMARY KEY (uid)");
    (# "Record",
     # "uid STRING, name STRING, path STRING, line_number INT64, end_line INT64, source STRING, docstring STRING, lang STRING, is_dependency BOOLEAN, PRIMARY KEY (uid)");
    (# "Property",
     # "uid STRING, name STRING, path STRING, line_number INT64, end_line INT64, source STRING, docstring STRING, lang STRING, is_dependency BOOLEAN, PRIMARY KEY (uid)");
    (# "Parameter",
     # "uid STRING, name STRING, path STRING, function_line_number INT64, PRIMARY KEY (uid)")
  ].

Definition rel_tables : list (str * str) :=
  [
    (# "CONTAINS",
     # "FROM File TO Function, FROM File TO Class, FROM File TO Variable, FROM File TO Trait, FROM File TO Interface, FROM `Macro` TO `Macro`, FROM File TO `Macro`, FROM File TO Struct, FROM File TO Enum, FROM File TO `Union`, FROM File TO Annotation, FROM File TO Record, FROM File TO Property, FROM Repository TO Directory, FROM Directory TO Directory, FROM Directory TO File, FROM Repository TO File, FROM Class TO Function, FROM Function TO Function");
    (# "CALLS",
     # "FROM Function TO Function, FROM Function TO Class, FROM File TO Function, FROM File TO Class, FROM Class TO Function, FROM Class TO Class, line_number INT64, args STRING[], full_call_name STRING");
    (# "IMPORTS",
     # "FROM File TO Module, alias STRING, full_import_name STRING, imported_name STRING, line_number INT64");
    (# "INHERITS",
     # "FROM Class TO Class, FROM Record TO Record, FROM Interface TO Interface");
    (# "HAS_PARAMETER",
     # "FROM Function TO Parameter");
    (# "INCLUDES",
     # "FROM Class TO Module");
    (# "IMPLEMENTS",
     # "FROM Class TO Interface, FROM Struct TO Interface, FROM Record TO Interface")
  ].

(** U+00F9, and the name of the engine as the log lines write it. *)
Definition u_grave : ascii := ascii_of_nat 249.
Definition KuzuDB_name : str := # "K" ++ [u_grave] ++ # "zuDB".

(** The [kuzu] library and the world it acts on: importing it
    ([None] when the import succeeds), opening a database, connecting
    to it, executing a statement on a connection; and the class tests
    [isinstance(e, ImportError)] and [isinstance(e, Exception)] of
    the handlers [except ImportError] and [except Exception]. *)
Record kuzu_env (W DB H : Type) : Type := KuzuEnv {
  import_kuzu : W -> option exn * W;
  Database : str -> W -> outcome DB * W;
  Connection : DB -> W -> outcome H * W;
  execute : H -> str -> W -> outcome native_result * W;
  is_ImportError : exn -> bool;
  is_Exception : exn -> bool
}.

(** What the manager does besides returning, in order. *)
Inductive boot_event : Type :=
| BInfo (line : str)
| BError (line : str)
| BDebug (line : str)
| BPrint (line : str)
| BExecute (statement : str).

(** The manager's fields. *)
Record manager (DB H : Type) : Type := MkManager {
  db_path : str;
  _db : option DB;
  _conn : option H
}.

(** [KuzuDriverWrapper]. *)
Record KuzuDriverWrapper (H : Type) : Type := MkDriver {
  conn : H
}.

(** [KuzuDriverWrapper.session]. *)
Definition session {H : Type} (self : KuzuDriverWrapper H) : Kuzu.session H :=
  session_init (conn self).

Definition create_statement (KIND table_name schema : str) : str :=
  # "CREATE " ++ KIND ++ # " TABLE `" ++ table_name ++ # "`(" ++ schema ++ # ")".

Definition schema_error_line (kind table_name : str) (e : exn) : str :=
  # "Kuzu Schema " ++ kind ++ # " Error (" ++ table_name ++ # "): " ++ exn_str e.

(** [_initialize_schema], the body of either loop: [KIND] is NODE or
    REL in the statement, [kind] is Node or Rel in the message.  The
    handler is [except Exception]: an exception that is no instance of
    [Exception] leaves the loop, and is the first component. *)
Definition create_table {W DB H : Type} (env : kuzu_env W DB H) (c : H)
           (KIND kind : str) (w : W) (table : str * str)
  : option exn * W * list boot_event :=
  let '(table_name, schema) := table in
  let statement := create_statement KIND table_name schema in
  match execute env c statement w with
  | (Return _, w') => (None, w', [BExecute statement])
  | (Raise e, w') =>
      if is_Exception env e then
        if negb (Text.contains (# "already exists") (Text.lower (exn_str e)))
        then (None, w', [BExecute statement;
                         BPrint (schema_error_line kind table_name e);
                         BDebug (schema_error_line kind table_name e)])
        else (None, w', [BExecute statement])
      else (Some e, w', [BExecute statement])
  end.

(** Either loop of [_initialize_schema]. *)
Fixpoint create_tables {W DB H : Type} (env : kuzu_env W DB H) (c : H)
         (KIND kind : str) (tables : list (str * str)) (w : W)
  : option exn * W * list boot_event :=
  match tables with
  | [] => (None, w, [])
  | table :: tables' =>
      match create_table env c KIND kind w table with
      | (Some e, w', trace) => (Some e, w', trace)
      | (None, w', trace) =>
          let '(r, w'', trace') := create_tables env c KIND kind tables' w' in
          (r, w'', trace ++ trace')
      end
  end.

(** [_initialize_schema]: the exception that leaves it, if any, the
    world afterwards, and what was executed, printed and logged. *)
Definition _initialize_schema {W DB H : Type} (env : kuzu_env W DB H) (c : H)
           (w : W) : option exn * W * list boot_event :=
  match create_tables env c (# "NODE") (# "Node") node_tables w with
  | (Some e, w', trace) => (Some e, w', trace)
  | (None, w', trace) =>
      let '(r, w'', trace') :=
        create_tables env c (# "REL") (# "Rel") rel_tables w' in
      (r, w'', trace ++ trace')
  end.

Definition missing_error : exn :=
  Exn (# "ValueError") (KuzuDB_name ++ # " missing.").

(** [get_driver], the two [except] clauses, [except ImportError]
    first; an exception that neither takes passes with nothing
    logged. *)
Definition init_failed {W DB H : Type} (env : kuzu_env W DB H) (e : exn)
           (self : manager DB H) (w : W) (trace : list boot_event)
  : outcome (KuzuDriverWrapper H) * manager DB H * W * list boot_event :=
  if is_ImportError env e
  then (Raise missing_error, self, w,
        trace ++ [BError (KuzuDB_name
                            ++ # " is not installed. Run 'pip install kuzu'")])
  else if is_Exception env e
  then (Raise e, self, w,
        trace ++ [BError (# "Failed to initialize " ++ KuzuDB_name ++ # ": "
                            ++ exn_str e)])
  else (Raise e, self, w, trace).

(** [get_driver]: the driver, the manager and the world afterwards,
    and what was logged and executed.  [self._conn] is assigned before
    the bootstrap runs. *)
Definition get_driver {W DB H : Type} (env : kuzu_env W DB H)
           (self : manager DB H) (w : W)
  : outcome (KuzuDriverWrapper H) * manager DB H * W * list boot_event :=
  match _conn self with
  | Some c => (Return (MkDriver c), self, w, [])
  | None =>
      match import_kuzu env w with
      | (Some e, w1) => init_failed env e self w1 []
      | (None, w1) =>
          let trace1 :=
            [BInfo (# "Initializing " ++ KuzuDB_name ++ # " at " ++ db_path self)] in
          match Database env (db_path self) w1 with
          | (Raise e, w2) => init_failed env e self w2 trace1
          | (Return db, w2) =>
              let self1 := MkManager (db_path self) (Some db) (_conn self) in
              match Connection env db w2 with
              | (Raise e, w3) => init_failed env e self1 w3 trace1
              | (Return c, w3) =>
                  let self2 := MkManager (db_path self) (Some db) (Some c) in
                  match _initialize_schema env c w3 with
                  | (Some e, w4, trace2) =>
                      init_failed env e self2 w4 (trace1 ++ trace2)
                  | (None, w4, trace2) =>
                      (Return (MkDriver c), self2, w4,
                       trace1 ++ trace2
                         ++ [BInfo (KuzuDB_name
                                      ++ # " connection established and schema verified")])
                  end
              end
          end
      end
  end.

(** [close_driver]. *)
Definition close_driver {DB H : Type} (self : manager DB H) : manager DB H :=
  MkManager (db_path self) None None.

(** [is_connected]; its handler too is [except Exception]. *)
Definition is_connected {W DB H : Type} (env : kuzu_env W DB H)
           (self : manager DB H) (w : W) : outcome bool * W :=
  match _conn self with
  | None => (Return false, w)
  | Some c =>
      match execute env c (# "RETURN 1") w with
      | (Return _, w') => (Return true, w')
      | (Raise e, w') =>
          if is_Exception env e then (Return false, w') else (Raise e, w')
      end
  end.

(** [get_backend_type]. *)
Definition get_backend_type : str := # "kuzudb".

End Manager.

(** * Choosing the backend: [core/__init__.py] *)

Module Factory.

Import Kuzu.

(** The manager class the factory instantiates. *)
Inductive backend : Type :=
| KuzuDBManager
| FalkorDBManager
| DatabaseManager.

(** What the factory reads and calls: the environment variables, the
    platform name, [sys.version_info] (major, minor),
    [importlib.util.find_spec(name) is not None] (which can raise),
    [isinstance(e, ImportError)], and the constructor of each manager
    class, which returns an instance or raises ([KuzuDBManager()]
    creates the directory of the database). *)
Record host : Type := Host {
  getenv : str -> option str;
  platform_system : str;
  version_info : nat * nat;
  find_spec : str -> outcome bool;
  host_is_ImportError : exn -> bool;
  construct : backend -> outcome unit
}.

(** The truth value of [os.getenv(...)]: set, and not empty. *)
Definition truthy (v : option str) : bool :=
  match v with
  | Some (_ :: _) => true
  | _ => false
  end.

Definition available (h : host) (module_name : str) : outcome bool :=
  match find_spec h module_name with
  | Return b => Return b
  | Raise e => if host_is_ImportError h e then Return false else Raise e
  end.

(** [_is_kuzudb_available]. *)
Definition _is_kuzudb_available (h : host) : outcome bool :=
  available h (# "kuzu").

(** [sys.version_info < (3, 12)]. *)
Definition before_3_12 (v : nat * nat) : bool :=
  (fst v <? 3) || ((fst v =? 3) && (snd v <? 12)).

(** [_is_falkordb_available]. *)
Definition _is_falkordb_available (h : host) : outcome bool :=
  if Text.eqb (platform_system h) (# "Windows") then Return false
  else if before_3_12 (version_info h) then Return false
  else available h (# "redislite").

(** [_is_neo4j_configured]. *)
Definition _is_neo4j_configured (h : host) : bool :=
  truthy (getenv h (# "NEO4J_URI"))
  && truthy (getenv h (# "NEO4J_USERNAME"))
  && truthy (getenv h (# "NEO4J_PASSWORD")).

Definition newline : ascii := ascii_of_nat 10.
Definition Kuzu_name : str := # "K" ++ [ascii_of_nat 249] ++ # "zu".

Definition ValueError (message : str) : exn := Exn (# "ValueError") message.

Definition kuzudb_not_installed : exn :=
  ValueError (# "Database set to 'kuzudb' but " ++ Kuzu_name
                ++ # " is not installed." ++ [newline]
                ++ # "Run 'pip install kuzu'").

Definition falkordb_not_installed : exn :=
  ValueError (# "Database set to 'falkordb' but FalkorDB Lite is not installed or not supported on this OS."
                ++ [newline] ++ # "Run 'pip install falkordblite'").

Definition neo4j_not_configured : exn :=
  ValueError (# "Database set to 'neo4j' but it is not configured."
                ++ [newline] ++ # "Run 'cgc neo4j setup' to configure Neo4j.").

Definition unknown_type (db_type : str) : exn :=
  ValueError (# "Unknown database type: '" ++ db_type
                ++ # "'. Use 'kuzudb', 'falkordb', or 'neo4j'.").

Definition no_backend (h : host) : exn :=
  ValueError
    (# "No database backend available." ++ [newline]
       ++ # "Recommended: Install " ++ Kuzu_name
       ++ # "DB for zero-config ('pip install kuzu')" ++ [newline]
       ++ (if negb (Text.eqb (platform_system h) (# "Windows"))
           then # "Alternative: Install FalkorDB Lite ('pip install falkordblite')"
                  ++ [newline]
           else [])
       ++ # "Alternative: Run 'cgc neo4j setup' to configure Neo4j.").

(** The type asked for: the first of the three variables that is set
    and not empty. *)
Definition requested_type (h : host) : option str :=
  let db_type := getenv h (# "CGC_RUNTIME_DB_TYPE") in
  let db_type := if negb (truthy db_type)
                 then getenv h (# "DEFAULT_DATABASE") else db_type in
  let db_type := if negb (truthy db_type)
                 then getenv h (# "DATABASE_TYPE") else db_type in
  db_type.

(** The end of each branch that chooses a class: the line is logged,
    then the constructor is called.  (The class is imported first,
    from a module that the package has already loaded.) *)
Definition instantiate (h : host) (b : backend) (line : str)
  : outcome backend * list str :=
  match construct h b with
  | Return _ => (Return b, [line])
  | Raise e => (Raise e, [line])
  end.

(** The part of [get_database_manager] that runs when no type is
    asked for. *)
Definition default_manager (h : host) : outcome backend * list str :=
  match _is_kuzudb_available h with
  | Raise e => (Raise e, [])
  | Return true =>
      instantiate h KuzuDBManager (# "Using " ++ Kuzu_name ++ # "DB (default)")
  | Return false =>
      match _is_falkordb_available h with
      | Raise e => (Raise e, [])
      | Return true =>
          instantiate h FalkorDBManager (# "Using FalkorDB Lite (default)")
      | Return false =>
          if _is_neo4j_configured h
          then instantiate h DatabaseManager
                           (# "Using Neo4j Server (auto-detected)")
          else (Raise (no_backend h), [])
      end
  end.

(** [get_database_manager]: the class instantiated, or the exception,
    and the lines given to [info_logger]. *)
Definition get_database_manager (h : host) : outcome backend * list str :=
  let db_type := requested_type h in
  if truthy db_type then
    let db_type := Text.lower match db_type with Some t => t | None => [] end in
    if Text.eqb db_type (# "kuzudb") then
      match _is_kuzudb_available h with
      | Raise e => (Raise e, [])
      | Return false => (Raise kuzudb_not_installed, [])
      | Return true =>
          instantiate h KuzuDBManager
                      (# "Using " ++ Kuzu_name ++ # "DB (explicit)")
      end
    else if Text.eqb db_type (# "falkordb") then
      match _is_falkordb_available h with
      | Raise e => (Raise e, [])
      | Return false => (Raise falkordb_not_installed, [])
      | Return true =>
          instantiate h FalkorDBManager (# "Using FalkorDB Lite (explicit)")
      end
    else if Text.eqb db_type (# "neo4j") then
      if negb (_is_neo4j_configured h)
      then (Raise neo4j_not_configured, [])
      else instantiate h DatabaseManager (# "Using Neo4j Server (explicit)")
    else (Raise (unknown_type db_type), [])
  else default_manager h.

End Factory.

(** * More notions used to state properties *)

Module Notions2.

Import Re Kuzu Notions Manager Factory.

(** [dict(zip(cols, row))]. *)
Definition row_dict (cols : list str) (row : list Py.value) : Py.dict :=
  fold_left (fun d cv => Py.set (fst cv) (snd cv) d) (combine cols row) [].

(** A row with no more cells than there are columns. *)
Definition fits (cols : list str) (row : list Py.value) : Prop :=
  length row <= length cols.

Definition index_error : exn :=
  Exn (# "IndexError") (# "list index out of range").

(** A text in which none of the texts the rules look for begins. *)
Definition untouched (K : str) : Prop :=
  forall head, In head heads -> clear_of head (Text.upper K) = true.

(** No text the pattern matches holds the character [x]. *)
Fixpoint avoids (x : ascii) (r : regex) : Prop :=
  match r with
  | Chr p => p x = false
  | Cat r1 r2 | Alt r1 r2 => avoids x r1 /\ avoids x r2
  | Star r1 | Group _ r1 => avoids x r1
  | Eps | Backref _ | WordB => True
  end.

Definition semicolon : ascii := ";"%char.
Definition closing_brace : ascii := "}"%char.

(** A text that holds the start of a statement: [sep] is the
    semicolon after which the statement starts, or nothing when the
    statement is the first of the text; [ws] is the white space before
    its first word [kw]. *)
Definition holds_start (sep ws kw text : str) : Prop :=
  exists pre tail,
    text = pre ++ (sep ++ ws ++ kw) ++ tail /\ (sep = [] -> pre = []).

(** Writing a sequence of bindings into a dictionary, one after the
    other, and the value the sequence leaves under a name. *)
Definition again (A d : Py.dict) : Py.dict :=
  fold_left (fun d kv => Py.set (fst kv) (snd kv) d) A d.

Fixpoint last_value (k : str) (A : Py.dict) : option Py.value :=
  match A with
  | [] => None
  | (k', v) :: A' =>
      match last_value k A' with
      | Some v' => Some v'
      | None => if Text.eqb k k' then Some v else None
      end
  end.

(** Two dictionaries that bind alike every name that is not named
    [__uid_...]. *)
Definition agrees (p p' : Py.dict) : Prop :=
  forall k, (forall w, k <> # "__uid_" ++ w) -> Py.get k p = Py.get k p'.

(** The statements a trace of the manager executed, in order. *)
Definition statements (trace : list boot_event) : list str :=
  flat_map (fun ev => match ev with BExecute s => [s] | _ => [] end) trace.

(** The statements that create the tables of the graph. *)
Definition schema_statements : list str :=
  map (fun t => create_statement (# "NODE") (fst t) (snd t)) node_tables
  ++ map (fun t => create_statement (# "REL") (fst t) (snd t)) rel_tables.

(** An engine whose failures, if any, are all instances of
    [Exception]. *)
Definition raises_only_exceptions {W DB H : Type} (env : kuzu_env W DB H)
  : Prop :=
  forall c statement w e,
    fst (execute env c statement w) = Raise e -> is_Exception env e = true.

(** An engine whose failures, if any, are all instances of
    [Exception] that say that the thing already exists. *)
Definition only_already_exists {W DB H : Type} (env : kuzu_env W DB H)
  : Prop :=
  forall c statement w e,
    fst (execute env c statement w) = Raise e ->
    is_Exception env e = true
    /\ Text.contains (# "already exists") (Text.lower (exn_str e)) = true.

(** The value of the database type that selects a backend. *)
Definition backend_name (b : backend) : str :=
  match b with
  | KuzuDBManager => # "kuzudb"
  | FalkorDBManager => # "falkordb"
  | DatabaseManager => # "neo4j"
  end.

(** What calling the constructor of a class gives the caller. *)
Definition constructed (h : host) (b : backend) : outcome backend :=
  match construct h b with
  | Return _ => Return b
  | Raise e => Raise e
  end.

(** A backend the host can run. *)
Definition usable (h : host) (b : backend) : Prop :=
  match b with
  | KuzuDBManager => find_spec h (# "kuzu") = Return true
  | FalkorDBManager =>
      platform_system h <> # "Windows"
      /\ before_3_12 (version_info h) = false
      /\ find_spec h (# "redislite") = Return true
  | DatabaseManager =>
      forall name,
        In name [# "NEO4J_URI"; # "NEO4J_USERNAME"; # "NEO4J_PASSWORD"] ->
        exists c v, getenv h name = Some (c :: v)
  end.

(** [a.split(sep)] for a separator that is not empty. *)
Fixpoint split_go (sep : str) (skip : nat) (cur a : str) : list str :=
  match a with
  | [] => [rev cur]
  | c :: a' =>
      match skip with
      | S n => split_go sep n cur a'
      | O =>
          match Text.strip_prefix sep a with
          | Some _ => rev cur :: split_go sep (length sep - 1) [] a'
          | None => split_go sep 0 (c :: cur) a'
          end
      end
  end.

Definition split (sep a : str) : list str := split_go sep 0 [] a.

(** The items of a table definition, the names of its columns, and
    the column of its primary key. *)
Definition ddl_items (schema : str) : list str := split (# ", ") schema.

Definition is_primary_key (item : str) : bool :=
  match Text.strip_prefix (# "PRIMARY KEY") item with
  | Some _ => true
  | None => false
  end.

Definition columns (schema : str) : list str :=
  map (fun item => hd [] (split (# " ") item))
      (filter (fun item => negb (is_primary_key item)) (ddl_items schema)).

Definition primary_key (schema : str) : option str :=
  match flat_map (fun item =>
                    match Text.strip_prefix (# "PRIMARY KEY (") item with
                    | Some r =>
                        match rev r with
                        | ")"%char :: k => [rev k]
                        | _ => []
                        end
                    | None => []
                    end) (ddl_items schema) with
  | [k] => Some k
  | _ => None
  end.

(** A node table and the translator's tables agree: the attributes
    allowed for the label are the table's columns, the primary key is
    a column, and it is [uid] exactly for the labels with a composite
    key, whose key fields are columns. *)
Definition table_agrees (t : str * str) : bool :=
  let cols := columns (snd t) in
  match assoc (fst t) SCHEMA_MAP, primary_key (snd t) with
  | Some attrs, Some pk =>
      forallb (fun k => in_set k cols) attrs
      && forallb (fun c => in_set c attrs) cols
      && in_set pk cols
      && match assoc (fst t) Kuzu.uid_map with
         | Some parts =>
             Text.eqb pk (# "uid") && forallb (fun p => in_set p cols) parts
         | None => negb (Text.eqb pk (# "uid"))
         end
  | _, _ => false
  end.

End Notions2.

(** * Sample libraries and hosts *)

Module Samples2.

Import Kuzu Manager Factory Samples.

(** [isinstance(e, ImportError)] for the exceptions of the built-in
    classes. *)
Definition builtin_is_ImportError (e : exn) : bool :=
  Text.eqb (exn_class e) (# "ModuleNotFoundError")
  || Text.eqb (exn_class e) (# "ImportError").

(** A library that works: the world counts the statements
    executed. *)
Definition working : kuzu_env nat unit unit :=
  KuzuEnv (fun w => (None, w))
          (fun _ w => (Return tt, w))
          (fun _ w => (Return tt, w))
          (fun _ _ w => (Return (NativeResult [] []), S w))
          builtin_is_ImportError builtin_is_Exception.

(** A host without the library. *)
Definition not_installed : kuzu_env nat unit unit :=
  KuzuEnv (fun w => (Some (Exn (# "ModuleNotFoundError")
                               (# "No module named 'kuzu'")), w))
          (fun _ w => (Return tt, w))
          (fun _ w => (Return tt, w))
          (fun _ _ w => (Return (NativeResult [] []), S w))
          builtin_is_ImportError builtin_is_Exception.

(** A library whose every statement is interrupted from the
    keyboard. *)
Definition interrupting : kuzu_env nat unit unit :=
  KuzuEnv (fun w => (None, w))
          (fun _ w => (Return tt, w))
          (fun _ w => (Return tt, w))
          (fun _ _ w => (Raise (Exn (# "KeyboardInterrupt") []), S w))
          builtin_is_ImportError builtin_is_Exception.

Definition fresh_manager : manager unit unit :=
  MkManager (# "/home/u/.codegraphcontext/kuzudb") None None.

(** A host with the embedded engine installed and the variable
    [DATABASE_TYPE] set as given. *)
Definition kuzu_host (database_type : option str) : host :=
  Host (fun name => if Text.eqb name (# "DATABASE_TYPE")
                    then database_type else None)
       (# "Linux") (3, 12)
       (fun name => Return (Text.eqb name (# "kuzu")))
       builtin_is_ImportError
       (fun _ => Return tt).

(** The same host, where the directory of the database cannot be
    created. *)
Definition no_directory : exn :=
  Exn (# "NotADirectoryError") (# "[Errno 20] Not a directory: '/home/u'").

Definition read_only_host : host :=
  Host (fun _ => None) (# "Linux") (3, 12)
       (fun name => Return (Text.eqb name (# "kuzu")))
       builtin_is_ImportError
       (fun _ => Raise no_directory).

End Samples2.


(** * Facts about text and dictionaries *)

Module TextFacts.

Import Text Notions Samples.

Lemma eqb_eq a b : eqb a b = true <-> a = b.
Proof. unfold eqb. destruct (list_eq_dec ascii_dec a b); split; congruence. Qed.

Lemma eqb_refl a : eqb a a = true.
Proof. apply eqb_eq. reflexivity. Qed.

Lemma eqb_neq a b : eqb a b = false <-> a <> b.
Proof. unfold eqb. destruct (list_eq_dec ascii_dec a b); split; congruence. Qed.

Lemma strip_prefix_map (f : ascii -> ascii) : forall p a a',
  strip_prefix p a = Some a' ->
  strip_prefix (map f p) (map f a) = Some (map f a').
Proof.
  induction p as [|x p IH]; intros [|y a] a'; simpl; try discriminate.
  - now intros [= <-].
  - now intros [= <-].
  - destruct (Ascii.eqb x y) eqn:E; [|discriminate].
    apply Ascii.eqb_eq in E. subst y. rewrite Ascii.eqb_refl. apply IH.
Qed.

(** A text that holds [needle] still holds it, mapped, after every
    character is mapped. *)
Lemma contains_map (f : ascii -> ascii) needle : forall hay,
  contains needle hay = true -> contains (map f needle) (map f hay) = true.
Proof.
  induction hay as [|c hay IH]; simpl.
  - destruct (strip_prefix needle []) eqn:E; [|discriminate].
    intros _. apply (strip_prefix_map f) in E. simpl in E. now rewrite E.
  - destruct (strip_prefix needle (c :: hay)) eqn:E.
    + intros _. apply (strip_prefix_map f) in E. simpl in E. now rewrite E.
    + intros H. rewrite (IH H).
      now destruct (strip_prefix (map f needle) (f c :: map f hay)).
Qed.

End TextFacts.

Module PyFacts.

Import Py TextFacts Notions Samples.

(** In a dictionary, the value found under the key at position [i]
    is the value at position [i]. *)
Lemma get_nth (d : dict) : wf d ->
  forall i k v, nth_error d i = Some (k, v) -> get k d = Some v.
Proof.
  unfold wf. induction d as [|[k' v'] d IH]; intros Hwf i k v Hi.
  - destruct i; discriminate.
  - simpl in Hwf. inversion Hwf as [|? ? Hnot Hd]; subst.
    destruct i as [|i]; simpl in *.
    + injection Hi as -> ->. now rewrite eqb_refl.
    + destruct (Text.eqb k k') eqn:E.
      * apply eqb_eq in E. subst k'. exfalso. apply Hnot.
        apply nth_error_In in Hi. unfold keys.
        change k with (fst (k, v)). now apply in_map.
      * eauto.
Qed.

Lemma keys_set_new k v (d : dict) :
  ~ In k (keys d) -> keys (set k v d) = keys d ++ [k].
Proof.
  induction d as [|[k' v'] d IH]; simpl; [reflexivity|].
  intros H. destruct (Text.eqb k k') eqn:E.
  - apply eqb_eq in E. subst. tauto.
  - simpl. f_equal. apply IH. tauto.
Qed.

Lemma keys_set_old k v (d : dict) :
  In k (keys d) -> keys (set k v d) = keys d.
Proof.
  induction d as [|[k' v'] d IH]; simpl; [tauto|].
  intros H. destruct (Text.eqb k k') eqn:E.
  - apply eqb_eq in E. now subst.
  - simpl. f_equal. apply IH. destruct H as [H|H]; [|exact H].
    apply eqb_neq in E. congruence.
Qed.

Lemma wf_set k v (d : dict) : wf d -> wf (set k v d).
Proof.
  unfold wf. intros H. destruct (in_dec (list_eq_dec ascii_dec) k (keys d)) as [Hin|Hin].
  - now rewrite keys_set_old.
  - rewrite keys_set_new by exact Hin.
    apply NoDup_rev in H. rewrite <- (rev_involutive (keys d ++ [k])).
    apply NoDup_rev. rewrite rev_app_distr. simpl. constructor; [|exact H].
    now rewrite <- in_rev.
Qed.

End PyFacts.

(** * Result records *)

Module RecordFacts.

Import Kuzu PyFacts Notions Samples.

Lemma fill_record_wf cols : forall row i record record',
  Py.wf record -> fill_record cols i row record = Return record' ->
  Py.wf record'.
Proof.
  induction row as [|val row IH]; simpl; intros i record record' Hwf H.
  - now injection H as <-.
  - destruct (nth_error cols i) as [c|]; [|discriminate].
    eapply IH; [|exact H]. now apply wf_set.
Qed.

Lemma read_rows_wf cols : forall rows records records',
  Forall Py.wf records ->
  fst (read_rows cols rows records) = Return records' ->
  Forall Py.wf records'.
Proof.
  induction rows as [|row rows IH]; simpl; intros records records' Hwf H.
  - now injection H as <-.
  - destruct (fill_record cols 0 row []) as [record|e] eqn:E; [|discriminate].
    eapply IH; [|exact H]. apply Forall_app. split; [exact Hwf|].
    constructor; [|constructor].
    eapply fill_record_wf; [|exact E]. constructor.
Qed.

(** Every record the result adapter yields is built from a
    dictionary with distinct column names. *)
Lemma iter_records_wf self records r :
  __iter__ self = Return records -> In r records ->
  exists d, r = KuzuRecord_init d /\ Py.wf d.
Proof.
  unfold __iter__, data_raw. destruct (result self) as [nr|]; simpl.
  - destruct (read_rows _ _ _) as [[ds|e] unread] eqn:E; simpl; [|discriminate].
    intros [= <-] Hin. apply in_map_iff in Hin as (d & <- & Hd).
    exists d. split; [reflexivity|].
    assert (Hf : Forall Py.wf ds).
    { apply (read_rows_wf (column_names nr) (pending_rows nr) (records := []));
        [constructor|now rewrite E]. }
    rewrite Forall_forall in Hf. auto.
  - intros [= <-] [].
Qed.

(** C10.  In a record built from a dictionary, position [i] with
    [0 <= i < number of columns] gives the value under the [i]-th
    column name, the [i]-th column name gives the same value, and any
    other position raises IndexError. *)
Theorem getitem_position_agrees_with_name (d : Py.dict) (i : Z) :
  Py.wf d ->
  let r := KuzuRecord_init d in
  let n := Z.of_nat (length (_keys r)) in
  ((0 <= i < n)%Z ->
     exists k v,
       nth_error (_keys r) (Z.to_nat i) = Some k
       /\ nth_error d (Z.to_nat i) = Some (k, v)
       /\ __getitem__ r (ByPosition i) = Return v
       /\ __getitem__ r (ByName k) = Return v)
  /\ (~ (0 <= i < n)%Z ->
      __getitem__ r (ByPosition i)
      = Raise (Exn (# "IndexError")
                   (# "Index " ++ Py.str_of_Z i ++ # " out of range"))).
Proof.
  intros Hwf r n.
  assert (Hn : n = Z.of_nat (length d))
    by (subst n r; simpl; unfold Py.keys; now rewrite length_map).
  assert (Hget : __getitem__ r (ByPosition i)
                 = if ((0 <=? i) && (i <? n))%Z
                   then match nth_error (Py.keys d) (Z.to_nat i) with
                        | Some k => subscript d k
                        | None => Raise (Exn (# "IndexError")
                                             (# "list index out of range"))
                        end
                   else Raise (Exn (# "IndexError")
                                   (# "Index " ++ Py.str_of_Z i
                                      ++ # " out of range")))
    by reflexivity.
  split.
  - intros Hi.
    destruct (nth_error d (Z.to_nat i)) as [[k v]|] eqn:E.
    2:{ apply nth_error_None in E. lia. }
    exists k, v.
    assert (Hk : nth_error (Py.keys d) (Z.to_nat i) = Some k)
      by (change (Some k) with (Some (fst (k, v)));
          apply map_nth_error; exact E).
    assert (Hg : Py.get k d = Some v) by (eapply get_nth; eauto).
    repeat split; auto.
    + rewrite Hget, Hk.
      replace ((0 <=? i) && (i <? n))%Z with true
        by (symmetry; apply andb_true_iff; split;
            [apply Z.leb_le|apply Z.ltb_lt]; lia).
      unfold subscript. now rewrite Hg.
    + unfold __getitem__, subscript, r. simpl. now rewrite Hg.
  - intros Hi. rewrite Hget.
    replace ((0 <=? i) && (i <? n))%Z with false; [reflexivity|].
    symmetry. apply andb_false_iff.
    destruct (Z.leb_spec 0 i); [right|left; reflexivity].
    apply Z.ltb_ge. lia.
Qed.

Lemma row_demo_wf : Py.wf row_demo.
Proof.
  unfold Py.wf, row_demo. simpl.
  constructor; [|constructor; [|constructor]]; simpl; intuition discriminate.
Defined.

Lemma getitem_position_agrees_with_name_witness :
  __getitem__ (KuzuRecord_init row_demo) (ByPosition 2)
  = Raise (Exn (# "IndexError") (# "Index 2 out of range"))
  /\ exists k v, __getitem__ (KuzuRecord_init row_demo) (ByPosition 1) = Return v
                 /\ __getitem__ (KuzuRecord_init row_demo) (ByName k) = Return v.
Proof.
  split.
  - apply (proj2 (getitem_position_agrees_with_name 2 row_demo_wf)).
    simpl. lia.
  - destruct (proj1 (getitem_position_agrees_with_name 1 row_demo_wf))
      as (k & v & _ & _ & H1 & H2); [simpl; lia|].
    exists k, v. split; assumption.
Defined.

End RecordFacts.

(** * The session's [run] and the purity of the translation *)

Module SessionFacts.

Import Kuzu TextFacts Notions Samples.

Lemma executions_before (printed : list str) a b q p :
  executions ([DebugLog a] ++ map Printed printed ++ [DebugLog b; Executed q p])
  = [Executed q p].
Proof.
  unfold executions. simpl. rewrite filter_app. simpl.
  replace (filter is_executed (map Printed printed)) with (@nil event);
    [reflexivity|].
  induction printed; simpl; auto.
Qed.

Lemma no_error_before (printed : list str) a b q p :
  filter is_error_log
    ([DebugLog a] ++ map Printed printed ++ [DebugLog b; Executed q p]) = [].
Proof.
  simpl. rewrite filter_app. simpl. rewrite app_nil_r.
  induction printed; simpl; auto.
Qed.

(** C5, as stated, fails: a failure whose message reads
    "Already Exists" does not hold the text "already exists", and
    is swallowed all the same; and an exception that is no instance
    of [Exception] is raised again with nothing logged. *)
Lemma run_swallows_any_letter_case :
  let e := Exn (# "RuntimeError") (# "Binder exception: Function Already Exists") in
  Text.contains (# "already exists") (exn_str e) = false
  /\ fst (run builtin_is_Exception (session_init (failing (exn_str e)))
              (# "RETURN 1") [])
     = Return (KuzuResultWrapper_init None)
  /\ fst (run builtin_is_Exception (session_init (failing (exn_str e)))
              (# "RETURN 1") [])
     <> Raise e
  /\ fst (run builtin_is_Exception (session_init interrupted) (# "RETURN 1") [])
     = Raise (Exn (# "KeyboardInterrupt") [])
  /\ filter is_error_log
       (snd (run builtin_is_Exception (session_init interrupted)
                 (# "RETURN 1") [])) = [].
Proof. vm_compute. repeat split; discriminate. Qed.

(** C5, amended.  When the engine raises [e] on the translated
    query and [e] is an instance of [Exception]: if [str(e)] in lower
    case holds "already exists" (in particular if [str(e)] holds it as
    it is), [run] returns a result that yields no records and logs no
    error; otherwise [run] raises [e] itself, after an error line with
    the first 100 characters of the query it was given.  When [e] is
    no instance of [Exception], [run] raises [e] itself and logs no
    error.  In every case [conn.execute] is called once. *)
Theorem run_failure_policy (is_Exception : exn -> bool)
        (self : session connection) (query : str)
        (parameters : Py.dict) (e : exn) :
  let tr := _translate_query self query parameters in
  session_conn self (tr_query tr) (tr_params tr) = Raise e ->
  let res := fst (run is_Exception self query parameters) in
  let trace := snd (run is_Exception self query parameters) in
  executions trace = [Executed (tr_query tr) (tr_params tr)]
  /\ (is_Exception e = true ->
      Text.contains (# "already exists") (Text.lower (exn_str e)) = true ->
      res = Return (KuzuResultWrapper_init None)
      /\ __iter__ (KuzuResultWrapper_init None) = Return []
      /\ single (KuzuResultWrapper_init None) = Return None
      /\ filter is_error_log trace = [])
  /\ (is_Exception e = true ->
      Text.contains (# "already exists") (exn_str e) = true ->
      res = Return (KuzuResultWrapper_init None))
  /\ (is_Exception e = true ->
      Text.contains (# "already exists") (Text.lower (exn_str e)) = false ->
      res = Raise e
      /\ filter is_error_log trace
         = [ErrorLog (# "Kuzu Query failed: " ++ firstn 100 query
                        ++ # "... Error: " ++ exn_str e)])
  /\ (is_Exception e = false ->
      res = Raise e /\ filter is_error_log trace = []).
Proof.
  intros tr Hexec res trace. subst res trace. unfold run. fold tr.
  rewrite Hexec.
  assert (Hlit : Text.contains (# "already exists") (exn_str e) = true ->
                 Text.contains (# "already exists") (Text.lower (exn_str e)) = true).
  { intros H. apply (contains_map Text.lower_char) in H. exact H. }
  assert (Hex : forall tail,
             executions
               (([DebugLog (# "Original Query: " ++ Text.prefix 200 query)] ++
                 map Printed (tr_printed tr) ++
                 [DebugLog (# "Translated Query: " ++ Text.prefix 200 (tr_query tr));
                  Executed (tr_query tr) (tr_params tr)])
                ++ filter (fun ev => negb (is_executed ev)) tail)
             = [Executed (tr_query tr) (tr_params tr)]).
  { intros tail. unfold executions. rewrite filter_app.
    fold (executions
            ([DebugLog (# "Original Query: " ++ Text.prefix 200 query)] ++
             map Printed (tr_printed tr) ++
             [DebugLog (# "Translated Query: " ++ Text.prefix 200 (tr_query tr));
              Executed (tr_query tr) (tr_params tr)])).
    rewrite executions_before.
    replace (filter is_executed (filter (fun ev => negb (is_executed ev)) tail))
      with (@nil event); [reflexivity|].
    induction tail as [|ev tail IH]; [reflexivity|]. simpl.
    destruct (is_executed ev) eqn:Eev; simpl; [exact IH|].
    now rewrite Eev. }
  destruct (is_Exception e) eqn:Ei.
  - destruct (Text.contains (# "already exists") (Text.lower (exn_str e))) eqn:E;
      cbn [fst snd].
    + split; [apply executions_before|].
      split; [intros _ _; repeat split; apply no_error_before|].
      split; [reflexivity|]. split; discriminate.
    + split; [exact (Hex [ErrorLog (failure_line query e);
                          DebugLog (failure_line query e)])|].
      split; [discriminate|].
      split; [intros _ H; apply Hlit in H; discriminate|].
      split; [|discriminate].
      intros _ _. split; [reflexivity|].
      rewrite filter_app, no_error_before. reflexivity.
  - cbn [fst snd]. split; [apply executions_before|].
    split; [discriminate|]. split; [discriminate|]. split; [discriminate|].
    intros _. split; [reflexivity|apply no_error_before].
Qed.

Lemma run_failure_policy_witness :
  fst (run builtin_is_Exception
           (session_init (failing (# "Table Function already exists")))
           (# "RETURN 1") [])
  = Return (KuzuResultWrapper_init None)
  /\ fst (run builtin_is_Exception
              (session_init (failing (# "Parser exception")))
              (# "RETURN 1") [])
     = Raise (Exn (# "RuntimeError") (# "Parser exception"))
  /\ fst (run builtin_is_Exception (session_init interrupted)
              (# "RETURN 1") [])
     = Raise (Exn (# "KeyboardInterrupt") []).
Proof.
  split; [|split].
  - apply (proj1 (proj2 (proj2
             (run_failure_policy builtin_is_Exception
                (session_init (failing (# "Table Function already exists")))
                (# "RETURN 1") []
                (e := Exn (# "RuntimeError") (# "Table Function already exists"))
                eq_refl)))); reflexivity.
  - apply (proj1 (proj2 (proj2 (proj2
             (run_failure_policy builtin_is_Exception
                (session_init (failing (# "Parser exception")))
                (# "RETURN 1") []
                (e := Exn (# "RuntimeError") (# "Parser exception"))
                eq_refl))))); reflexivity.
  - apply (proj2 (proj2 (proj2 (proj2
             (run_failure_policy builtin_is_Exception
                (session_init interrupted) (# "RETURN 1") []
                (e := Exn (# "KeyboardInterrupt") [])
                eq_refl))))); reflexivity.
Defined.

(** [run] calls the engine once, with the translated query. *)
Lemma run_executes_once (is_Exception : exn -> bool)
      (self : session connection) (query : str) (parameters : Py.dict) :
  let tr := _translate_query self query parameters in
  executions (snd (run is_Exception self query parameters))
  = [Executed (tr_query tr) (tr_params tr)].
Proof.
  intros tr. unfold run. fold tr.
  destruct (session_conn self (tr_query tr) (tr_params tr)) as [r|e];
    cbn [snd]; [apply executions_before|].
  destruct (is_Exception e); cbn [snd]; [|apply executions_before].
  destruct (Text.contains _ _); cbn [snd]; [apply executions_before|].
  unfold executions. rewrite filter_app.
  fold (executions
          ([DebugLog (# "Original Query: " ++ Text.prefix 200 query)] ++
           map Printed (tr_printed tr) ++
           [DebugLog (# "Translated Query: " ++ Text.prefix 200 (tr_query tr));
            Executed (tr_query tr) (tr_params tr)])).
  rewrite executions_before. reflexivity.
Qed.

End SessionFacts.

(** * Facts about the matcher *)

Module ReFacts.

Import Re TextFacts Notions Samples.

Create HintDb re.
#[local] Hint Constructors path : re.

(** Whatever the matcher finds, it finds along a path. *)
Lemma go_sound (A : Type) (r : regex) :
  forall st (k : mstate -> option A) x,
    go r st k = Some x -> exists st', path r st st' /\ k st' = Some x.
Proof.
  induction r as [p| |r1 IH1 r2 IH2|r1 IH1 r2 IH2|r1 IH1|n r1 IH1|n|];
    intros st k x H.
  - destruct st as [pr [|c a] cs]; simpl in H; [discriminate|].
    destruct (p c) eqn:E; [|discriminate].
    eexists. split; [constructor; exact E|exact H].
  - simpl in H. eauto with re.
  - simpl in H. apply IH1 in H as (st1 & P1 & H).
    apply IH2 in H as (st2 & P2 & H). eauto with re.
  - simpl in H. destruct (go r1 st k) eqn:E.
    + injection H as ->. apply IH1 in E as (st1 & P1 & E). eauto with re.
    + apply IH2 in H as (st1 & P1 & H). eauto with re.
  - simpl in H. revert H. generalize (length (rest st)) as fuel.
    intros fuel. revert st. induction fuel as [|fuel IHf]; intros st H.
    + eauto with re.
    + match type of H with
      | match ?g with _ => _ end = _ => destruct g eqn:E
      end.
      * injection H as ->. apply IH1 in E as (st1 & P1 & E).
        destruct (length (rest st1) <? length (rest st)); [|discriminate].
        apply IHf in E as (st2 & P2 & E). eauto with re.
      * eauto with re.
  - simpl in H. apply IH1 in H as (st1 & P1 & H). eauto with re.
  - simpl in H. destruct (lookup_cap n (caps st)) as [a|] eqn:E1; [|discriminate].
    destruct (Text.strip_prefix a (rest st)) as [a'|] eqn:E2; [|discriminate].
    eauto with re.
  - simpl in H.
    destruct (xorb (word_at (prev st)) (word_at (hd_error (rest st)))) eqn:E;
      [|discriminate].
    eauto with re.
Qed.

Lemma strip_prefix_app : forall p a a',
  Text.strip_prefix p a = Some a' -> a = p ++ a'.
Proof.
  induction p as [|x p IH]; intros [|y a] a'; simpl; try discriminate.
  - now intros [= <-].
  - now intros [= <-].
  - destruct (Ascii.eqb x y) eqn:E; [|discriminate].
    apply Ascii.eqb_eq in E. subst y. intros H. f_equal. now apply IH.
Qed.

Lemma strip_prefix_app_same p a : Text.strip_prefix p (p ++ a) = Some a.
Proof.
  induction p as [|x p IH]; simpl; [now destruct a|].
  now rewrite Ascii.eqb_refl.
Qed.

(** A path passes over a piece of the text ahead. *)
Lemma path_rest r st st' :
  path r st st' -> exists w, rest st = w ++ rest st'.
Proof.
  induction 1; simpl.
  - now exists [c].
  - now exists [].
  - destruct IHpath1 as (w1 & E1), IHpath2 as (w2 & E2).
    exists (w1 ++ w2). now rewrite E1, E2, app_assoc.
  - assumption.
  - assumption.
  - now exists [].
  - destruct IHpath1 as (w1 & E1), IHpath2 as (w2 & E2).
    exists (w1 ++ w2). now rewrite E1, E2, app_assoc.
  - assumption.
  - exists a. now apply strip_prefix_app.
  - now exists [].
Qed.

Lemma consumed_app w st st' : rest st = w ++ rest st' -> consumed st st' = w.
Proof.
  unfold consumed. intros ->. rewrite length_app.
  replace (length w + length (rest st') - length (rest st')) with (length w) by lia.
  now rewrite firstn_app, firstn_all, Nat.sub_diag, firstn_O, app_nil_r.
Qed.

Lemma path_lit a : forall st st',
  path (Lit a) st st' -> rest st = a ++ rest st' /\ caps st' = caps st.
Proof.
  induction a as [|c a IH]; simpl; intros st st' H.
  - inversion H; subst. auto.
  - inversion H as [| |? ? ? st1 ? H1 H2| | | | | | |]; subst.
    apply IH in H2 as (E2 & Ec).
    inversion H1 as [? c' ? ? ? Hc| | | | | | | | |]; subst.
    apply Ascii.eqb_eq in Hc. subst c'. simpl in *.
    split; [now rewrite E2|exact Ec].
Qed.

(** A match at a position: the text there starts with the match, and
    the match lies on a path. *)
Lemma match_at_sound r p a m :
  match_at r p a = Some m ->
  exists st', path r (MState p a []) st'
              /\ a = whole m ++ rest st'
              /\ groups m = caps st'
              /\ whole m <> [].
Proof.
  unfold match_at. intros H.
  destruct (go r (MState p a []) (fun st1 => Some st1)) as [st1|] eqn:E;
    [|discriminate].
  apply go_sound in E as (st' & P & [= ->]).
  destruct (path_rest P) as (w & Ew). simpl in Ew.
  rewrite (@consumed_app w (MState p a []) st1 Ew) in H.
  destruct w as [|c w]; [discriminate|]. injection H as <-. simpl.
  exists st1. repeat split; auto. discriminate.
Qed.

(** Every match of a scan stands in the text, at a place where the
    pattern matches. *)
Lemma scan_go_hit r m : forall a skip p,
  In (Hit m) (scan_go r skip p a) ->
  exists pre post p', a = pre ++ whole m ++ post
                      /\ match_at r p' (whole m ++ post) = Some m.
Proof.
  induction a as [|c a IH]; intros skip p H; simpl in H; [contradiction|].
  destruct skip as [|n].
  - destruct (match_at r p (c :: a)) as [m'|] eqn:E.
    + destruct H as [H|H].
      * injection H as ->.
        destruct (match_at_sound _ _ _ E) as (st' & _ & Ea & _).
        exists [], (rest st'), p. simpl. rewrite <- Ea. auto.
      * apply IH in H as (pre & post & p' & -> & Hm).
        exists (c :: pre), post, p'. auto.
    + destruct H as [H|H]; [discriminate|].
      apply IH in H as (pre & post & p' & -> & Hm).
      exists (c :: pre), post, p'. auto.
  - apply IH in H as (pre & post & p' & -> & Hm).
    exists (c :: pre), post, p'. auto.
Qed.

Lemma finditer_hit r a m :
  In m (finditer r a) -> In (Hit m) (scan r a).
Proof.
  unfold finditer. intros H. apply in_flat_map in H as ([c|m'] & Hin & H).
  - contradiction.
  - destruct H as [->|[]]. exact Hin.
Qed.

Lemma finditer_sound r a m :
  In m (finditer r a) ->
  exists pre post p', a = pre ++ whole m ++ post
                      /\ match_at r p' (whole m ++ post) = Some m.
Proof. intros H. apply finditer_hit in H. eapply scan_go_hit; eauto. Qed.

Lemma search_sound r a m :
  search r a = Some m ->
  exists pre post p', a = pre ++ whole m ++ post
                      /\ match_at r p' (whole m ++ post) = Some m.
Proof.
  unfold search. intros H. apply finditer_sound.
  destruct (finditer r a); [discriminate|]. injection H as ->. now left.
Qed.

(** A scan without a match keeps the text as it is. *)
Lemma scan_go_no_hit r : forall a p,
  (forall m, ~ In (Hit m) (scan_go r 0 p a)) -> scan_go r 0 p a = map Keep a.
Proof.
  induction a as [|c a IH]; intros p H; simpl in *; [reflexivity|].
  destruct (match_at r p (c :: a)) as [m|].
  - exfalso. apply (H m). now left.
  - f_equal. apply IH. intros m Hm. apply (H m). now right.
Qed.

Lemma search_none_scan r a :
  search r a = None -> scan r a = map Keep a.
Proof.
  intros H. apply scan_go_no_hit. intros m Hm.
  unfold search, finditer in H. fold (scan r a) in Hm.
  induction (scan r a) as [|[c|m'] l IH]; simpl in *.
  - contradiction.
  - destruct Hm as [Hm|Hm]; [discriminate|auto].
  - discriminate.
Qed.

Lemma sub_keep (f : rmatch -> str) a :
  flat_map (fun x => match x with Hit m => f m | Keep c => [c] end) (map Keep a) = a.
Proof. induction a; simpl; congruence. Qed.

(** [re.sub] changes nothing when the pattern is not found. *)
Lemma sub_no_match r f a : search r a = None -> sub r f a = a.
Proof. intros H. unfold sub. rewrite (search_none_scan _ _ H). apply sub_keep. Qed.

End ReFacts.

(** * Facts about the translation *)

Module TextMore.

Import Text TextFacts ReFacts Notions Samples.

Lemma contains_here needle a : contains needle (needle ++ a) = true.
Proof.
  destruct a as [|c a]; [rewrite app_nil_r|].
  - destruct needle as [|x n]; [reflexivity|].
    simpl. rewrite Ascii.eqb_refl.
    replace (strip_prefix n n) with (Some (@nil ascii)); [reflexivity|].
    symmetry. rewrite <- (app_nil_r n) at 2. apply strip_prefix_app_same.
  - destruct needle as [|x n]; [reflexivity|].
    simpl. rewrite Ascii.eqb_refl. now rewrite strip_prefix_app_same.
Qed.

Lemma contains_cons needle c a :
  contains needle a = true -> contains needle (c :: a) = true.
Proof.
  intros H. simpl. now destruct (strip_prefix needle (c :: a)).
Qed.

(** A text holds what stands in it. *)
Lemma contains_intro needle pre post :
  contains needle (pre ++ needle ++ post) = true.
Proof.
  induction pre as [|c pre IH]; simpl app.
  - apply contains_here.
  - now apply contains_cons.
Qed.

Lemma replace_go_absent old new : forall a,
  contains old a = false -> replace_go old new 0 a = a.
Proof.
  induction a as [|c a IH]; simpl; [reflexivity|].
  destruct (strip_prefix old (c :: a)); [discriminate|].
  intros H. f_equal. apply IH.
  destruct a; simpl in *; exact H.
Qed.

(** [replace] changes nothing when [old] does not occur. *)
Lemma replace_absent old new a :
  contains old a = false -> replace old new a = a.
Proof.
  destruct old as [|x old]; [now destruct a|].
  apply replace_go_absent.
Qed.

End TextMore.

(** * Rule 5: parameter pruning *)

Module PruneFacts.

Import Kuzu PyFacts TextFacts Notions Samples.

Lemma in_set_In k l : in_set k l = true <-> In k l.
Proof.
  unfold in_set. rewrite existsb_exists. split.
  - intros (x & Hx & E). apply eqb_eq in E. now subst.
  - intros H. exists k. split; [exact H|apply eqb_refl].
Qed.

Lemma keys_filter_In (g : str -> bool) (d : Py.dict) k :
  In k (Py.keys (filter (fun kv => g (fst kv)) d)) <->
  In k (Py.keys d) /\ g k = true.
Proof.
  unfold Py.keys. rewrite !in_map_iff. split.
  - intros ([k' v] & <- & H). apply filter_In in H as (H & Hg). simpl in *.
    split; [|exact Hg]. now exists (k', v).
  - intros (([k' v] & <- & H) & Hg). exists (k', v). split; [reflexivity|].
    apply filter_In. auto.
Qed.

Lemma get_filter (g : str -> bool) (d : Py.dict) k :
  g k = true -> Py.get k (filter (fun kv => g (fst kv)) d) = Py.get k d.
Proof.
  intros Hg. induction d as [|[k' v] d IH]; simpl; [reflexivity|].
  destruct (g k') eqn:E; simpl.
  - now rewrite IH.
  - destruct (Text.eqb k k') eqn:Ek; [|exact IH].
    apply eqb_eq in Ek. congruence.
Qed.

(** Rule 1 leaves these parameters alone: neither is a map. *)
Lemma translate_set_ab query :
  snd (fst (translate_set query ab_params)) = ab_params
  /\ snd (translate_set query ab_params) = false.
Proof.
  unfold translate_set.
  destruct (Text.contains (# "SET") query && Text.contains (# "+=") query);
    [|split; reflexivity].
  destruct (Re.search set_pattern query) as [m|]; [|split; reflexivity].
  unfold ab_params. simpl Py.get.
  destruct (Text.eqb (Re.group 2 m) _); [split; reflexivity|].
  destruct (Text.eqb (Re.group 2 m) _); split; reflexivity.
Qed.

Lemma set_uid_after (d l : Py.dict) v x :
  (forall k, In k (Py.keys d) -> forall w, k <> # "__uid_" ++ w) ->
  Forall uid_named l ->
  exists l', Py.set (# "__uid_" ++ v) x (d ++ l) = d ++ l' /\ Forall uid_named l'.
Proof.
  intros Hd Hl. induction d as [|[k w] d IH]; simpl.
  - exists (Py.set (# "__uid_" ++ v) x l). split; [reflexivity|].
    clear Hd. induction l as [|[k w] l IHl]; simpl.
    + constructor; [now exists v|constructor].
    + inversion Hl; subst.
      destruct (Text.eqb _ k).
      * constructor; [now exists v|assumption].
      * constructor; auto.
  - destruct (Text.eqb _ k) eqn:E.
    + apply eqb_eq in E. exfalso. apply (Hd k (or_introl eq_refl) v). now symmetry.
    + destruct IH as (l' & E' & Hl'); [intros; apply Hd; now right|].
      exists l'. split; [f_equal; exact E'|exact Hl'].
Qed.

Lemma merge_step_after um (d : Py.dict) st m :
  (forall k, In k (Py.keys d) -> forall w, k <> # "__uid_" ++ w) ->
  (exists l, t_params st = d ++ l /\ Forall uid_named l) ->
  exists l, t_params (merge_step um st m) = d ++ l /\ Forall uid_named l.
Proof.
  intros Hd (l & E & Hl). unfold merge_step.
  destruct (assoc _ um) as [pk|]; [|now exists l].
  destruct (build_uid _ _ _ _) as [u|]; [|now exists l].
  destruct (@set_uid_after d l (Re.group 1 m) (Py.VStr u) Hd Hl) as (l' & E' & Hl').
  exists l'. split; [|exact Hl'].
  destruct (Text.contains _ _); simpl; now rewrite E.
Qed.

Lemma inject_uids_after um (d : Py.dict) query :
  (forall k, In k (Py.keys d) -> forall w, k <> # "__uid_" ++ w) ->
  exists l, t_params (inject_uids um (TState query d [])) = d ++ l
            /\ Forall uid_named l.
Proof.
  intros Hd. unfold inject_uids. simpl t_query.
  generalize (Re.finditer merge_pattern query) as ms.
  assert (H0 : exists l, t_params (TState query d []) = d ++ l /\ Forall uid_named l)
    by (exists []; simpl; now rewrite app_nil_r).
  revert H0. generalize (TState query d []) as st.
  intros st H0 ms. revert st H0.
  induction ms as [|m ms IH]; intros st H0; simpl; [exact H0|].
  apply IH. now apply merge_step_after.
Qed.

Lemma rewrite_ab (conn : Type) (self : session conn) query :
  exists l, t_params (fst (rewrite self query ab_params)) = ab_params ++ l
            /\ Forall uid_named l.
Proof.
  unfold rewrite.
  destruct (translate_set_ab query) as (E1 & _).
  destruct (translate_set query ab_params) as [[q1 p1] c]. simpl in E1. subst p1.
  simpl. apply inject_uids_after.
  intros k [<-|[<-|[]]] w; discriminate.
Qed.

Lemma filter_ab_only (used : list str) (l : Py.dict) :
  (forall k, In k used <-> k = # "a") -> Forall uid_named l ->
  filter (fun kv => in_set (fst kv) used) (ab_params ++ l) = [(# "a", Py.VInt 1)].
Proof.
  intros H Hl.
  assert (Ha : in_set (# "a") used = true) by (apply in_set_In, H; reflexivity).
  assert (Hb : in_set (# "b") used = false).
  { apply not_true_is_false. intros Hb. apply in_set_In, H in Hb. discriminate. }
  rewrite filter_app. unfold ab_params. cbn [filter fst]. rewrite Ha, Hb.
  replace (filter _ l) with (@nil (str * Py.value)); [reflexivity|].
  symmetry. induction Hl as [|[k v] l' (w & Hk) Hl IH]; [reflexivity|].
  cbn [filter fst] in *. rewrite IH.
  replace (in_set k used) with false; [reflexivity|].
  symmetry. apply not_true_is_false. intros Hc.
  apply in_set_In, H in Hc. subst k. discriminate.
Qed.




End PruneFacts.

(** * Rule 2: the synthesized identity *)

Module UidFacts.

Import Kuzu PyFacts TextFacts TextMore Notions Samples.

(** The identity is the string forms of the key values, one after
    the other; there is none as soon as a key value is missing. *)
Lemma build_uid_spec props_str parameters : forall pk_parts uid_val,
  build_uid pk_parts props_str parameters uid_val
  = match key_values pk_parts props_str parameters with
    | Some vs => Some (uid_val ++ concat (map Py.to_str vs))
    | None => None
    end.
Proof.
  induction pk_parts as [|part parts IH]; intros acc; simpl.
  - now rewrite app_nil_r.
  - unfold key_value.
    destruct (Re.search (part_pattern part) props_str) as [m|]; [|reflexivity].
    destruct (Py.get (Re.group 1 m) parameters) as [v|]; [|reflexivity].
    destruct v; try reflexivity; rewrite IH;
      destruct (key_values parts props_str parameters); try reflexivity;
        cbn [map concat]; now rewrite <- app_assoc.
Qed.

Lemma key_values_agree ps1 p1 ps2 p2 : forall parts,
  (forall part, In part parts -> key_value part ps1 p1 = key_value part ps2 p2) ->
  key_values parts ps1 p1 = key_values parts ps2 p2.
Proof.
  induction parts as [|part parts IH]; intros H; simpl; [reflexivity|].
  rewrite (H part (or_introl eq_refl)), IH; [reflexivity|].
  intros q Hq. apply H. now right.
Qed.

Lemma key_values_app ps p : forall pre post,
  key_values (pre ++ post) ps p
  = match key_values pre ps p, key_values post ps p with
    | Some a, Some b => Some (a ++ b)
    | _, _ => None
    end.
Proof.
  induction pre as [|part pre IH]; intros post; simpl.
  - now destruct (key_values post ps p).
  - destruct (key_value part ps p); [|reflexivity].
    rewrite IH. destruct (key_values pre ps p), (key_values post ps p); reflexivity.
Qed.

(** A key field bound to a value other than [None] has that value. *)
Lemma key_value_not_none part props_str parameters m v :
  Re.search (part_pattern part) props_str = Some m ->
  Py.get (Re.group 1 m) parameters = Some v -> v <> Py.VNone ->
  key_value part props_str parameters = Some v.
Proof.
  intros Hs Hg Hv. unfold key_value. rewrite Hs, Hg.
  destruct v; try reflexivity. contradiction.
Qed.




End UidFacts.

(** * The shape of the fragments the patterns match *)

Module ShapeFacts.

Import Re Kuzu TextFacts ReFacts TextMore Notions Samples.

Lemma path_cat_inv r1 r2 st st2 :
  path (Cat r1 r2) st st2 -> exists st1, path r1 st st1 /\ path r2 st1 st2.
Proof. inversion 1; subst; eauto. Qed.

Lemma path_chr_inv p st st' :
  path (Chr p) st st' ->
  exists c, rest st = c :: rest st' /\ p c = true /\ caps st' = caps st.
Proof. inversion 1; subst; simpl; eauto. Qed.

Lemma path_star_chr p st st' :
  path (Star (Chr p)) st st' ->
  exists w, rest st = w ++ rest st' /\ all_of p w /\ caps st' = caps st.
Proof.
  intros H. remember (Star (Chr p)) as r eqn:Er.
  induction H; try discriminate.
  - exists []. repeat split. constructor.
  - injection Er as ->.
    destruct (path_chr_inv H) as (c & E1 & Hc & C1).
    destruct (IHpath2 eq_refl) as (w & E2 & Hw & C2).
    exists (c :: w). simpl. rewrite E1, E2. repeat split.
    + now constructor.
    + congruence.
Qed.

Lemma path_plus_chr p st st' :
  path (Plus (Chr p)) st st' ->
  exists w, rest st = w ++ rest st' /\ all_of p w /\ w <> []
            /\ caps st' = caps st.
Proof.
  intros H. apply path_cat_inv in H as (st1 & H1 & H2).
  destruct (path_chr_inv H1) as (c & E1 & Hc & C1).
  destruct (path_star_chr H2) as (w & E2 & Hw & C2).
  exists (c :: w). simpl. rewrite E1, E2. repeat split.
  - now constructor.
  - discriminate.
  - congruence.
Qed.

Lemma path_group_plus n p st st' :
  path (Group n (Plus (Chr p))) st st' ->
  exists w, rest st = w ++ rest st' /\ all_of p w /\ w <> []
            /\ caps st' = (n, w) :: caps st.
Proof.
  inversion 1 as [| | | | | | |? ? ? st1 H1| |]; subst.
  destruct (path_plus_chr H1) as (w & E & Hw & Hn & C).
  exists w. simpl. repeat split; auto.
  rewrite (@consumed_app w st st1 E). now rewrite C.
Qed.

Lemma path_shrinks r st st' :
  path r st st' -> length (rest st') <= length (rest st).
Proof.
  intros P. destruct (path_rest P) as (w & ->). rewrite length_app. lia.
Qed.

Lemma consumes_chr p : consumes (Chr p).
Proof.
  intros st st' P. apply path_chr_inv in P as (c & -> & _). simpl. lia.
Qed.

Lemma consumes_cat_l r1 r2 : consumes r1 -> consumes (Cat r1 r2).
Proof.
  intros H st st' P. apply path_cat_inv in P as (st1 & P1 & P2).
  apply H in P1. apply path_shrinks in P2. lia.
Qed.

Lemma consumes_cat_r r1 r2 : consumes r2 -> consumes (Cat r1 r2).
Proof.
  intros H st st' P. apply path_cat_inv in P as (st1 & P1 & P2).
  apply H in P2. apply path_shrinks in P1. lia.
Qed.

Lemma consumes_alt r1 r2 : consumes r1 -> consumes r2 -> consumes (Alt r1 r2).
Proof.
  intros H1 H2 st st' P. inversion P; subst; auto.
Qed.

Lemma consumes_group n r : consumes r -> consumes (Group n r).
Proof.
  intros H st st' P. inversion P; subst. simpl. auto.
Qed.

Lemma consumes_lit c a : consumes (Lit (c :: a)).
Proof. apply consumes_cat_l, consumes_chr. Qed.

Lemma consumes_ilit c a : consumes (ILit (c :: a)).
Proof. apply consumes_cat_l, consumes_chr. Qed.

(** No pattern of the translator matches the empty text. *)
Lemma translator_patterns_consume :
  consumes set_pattern
  /\ (forall node_var, consumes (def_pattern node_var))
  /\ consumes merge_pattern
  /\ (forall part, consumes (part_pattern part))
  /\ (forall label, consumes (escape_pattern label))
  /\ consumes poly_pattern
  /\ (forall var_name, consumes (var_label_pattern var_name))
  /\ consumes single_label_pattern
  /\ consumes param_pattern.
Proof.
  assert (Hl : forall a r, a <> [] -> consumes (Cat (Lit a) r)).
  { intros [|c a] r Ha; [contradiction|]. apply consumes_cat_l, consumes_lit. }
  split; [apply Hl; discriminate|].
  split; [intros v; apply Hl; discriminate|].
  split; [apply Hl; discriminate|].
  split; [intros part; apply consumes_cat_r, Hl; discriminate|].
  split; [intros label; apply Hl; discriminate|].
  split; [apply Hl; discriminate|].
  split; [intros v; apply consumes_cat_r, Hl; discriminate|].
  split; [|apply Hl; discriminate].
  apply consumes_cat_l, consumes_group.
  repeat apply consumes_alt; apply consumes_cat_l;
    exact (@consumes_ilit _ _).
Qed.

(** So leaving out empty matches leaves out nothing: where
    [match_at] finds nothing, the matcher finds nothing. *)
Lemma match_at_none r p a :
  consumes r -> match_at r p a = None ->
  go r (MState p a []) (fun st1 => Some st1) = None.
Proof.
  intros Hc. unfold match_at.
  destruct (go r (MState p a []) (fun st1 => Some st1)) as [st1|] eqn:E;
    [|reflexivity].
  pose proof E as E'. apply go_sound in E' as (st' & P & [= ->]).
  pose proof (Hc _ _ P) as Hlt. destruct (path_rest P) as (w & Ew).
  rewrite (@consumed_app w (MState p a []) st1 Ew).
  destruct w; [|discriminate]. simpl in Ew. rewrite Ew in Hlt. simpl in Hlt. lia.
Qed.

(** Split a path over a sequence into its steps. *)
Ltac walk H :=
  repeat match type of H with
    | path (Cat _ _) _ _ =>
        let st := fresh "st" in
        let H1 := fresh "P" in
        apply path_cat_inv in H as (st & H1 & H)
    end.

(** A fragment [SET var += $param], as rule 1 finds it. *)
Lemma set_pattern_shape p a m :
  match_at set_pattern p a = Some m ->
  exists w1 w2 w3,
    whole m = # "SET" ++ w1 ++ group 1 m ++ w2 ++ # "+=" ++ w3 ++ # "$"
                ++ group 2 m
    /\ all_of Text.is_space w1 /\ w1 <> []
    /\ all_of Text.is_space w2 /\ all_of Text.is_space w3
    /\ all_of Text.is_word (group 1 m) /\ group 1 m <> []
    /\ all_of Text.is_word (group 2 m) /\ group 2 m <> [].
Proof.
  intros H. apply match_at_sound in H as (st' & P & Ea & Eg & _).
  unfold set_pattern, Seq in P. walk P.
  apply (path_lit (# "SET")) in P0 as (E0 & C0).
  apply path_plus_chr in P1 as (w1 & E1 & H1 & N1 & C1).
  apply path_group_plus in P2 as (v & E2 & H2 & N2 & C2).
  apply path_star_chr in P3 as (w2 & E3 & H3 & C3).
  apply (path_lit (# "+=")) in P4 as (E4 & C4).
  apply path_star_chr in P5 as (w3 & E5 & H5 & C5).
  apply (path_lit (# "$")) in P6 as (E6 & C6).
  apply path_group_plus in P as (pn & E7 & H7 & N7 & C7).
  simpl rest in E0. simpl caps in C0.
  assert (G1 : group 1 m = v).
  { unfold group. rewrite Eg, C7, C6, C5, C4, C3, C2. reflexivity. }
  assert (G2 : group 2 m = pn).
  { unfold group. rewrite Eg, C7. reflexivity. }
  rewrite G1, G2. exists w1, w2, w3. repeat split; auto.
  rewrite E0, E1, E2, E3, E4, E5, E6, E7 in Ea.
  apply (app_inv_tail (rest st')). rewrite <- Ea.
  now rewrite <- !app_assoc.
Qed.

(** A fragment [MERGE (var:Label {props})], as rule 2 finds it. *)
Lemma merge_pattern_shape p a m :
  match_at merge_pattern p a = Some m ->
  exists w1 w2,
    whole m = # "MERGE" ++ w1 ++ # "(" ++ group 1 m ++ # ":" ++ group 2 m
                ++ w2 ++ # "{" ++ group 3 m ++ # "})"
    /\ all_of Text.is_space w1 /\ w1 <> [] /\ all_of Text.is_space w2
    /\ all_of Text.is_word (group 1 m) /\ group 1 m <> []
    /\ group 2 m <> [] /\ group 3 m <> []
    /\ ~ In "}"%char (group 3 m).
Proof.
  intros H. apply match_at_sound in H as (st' & P & Ea & Eg & _).
  unfold merge_pattern, Seq in P. walk P.
  apply (path_lit (# "MERGE")) in P0 as (E0 & C0).
  apply path_plus_chr in P1 as (w1 & E1 & H1 & N1 & C1).
  apply (path_lit (# "(")) in P2 as (E2 & C2).
  apply path_group_plus in P3 as (v & E3 & H3 & N3 & C3).
  apply (path_lit (# ":")) in P4 as (E4 & C4).
  apply path_group_plus in P5 as (lb & E5 & H5 & N5 & C5).
  apply path_star_chr in P6 as (w2 & E6 & H6 & C6).
  apply (path_lit (# "{")) in P7 as (E7 & C7).
  apply path_group_plus in P8 as (ps & E8 & H8 & N8 & C8).
  apply (path_lit (# "})")) in P as (E9 & C9).
  simpl rest in E0. simpl caps in C0.
  assert (G1 : group 1 m = v).
  { unfold group. rewrite Eg, C9, C8, C7, C6, C5, C4, C3. reflexivity. }
  assert (G2 : group 2 m = lb).
  { unfold group. rewrite Eg, C9, C8, C7, C6, C5. reflexivity. }
  assert (G3 : group 3 m = ps).
  { unfold group. rewrite Eg, C9, C8. reflexivity. }
  rewrite G1, G2, G3. exists w1, w2. repeat split; auto.
  - rewrite E0, E1, E2, E3, E4, E5, E6, E7, E8, E9 in Ea.
    apply (app_inv_tail (rest st')). rewrite <- Ea.
    now rewrite <- !app_assoc.
  - intros Hin. unfold all_of in H8. rewrite Forall_forall in H8.
    apply H8 in Hin. discriminate.
Qed.

End ShapeFacts.

(** * Rule 2: identity injection *)

Module MergeFacts.

Import Re Kuzu PyFacts TextFacts ReFacts TextMore ShapeFacts UidFacts Notions Samples.

(** The query of the specification's example, with any key values:
    the identity is their string forms, one after the other. *)
Lemma foo_merge_any_values (v1 v2 v3 : Py.value) :
  v1 <> Py.VNone -> v2 <> Py.VNone -> v3 <> Py.VNone ->
  let parameters :=
    [(# "name", v1); (# "path", v2); (# "line_number", v3)] in
  let tr := _translate_query (session_init tt) foo_merge parameters in
  tr_query tr
  = # "MERGE (f:Function {name: $name, path: $path, line_number: $line_number, uid: $__uid_f})"
  /\ tr_params tr
     = parameters
         ++ [(# "__uid_f",
              Py.VStr (Py.to_str v1 ++ Py.to_str v2 ++ Py.to_str v3))].
Proof.
  intros H1 H2 H3 parameters tr.
  assert (Hk : key_values npl foo_props parameters = Some [v1; v2; v3]).
  { unfold npl. cbn [key_values].
    rewrite (@key_value_not_none (# "name") foo_props parameters
               (RMatch (# "name: $name") [(1, # "name")]) v1
               eq_refl eq_refl H1).
    rewrite (@key_value_not_none (# "path") foo_props parameters
               (RMatch (# "path: $path") [(1, # "path")]) v2
               eq_refl eq_refl H2).
    rewrite (@key_value_not_none (# "line_number") foo_props parameters
               (RMatch (# "line_number: $line_number") [(1, # "line_number")])
               v3 eq_refl eq_refl H3).
    reflexivity. }
  assert (Hb : build_uid npl foo_props parameters []
               = Some (Py.to_str v1 ++ Py.to_str v2 ++ Py.to_str v3)).
  { rewrite build_uid_spec, Hk. cbn [map concat app]. now rewrite app_nil_r. }
  subst tr. unfold _translate_query, rewrite.
  change (translate_set foo_merge parameters) with (foo_merge, parameters, false).
  unfold inject_uids. cbn [t_query].
  change (finditer merge_pattern foo_merge) with [foo_match].
  cbn [fold_left]. unfold merge_step.
  change (assoc _ (session_uid_map (session_init tt))) with (Some npl).
  cbn [t_params]. change (group 3 foo_match) with foo_props. rewrite Hb.
  split; reflexivity.
Qed.

(** C1: the code does not do what the claim says.  The rule works on the
    query of the specification's example.  But it replaces the block
    [{props}] wherever the text holds it, and names the parameter
    after the variable alone.  So a fragment that lacks a key field
    ([function_line_number] for Parameter) is changed all the same,
    and given the identity of another fragment, when its property
    block is also the block of a fragment that has its key fields;
    and of two fragments with one variable, the first is given the
    identity made of the key values of the second. *)
Theorem merge_identity_reaches_other_fragments :
  tr_params (_translate_query (session_init tt) foo_merge foo_params)
  = foo_params ++ [(# "__uid_f", Py.VStr (# "foo/x.py10"))]
  /\ (let tr := _translate_query (session_init tt) shared_block_query
                                shared_block_params in
      assoc (# "Parameter") uid_map
      = Some [# "name"; # "path"; # "function_line_number"]
      /\ key_value (# "function_line_number")
                   (# "name: $n, path: $p, line_number: $l")
                   shared_block_params = None
      /\ tr_query tr
         = # "MERGE (a:Function {name: $n, path: $p, line_number: $l, uid: $__uid_a}) MERGE (b:Parameter {name: $n, path: $p, line_number: $l, uid: $__uid_a})")
  /\ (let tr := _translate_query (session_init tt) shared_var_query
                                shared_var_params in
      tr_query tr
      = # "MERGE (f:Function {name: $a, path: $p, line_number: $l, uid: $__uid_f}) MERGE (f:Class {name: $b, path: $p, line_number: $l, uid: $__uid_f})"
      /\ build_uid npl (# "name: $a, path: $p, line_number: $l")
                   shared_var_params [] = Some (# "A/x1")
      /\ Py.get (# "__uid_f") (tr_params tr) = Some (Py.VStr (# "B/x1"))).
Proof. vm_compute. repeat split. Qed.

End MergeFacts.

(** * Rule 1: dynamic property merge *)

Module SetFacts.

Import Re Kuzu PyFacts TextFacts ReFacts TextMore ShapeFacts PruneFacts Notions Samples.

Lemma schema_nonempty l a : assoc l SCHEMA_MAP = Some a -> a <> [].
Proof.
  unfold SCHEMA_MAP. cbn [assoc].
  repeat (destruct (Text.eqb l _); [intros [= <-]; discriminate|]).
  discriminate.
Qed.

Lemma expand_item_spec node_var param_name label acc item :
  let allowed_props :=
    match label with
    | Some l => Some match assoc l SCHEMA_MAP with Some a => a | None => [] end
    | None => None
    end in
  let attrs := match label with Some l => assoc l SCHEMA_MAP | None => None end in
  expand_item node_var param_name allowed_props acc item
  = if kept_key attrs item
    then (fst acc ++ [assignment node_var param_name item],
          bind_item param_name (snd acc) item)
    else acc.
Proof.
  intros allowed_props attrs. destruct acc as [cl np], item as [k v].
  unfold expand_item, kept_key, assignment, bind_item. cbn [fst snd].
  destruct (Py.is_dict_or_list v && negb (Text.eqb k (# "args"))
            && negb (Text.eqb k (# "decorators"))); [reflexivity|].
  cbn [negb andb]. subst allowed_props attrs.
  destruct label as [l|]; [|reflexivity].
  destruct (assoc l SCHEMA_MAP) as [a|] eqn:Ea; [|reflexivity].
  apply schema_nonempty in Ea. destruct a as [|x a]; [contradiction|].
  cbn [is_empty negb andb]. destruct (in_set k (x :: a)); reflexivity.
Qed.

Lemma expand_fold node_var param_name label : forall props cl np,
  let allowed_props :=
    match label with
    | Some l => Some match assoc l SCHEMA_MAP with Some a => a | None => [] end
    | None => None
    end in
  let attrs := match label with Some l => assoc l SCHEMA_MAP | None => None end in
  fold_left (expand_item node_var param_name allowed_props) props (cl, np)
  = (cl ++ map (assignment node_var param_name) (filter (kept_key attrs) props),
     fold_left (bind_item param_name) (filter (kept_key attrs) props) np).
Proof.
  intros props cl np allowed_props attrs. revert cl np.
  induction props as [|item props IH]; intros cl np; cbn [fold_left filter].
  - cbn. now rewrite app_nil_r.
  - subst allowed_props attrs. rewrite expand_item_spec.
    destruct (kept_key _ item); cbn [fst snd map fold_left].
    + rewrite IH. now rewrite <- app_assoc.
    + apply IH.
Qed.

(** A match of the [SET] pattern passes the test on ["SET"] and
    ["+="] that guards rule 1. *)
Lemma set_match_guard query m :
  search set_pattern query = Some m ->
  Text.contains (# "SET") query && Text.contains (# "+=") query = true.
Proof.
  intros H. apply search_sound in H as (pre & post & p' & -> & Hm).
  apply set_pattern_shape in Hm as (w1 & w2 & w3 & -> & _).
  apply andb_true_iff. split.
  - rewrite <- !app_assoc. apply contains_intro.
  - replace (pre ++ (# "SET" ++ w1 ++ group 1 m ++ w2 ++ # "+=" ++ w3
                       ++ # "$" ++ group 2 m) ++ post)
      with ((pre ++ # "SET" ++ w1 ++ group 1 m ++ w2) ++ # "+="
              ++ (w3 ++ # "$" ++ group 2 m ++ post))
      by (now rewrite <- !app_assoc).
    apply contains_intro.
Qed.




End SetFacts.

(** * Rule 4 after rule 3: label predicates *)

Module LabelFacts.

Import Re Kuzu Notions Samples.

(** C6.  [(n:Function OR n:Class)] becomes a test of [label(n)]
    against the list of exactly Function and Class, which does not
    hold Variable.  [(n:Function OR n:Macro)] does not: rule 3 has put
    Macro between backticks before rule 4 looks for the disjunction,
    and the inline label tests stay in the text.  The same happens to
    a single test [WHERE n:Macro]. *)
Theorem reserved_label_disjunction_not_rewritten :
  tr_query (_translate_query (session_init tt)
              (poly_query (# "Function") (# "Class")) [])
  = # "MATCH (n) WHERE label(n) IN "
      ++ Py.json_dumps [# "Function"; # "Class"] ++ # " RETURN n"
  /\ findall1 (var_label_pattern (# "n")) (# "(n:Function OR n:Class)")
     = [# "Function"; # "Class"]
  /\ in_set (# "Variable") [# "Function"; # "Class"] = false
  /\ tr_query (_translate_query (session_init tt)
                 (poly_query (# "Function") (# "Macro")) [])
     = # "MATCH (n) WHERE (n:Function OR n:`Macro`) RETURN n"
  /\ tr_query (_translate_query (session_init tt)
                 (# "MATCH (n) WHERE n:Class RETURN n") [])
     = # "MATCH (n) WHERE label(n) = 'Class' RETURN n"
  /\ tr_query (_translate_query (session_init tt)
                 (# "MATCH (n) WHERE n:Macro RETURN n") [])
     = # "MATCH (n) WHERE n:`Macro` RETURN n".
Proof. vm_compute. repeat split. Qed.

End LabelFacts.

(** * Queries the rules do not touch *)

Module FrameFacts.

Import Re Kuzu TextFacts ReFacts TextMore PruneFacts Notions Samples.

Lemma merge_steps_skip um : forall ms st,
  (forall m, In m ms ->
     assoc (Text.strip colon (Text.strip backtick (group 2 m))) um = None) ->
  fold_left (merge_step um) ms st = st.
Proof.
  induction ms as [|m ms IH]; intros st H; simpl; [reflexivity|].
  unfold merge_step at 2. rewrite (H m (or_introl eq_refl)).
  apply IH. intros m' Hm'. apply H. now right.
Qed.

Lemma escape_labels_none query :
  (forall l, In l labels_to_escape -> search (escape_pattern l) query = None) ->
  escape_labels query = query.
Proof.
  unfold escape_labels. generalize labels_to_escape as ls.
  induction ls as [|l ls IH]; intros H; simpl; [reflexivity|].
  unfold escape_label at 2. rewrite sub_no_match by (apply H; now left).
  apply IH. intros l' Hl'. apply H. now right.
Qed.



End FrameFacts.

(** * Schema statements *)

Module SchemaFacts.

Import Re Kuzu TextFacts ReFacts TextMore ShapeFacts Notions Notions2 Samples.

Lemma compatible_intro : forall a b x y,
  a ++ x = b ++ y -> compatible a b = true.
Proof.
  induction a as [|c a IH]; intros [|d b] x y H; simpl; try reflexivity.
  simpl in H. injection H as -> H. rewrite Ascii.eqb_refl. simpl. eauto.
Qed.

Lemma tails_In : forall pre suf, suf <> [] -> In suf (tails (pre ++ suf)).
Proof.
  induction pre as [|c pre IH]; intros suf H; simpl.
  - destruct suf; [contradiction|]. now left.
  - right. now apply IH.
Qed.

Lemma upper_app a b : Text.upper (a ++ b) = Text.upper a ++ Text.upper b.
Proof. apply flat_map_app. Qed.

Lemma upper_char_nonempty c : Text.upper_char c <> [].
Proof.
  unfold Text.upper_char.
  destruct (_ || _); [discriminate|].
  destruct (Nat.eqb _ _); discriminate.
Qed.

Lemma upper_nonempty a : a <> [] -> Text.upper a <> [].
Proof.
  destruct a as [|c a]; [contradiction|]. intros _. simpl.
  pose proof (upper_char_nonempty c). destruct (Text.upper_char c);
    [contradiction|discriminate].
Qed.

(** Inside a text whose upper case is clear of [upper L], nothing
    starts with [L]. *)
Lemma no_start_inside kw pre suf tail L y :
  kw = pre ++ suf -> suf <> [] ->
  clear_of (Text.upper L) (Text.upper kw) = true ->
  suf ++ tail <> L ++ y.
Proof.
  intros -> Hne Hclear E.
  apply (f_equal Text.upper) in E. rewrite !upper_app in E.
  apply compatible_intro in E.
  unfold clear_of in Hclear. rewrite forallb_forall in Hclear.
  rewrite upper_app in Hclear.
  specialize (Hclear (Text.upper suf) (tails_In _ (upper_nonempty Hne))).
  rewrite E in Hclear. discriminate.
Qed.

Lemma keyword_clear kw head :
  is_keyword kw -> In head heads -> clear_of head (Text.upper kw) = true.
Proof.
  unfold is_keyword, schema_keywords, heads. intros Hk Hh.
  destruct Hk as [<-|[<-|[]]];
    repeat (destruct Hh as [<-|Hh]; [reflexivity|]); destruct Hh.
Qed.

(** [re.sub] keeps a start of the text in which the pattern matches
    nowhere. *)
Lemma scan_go_keeps_prefix r tail : forall kw p,
  (forall pre suf p', kw = pre ++ suf -> suf <> [] ->
     match_at r p' (suf ++ tail) = None) ->
  exists l, scan_go r 0 p (kw ++ tail) = map Keep kw ++ l.
Proof.
  induction kw as [|c kw IH]; intros p H.
  - now exists (scan_go r 0 p tail).
  - pose proof (H [] (c :: kw) p eq_refl) as H0. cbn [app] in *.
    cbn [scan_go]. rewrite H0 by discriminate.
    destruct (IH (Some c)) as (l & ->).
    + intros pre suf p' -> Hne. apply (H (c :: pre) suf p' eq_refl Hne).
    + now exists l.
Qed.

Lemma replace_go_keeps_prefix old new tail : forall kw,
  (forall pre suf, kw = pre ++ suf -> suf <> [] ->
     Text.strip_prefix old (suf ++ tail) = None) ->
  exists tail', Text.replace_go old new 0 (kw ++ tail) = kw ++ tail'.
Proof.
  induction kw as [|c kw IH]; intros H.
  - now exists (Text.replace_go old new 0 tail).
  - pose proof (H [] (c :: kw) eq_refl) as H0. cbn [app] in *.
    cbn [Text.replace_go]. rewrite H0 by discriminate.
    destruct IH as (tail' & ->).
    + intros pre suf -> Hne. apply (H (c :: pre) suf eq_refl Hne).
    + now exists tail'.
Qed.

Lemma escape_head label p a m :
  match_at (escape_pattern label) p a = Some m ->
  exists L y, a = L ++ y /\ In (Text.upper L) heads.
Proof.
  intros H. apply match_at_sound in H as (st' & P & _).
  unfold escape_pattern, Seq in P. walk P.
  apply (path_lit (# ":")) in P0 as (E0 & _). simpl rest in E0.
  exists (# ":"), (rest st). split; [exact E0|]. cbn. tauto.
Qed.

Lemma poly_head p a m :
  match_at poly_pattern p a = Some m ->
  exists L y, a = L ++ y /\ In (Text.upper L) heads.
Proof.
  intros H. apply match_at_sound in H as (st' & P & _).
  unfold poly_pattern, Seq in P. walk P.
  apply (path_lit (# "(")) in P0 as (E0 & _). simpl rest in E0.
  exists (# "("), (rest st). split; [exact E0|]. cbn. tauto.
Qed.

(** Under [re.IGNORECASE] a letter of the pattern is met by the
    letter in either case. *)
Lemma ignorecase_upper (a x : ascii) :
  In a [ "W"; "A"; "N"; "O"; "R" ]%char ->
  Ascii.eqb (Text.lower_char a) (Text.lower_char x) = true ->
  Text.upper_char x = [a].
Proof.
  intros Ha.
  repeat (destruct Ha as [<-|Ha];
          [destruct x as [[] [] [] [] [] [] [] []]; vm_compute; intros H;
           (reflexivity || discriminate)|]).
  destruct Ha.
Qed.

Lemma path_ilit_cons c a st st' :
  path (ILit (c :: a)) st st' ->
  exists x st1, rest st = x :: rest st1
                /\ Ascii.eqb (Text.lower_char c) (Text.lower_char x) = true
                /\ path (ILit a) st1 st'.
Proof.
  simpl. intros H. apply path_cat_inv in H as (st1 & H1 & H2).
  apply path_chr_inv in H1 as (x & E & Hx & _). eauto.
Qed.

Lemma path_group_inv n r st st' :
  path (Group n r) st st' -> exists st1, path r st st1.
Proof. inversion 1; subst; eauto. Qed.

Lemma path_alt_inv r1 r2 st st' :
  path (Alt r1 r2) st st' -> path r1 st st' \/ path r2 st st'.
Proof. inversion 1; subst; auto. Qed.

(** A text the pattern takes for a keyword starts as that keyword in
    some letter case. *)
Lemma path_keyword_head (c1 c2 : ascii) (a : str) (r : regex) st st' :
  In c1 [ "W"; "A"; "N"; "O"; "R" ]%char ->
  In c2 [ "W"; "A"; "N"; "O"; "R" ]%char ->
  path (Cat (ILit (c1 :: c2 :: a)) r) st st' ->
  exists x1 x2 y, rest st = x1 :: x2 :: y
                  /\ Text.upper_char x1 = [c1] /\ Text.upper_char x2 = [c2].
Proof.
  intros H1 H2 P. apply path_cat_inv in P as (s1 & P & _).
  apply path_ilit_cons in P as (x1 & s2 & E1 & Hx1 & P).
  apply path_ilit_cons in P as (x2 & s3 & E2 & Hx2 & _).
  exists x1, x2, (rest s3). rewrite E1, E2.
  repeat split; now apply ignorecase_upper.
Qed.

Lemma single_label_head p a m :
  match_at single_label_pattern p a = Some m ->
  exists L y, a = L ++ y /\ In (Text.upper L) heads.
Proof.
  intros H. apply match_at_sound in H as (st' & P & _).
  unfold single_label_pattern, Seq in P.
  apply path_cat_inv in P as (s1 & P & _).
  apply path_group_inv in P as (s2 & P).
  apply path_alt_inv in P as [P|P]; [|apply path_alt_inv in P as [P|P]].
  - apply path_cat_inv in P as (s3 & P & _).
    apply (@path_ilit_cons "W"%char (# "HERE")) in P as (x & s4 & E & Hx & _).
    apply ignorecase_upper in Hx; [|cbn; tauto].
    exists [x], (rest s4). split; [exact E|].
    cbn [Text.upper flat_map]. rewrite Hx. cbn. tauto.
  - apply (@path_keyword_head "A"%char "N"%char (# "D")) in P
      as (x1 & x2 & y & E & H1 & H2); [|cbn; tauto|cbn; tauto].
    exists [x1; x2], y. split; [exact E|].
    cbn [Text.upper flat_map]. rewrite H1, H2. cbn. tauto.
  - apply (@path_keyword_head "O"%char "R"%char []) in P
      as (x1 & x2 & y & E & H1 & H2); [|cbn; tauto|cbn; tauto].
    exists [x1; x2], y. split; [exact E|].
    cbn [Text.upper flat_map]. rewrite H1, H2. cbn. tauto.
Qed.

#[local] Unset Implicit Arguments.

(** ** What a match can hold *)

Lemma lookup_cap_In n : forall cs a, lookup_cap n cs = Some a -> In (n, a) cs.
Proof.
  induction cs as [|[m b] cs IH]; intros a; simpl; [discriminate|].
  destruct (Nat.eqb n m) eqn:E.
  - intros [= ->]. apply Nat.eqb_eq in E. subst. now left.
  - intros H. right. now apply IH.
Qed.

(** The text a pattern takes holds no character that the pattern
    avoids, when the groups captured before hold none. *)
Lemma path_avoids x r st st' :
  path r st st' -> avoids x r ->
  (forall n a, In (n, a) (caps st) -> ~ In x a) ->
  exists w, rest st = w ++ rest st' /\ ~ In x w
            /\ forall n a, In (n, a) (caps st') -> ~ In x a.
Proof.
  induction 1; intros Hav Hc; cbn [avoids] in Hav.
  - exists [c]. cbn [rest caps]. split; [reflexivity|]. split; [|exact Hc].
    intros [->|[]]. congruence.
  - exists []. auto.
  - destruct Hav as [Ha1 Ha2].
    destruct (IHpath1 Ha1 Hc) as (w1 & E1 & N1 & C1).
    destruct (IHpath2 Ha2 C1) as (w2 & E2 & N2 & C2).
    exists (w1 ++ w2). split; [now rewrite E1, E2, app_assoc|].
    split; [|exact C2]. intros Hin. apply in_app_or in Hin. tauto.
  - destruct Hav as [Ha1 _]. now apply IHpath.
  - destruct Hav as [_ Ha2]. now apply IHpath.
  - exists []. auto.
  - destruct (IHpath1 Hav Hc) as (w1 & E1 & N1 & C1).
    destruct (IHpath2 Hav C1) as (w2 & E2 & N2 & C2).
    exists (w1 ++ w2). split; [now rewrite E1, E2, app_assoc|].
    split; [|exact C2]. intros Hin. apply in_app_or in Hin. tauto.
  - destruct (IHpath Hav Hc) as (w & E & N & C).
    exists w. cbn [rest caps]. split; [exact E|]. split; [exact N|].
    intros n0 a [[= <- <-]|Hin]; [|now apply (C n0 a)].
    now rewrite (consumed_app w st st1 E).
  - apply lookup_cap_In in H. apply strip_prefix_app in H0.
    exists a. cbn [rest caps]. split; [exact H0|]. split; [|exact Hc].
    now apply (Hc n a).
  - exists []. auto.
Qed.

Lemma match_avoids x r p a m :
  avoids x r -> match_at r p a = Some m -> ~ In x (whole m).
Proof.
  intros Hav Hm. apply match_at_sound in Hm as (st' & P & Ea & _).
  destruct (path_avoids x r _ _ P Hav) as (w & E & N & _).
  { intros n a0 []. }
  cbn [rest] in E. rewrite E in Ea. apply app_inv_tail in Ea. now subst w.
Qed.

(** A start of [a ++ b] that is longer than [a] holds the first
    character of [b]. *)
Lemma reaches_into (a b w r b' : str) (x : ascii) :
  a ++ b = w ++ r -> length a < length w -> b = x :: b' -> In x w.
Proof.
  intros E Hl ->. apply app_eq_app in E as (l & [[E1 E2]|[E1 E2]]).
  - subst a. rewrite length_app in Hl. lia.
  - subst w. destruct l as [|y l].
    + rewrite app_nil_r in Hl. lia.
    + injection E2 as <- _. apply in_or_app. right. now left.
Qed.

(** ** A part of the text that a rewriting leaves in its place *)

Lemma scan_go_keeps_middle r K tail :
  (forall k1 k2 p', K = k1 ++ k2 -> k2 <> [] ->
     match_at r p' (k2 ++ tail) = None) ->
  forall pre skip p,
    (forall p1 p2 p' m, pre = p1 ++ p2 -> p2 <> [] ->
       match_at r p' (p2 ++ K ++ tail) = Some m ->
       length (whole m) <= length p2) ->
    skip <= length pre ->
    exists l1 l2, scan_go r skip p (pre ++ K ++ tail) = l1 ++ map Keep K ++ l2
                  /\ (pre = [] -> l1 = []).
Proof.
  intros HK. induction pre as [|c pre IH]; intros skip p Hcross Hskip.
  - simpl in Hskip. assert (skip = 0) by lia. subst skip.
    destruct (@scan_go_keeps_prefix r tail K p HK) as (l & E).
    exists [], l. split; [exact E|reflexivity].
  - assert (Hcross' : forall p1 p2 p' m, pre = p1 ++ p2 -> p2 <> [] ->
              match_at r p' (p2 ++ K ++ tail) = Some m ->
              length (whole m) <= length p2).
    { intros p1 p2 p' m -> Hne Hm.
      exact (Hcross (c :: p1) p2 p' m eq_refl Hne Hm). }
    cbn [app scan_go]. destruct skip as [|n].
    + destruct (match_at r p (c :: pre ++ K ++ tail)) as [m|] eqn:Em.
      * pose proof (Hcross [] (c :: pre) p m eq_refl ltac:(discriminate) Em)
          as Hl. cbn [length] in Hl.
        destruct (IH (length (whole m) - 1) (Some c) Hcross' ltac:(lia))
          as (l1 & l2 & E & _).
        rewrite E. exists (Hit m :: l1), l2. split; [reflexivity|discriminate].
      * destruct (IH 0 (Some c) Hcross' ltac:(lia)) as (l1 & l2 & E & _).
        rewrite E. exists (Keep c :: l1), l2. split; [reflexivity|discriminate].
    + cbn [length] in Hskip.
      destruct (IH n (Some c) Hcross' ltac:(lia)) as (l1 & l2 & E & _).
      rewrite E. exists l1, l2. split; [reflexivity|discriminate].
Qed.

Lemma sub_keeps_middle r f pre K tail :
  (forall k1 k2 p', K = k1 ++ k2 -> k2 <> [] ->
     match_at r p' (k2 ++ tail) = None) ->
  (forall p1 p2 p' m, pre = p1 ++ p2 -> p2 <> [] ->
     match_at r p' (p2 ++ K ++ tail) = Some m ->
     length (whole m) <= length p2) ->
  exists pre' tail', sub r f (pre ++ K ++ tail) = pre' ++ K ++ tail'
                     /\ (pre = [] -> pre' = []).
Proof.
  intros HK Hcross. unfold sub, scan.
  destruct (scan_go_keeps_middle r K tail HK pre 0 None Hcross ltac:(lia))
    as (l1 & l2 & -> & H0).
  rewrite !flat_map_app, sub_keep.
  eexists _, _. split; [reflexivity|]. intros E. now rewrite (H0 E).
Qed.

Lemma replace_go_keeps_middle old new K tail :
  (forall k1 k2, K = k1 ++ k2 -> k2 <> [] ->
     Text.strip_prefix old (k2 ++ tail) = None) ->
  forall pre skip,
    (forall p1 p2 y, pre = p1 ++ p2 -> p2 <> [] ->
       Text.strip_prefix old (p2 ++ K ++ tail) = Some y ->
       length old <= length p2) ->
    skip <= length pre ->
    exists pre' tail',
      Text.replace_go old new skip (pre ++ K ++ tail) = pre' ++ K ++ tail'
      /\ (pre = [] -> pre' = []).
Proof.
  intros HK. induction pre as [|c pre IH]; intros skip Hcross Hskip.
  - simpl in Hskip. assert (skip = 0) by lia. subst skip.
    destruct (@replace_go_keeps_prefix old new tail K HK) as (t' & E).
    exists [], t'. split; [exact E|reflexivity].
  - assert (Hcross' : forall p1 p2 y, pre = p1 ++ p2 -> p2 <> [] ->
              Text.strip_prefix old (p2 ++ K ++ tail) = Some y ->
              length old <= length p2).
    { intros p1 p2 y -> Hne Hm.
      exact (Hcross (c :: p1) p2 y eq_refl Hne Hm). }
    cbn [app Text.replace_go]. destruct skip as [|n].
    + destruct (Text.strip_prefix old (c :: pre ++ K ++ tail)) as [y|] eqn:Em.
      * pose proof (Hcross [] (c :: pre) y eq_refl ltac:(discriminate) Em)
          as Hl. cbn [length] in Hl.
        destruct (IH (length old - 1) Hcross' ltac:(lia))
          as (p' & t' & E & _).
        rewrite E. exists (new ++ p'), t'.
        split; [now rewrite <- app_assoc|].
        discriminate.
      * destruct (IH 0 Hcross' ltac:(lia)) as (p' & t' & E & _).
        rewrite E. exists (c :: p'), t'. split; [reflexivity|discriminate].
    + cbn [length] in Hskip.
      destruct (IH n Hcross' ltac:(lia)) as (p' & t' & E & _).
      rewrite E. exists p', t'. split; [reflexivity|discriminate].
Qed.

Lemma replace_keeps_middle old new pre K tail :
  old <> [] ->
  (forall k1 k2, K = k1 ++ k2 -> k2 <> [] ->
     Text.strip_prefix old (k2 ++ tail) = None) ->
  (forall p1 p2 y, pre = p1 ++ p2 -> p2 <> [] ->
     Text.strip_prefix old (p2 ++ K ++ tail) = Some y ->
     length old <= length p2) ->
  exists pre' tail',
    Text.replace old new (pre ++ K ++ tail) = pre' ++ K ++ tail'
    /\ (pre = [] -> pre' = []).
Proof.
  intros Hne HK Hcross. unfold Text.replace.
  destruct old as [|x o] eqn:E; [contradiction|]. rewrite <- E in *.
  apply replace_go_keeps_middle; auto. lia.
Qed.

(** ** Rule 2's replacement: a block that grows before its last
    character *)

Lemma replace_go_skip old new : forall a b,
  Text.replace_go old new (length a) (a ++ b) = Text.replace_go old new 0 b.
Proof.
  induction a as [|c a IH]; intros b; [reflexivity|].
  cbn [length app Text.replace_go]. apply IH.
Qed.

Lemma last_of_app (o l p : str) (x : ascii) :
  o ++ [x] = p ++ l -> l <> [] -> exists l', l = l' ++ [x] /\ o = p ++ l'.
Proof.
  intros E Hne. destruct (exists_last Hne) as (l' & y & ->).
  rewrite app_assoc in E. apply app_inj_tail in E as [-> ->]. eauto.
Qed.

Lemma replace_go_block_keeps (o ins : str) (x : ascii) K tail :
  ~ In x K -> K <> [] ->
  (forall k1 k2, K = k1 ++ k2 -> k2 <> [] ->
     Text.strip_prefix (o ++ [x]) (k2 ++ tail) = None) ->
  forall pre skip, skip <= length pre ->
    exists pre' tail',
      Text.replace_go (o ++ [x]) (o ++ ins ++ [x]) skip (pre ++ K ++ tail)
      = pre' ++ K ++ tail'
      /\ (pre = [] -> pre' = []).
Proof.
  intros Hx HKne HK. induction pre as [|c pre IH]; intros skip Hskip.
  - simpl in Hskip. assert (skip = 0) by lia. subst skip.
    destruct (@replace_go_keeps_prefix (o ++ [x]) (o ++ ins ++ [x]) tail K HK)
      as (t' & E).
    exists [], t'. split; [exact E|reflexivity].
  - cbn [app Text.replace_go]. destruct skip as [|n].
    + destruct (Text.strip_prefix (o ++ [x]) (c :: pre ++ K ++ tail))
        as [y|] eqn:Em.
      * destruct (Nat.le_gt_cases (length (o ++ [x])) (length (c :: pre)))
          as [Hl|Hl].
        -- cbn [length] in Hl.
           destruct (IH (length (o ++ [x]) - 1) ltac:(lia)) as (p' & t' & E & _).
           rewrite E. exists ((o ++ ins ++ [x]) ++ p'), t'.
           split; [repeat rewrite <- app_assoc; reflexivity|].
           intros H0. discriminate.
        -- apply strip_prefix_app in Em.
           change (c :: pre ++ K ++ tail) with ((c :: pre) ++ K ++ tail) in Em.
           apply app_eq_app in Em as (l & [[E1 E2]|[E1 E2]]).
           { rewrite E1, length_app in Hl. lia. }
           assert (Hl0 : l <> []).
           { intros ->. rewrite app_nil_r in E1. rewrite E1 in Hl. lia. }
           apply app_eq_app in E2 as (l2 & [[E3 E4]|[E3 E4]]).
           { (* the block would end inside the protected part *)
             exfalso. destruct (last_of_app o l (c :: pre) x E1 Hl0)
               as (l' & -> & _).
             apply Hx. rewrite E3. apply in_or_app. left.
             apply in_or_app. right. now left. }
           destruct l2 as [|z l2].
           { exfalso. rewrite app_nil_r in E3. subst l.
             destruct (last_of_app o K (c :: pre) x E1 HKne) as (l' & EK & _).
             apply Hx. rewrite EK. apply in_or_app. right. now left. }
           subst l.
           rewrite app_assoc in E1.
           destruct (last_of_app o (z :: l2) ((c :: pre) ++ K) x E1
                       ltac:(discriminate)) as (t1 & Et1 & Eo).
           assert (Elen : length (o ++ [x]) - 1
                          = length (pre ++ K ++ z :: l2)).
           { rewrite E1. repeat rewrite length_app. cbn [length app].
             repeat rewrite length_app. cbn [length]. lia. }
           rewrite Elen, E4.
           replace (pre ++ K ++ (z :: l2) ++ y)
             with ((pre ++ K ++ z :: l2) ++ y)
             by (now rewrite <- !app_assoc).
           rewrite replace_go_skip.
           exists (c :: pre),
                  (t1 ++ ins ++ [x]
                      ++ Text.replace_go (o ++ [x]) (o ++ ins ++ [x]) 0 y).
           split; [|discriminate].
           rewrite Eo. rewrite <- !app_assoc. reflexivity.
      * destruct (IH 0 ltac:(lia)) as (p' & t' & E & _).
        rewrite E. exists (c :: p'), t'. split; [reflexivity|discriminate].
    + cbn [length] in Hskip.
      destruct (IH n ltac:(lia)) as (p' & t' & E & _).
      rewrite E. exists p', t'. split; [reflexivity|discriminate].
Qed.

(** ** The start of a statement *)

Lemma space_upper c : Text.is_space c = true -> Text.upper_char c = [c].
Proof.
  destruct c as [[] [] [] [] [] [] [] []]; vm_compute; intros H;
    (reflexivity || discriminate).
Qed.

Lemma clear_of_cons head c l :
  clear_of head (c :: l)
  = negb (compatible (c :: l) head) && clear_of head l.
Proof. reflexivity. Qed.

(** No text the rules look for begins with white space or a
    semicolon. *)
Lemma heads_begin_otherwise head c l :
  In head heads -> Text.is_space c = true \/ c = semicolon ->
  compatible (c :: l) head = false.
Proof.
  unfold heads. intros Hh Hc.
  repeat (destruct Hh as [<-|Hh];
          [cbn [compatible list_ascii_of_string];
           match goal with
           | |- Ascii.eqb c ?h && _ = false =>
               destruct (Ascii.eqb c h) eqn:E; [|reflexivity];
               apply Ascii.eqb_eq in E; subst c;
               destruct Hc as [Hc|Hc]; discriminate Hc
           end|]).
  destruct Hh.
Qed.

Lemma statement_start_untouched sep ws kw :
  sep = [] \/ sep = [semicolon] -> all_of Text.is_space ws -> is_keyword kw ->
  untouched (sep ++ ws ++ kw).
Proof.
  intros Hsep Hws Hk head Hh.
  assert (Hw : clear_of head (Text.upper (ws ++ kw)) = true).
  { induction Hws as [|c ws Hc Hws IH]; cbn [app].
    - now apply keyword_clear.
    - cbn [Text.upper flat_map]. rewrite (space_upper c Hc). cbn [app].
      rewrite clear_of_cons. fold (Text.upper (ws ++ kw)). rewrite IH.
      rewrite heads_begin_otherwise; auto. }
  destruct Hsep as [->| ->]; [exact Hw|].
  cbn [app Text.upper flat_map].
  change (Text.upper_char semicolon) with [semicolon]. cbn [app].
  rewrite clear_of_cons. fold (Text.upper (ws ++ kw)). rewrite Hw.
  rewrite heads_begin_otherwise; auto.
Qed.

Lemma upper_In x a : In x a -> forall y, In y (Text.upper_char x) ->
  In y (Text.upper a).
Proof.
  intros Hx y Hy. unfold Text.upper. apply in_flat_map. eauto.
Qed.

(** The start of a statement holds no closing brace. *)
Lemma statement_start_no_brace sep ws kw :
  sep = [] \/ sep = [semicolon] -> all_of Text.is_space ws -> is_keyword kw ->
  ~ In closing_brace (sep ++ ws ++ kw).
Proof.
  intros Hsep Hws Hk Hin.
  apply in_app_or in Hin as [Hin|Hin].
  { destruct Hsep as [->| ->]; [destruct Hin|].
    destruct Hin as [E|[]]. discriminate. }
  apply in_app_or in Hin as [Hin|Hin].
  { unfold all_of in Hws. rewrite Forall_forall in Hws.
    apply Hws in Hin. discriminate. }
  pose proof (upper_In _ _ Hin closing_brace (or_introl eq_refl)) as Hu.
  unfold is_keyword, schema_keywords in Hk.
  destruct Hk as [E|[E|[]]]; rewrite <- E in Hu;
    repeat (destruct Hu as [Hu|Hu]; [discriminate|]); destruct Hu.
Qed.

Lemma statement_start_nonempty sep ws kw :
  is_keyword kw -> sep ++ ws ++ kw <> [].
Proof.
  intros Hk E. apply app_eq_nil in E as [_ E]. apply app_eq_nil in E as [_ ->].
  unfold is_keyword, schema_keywords in Hk. cbn in Hk.
  destruct Hk as [Hk|[Hk|[]]]; discriminate.
Qed.

(** ** The rules leave the start of a schema statement in its place *)

Section Start.

Variables sep ws kw : str.
Hypothesis Hsep : sep = [] \/ sep = [semicolon].
Hypothesis Hws : all_of Text.is_space ws.
Hypothesis Hkw : is_keyword kw.

Lemma no_rule_starts_inside (k1 k2 tail L y : str) :
  sep ++ ws ++ kw = k1 ++ k2 -> k2 <> [] -> In (Text.upper L) heads ->
  k2 ++ tail <> L ++ y.
Proof.
  intros Ek Hne Hh.
  apply (@no_start_inside (sep ++ ws ++ kw) k1 k2 tail L y Ek Hne).
  now apply (statement_start_untouched sep ws kw Hsep Hws Hkw).
Qed.

(** What begins before the statement and holds no semicolon ends
    before it. *)
Lemma ends_before_statement (pre p1 p2 w r tail : str) :
  (sep = [] -> pre = []) -> pre = p1 ++ p2 -> p2 <> [] ->
  p2 ++ (sep ++ ws ++ kw) ++ tail = w ++ r -> ~ In semicolon w ->
  length w <= length p2.
Proof.
  intros Hp Ep Hne E Hw.
  destruct (Nat.le_gt_cases (length w) (length p2)) as [Hl|Hl]; [exact Hl|].
  exfalso. destruct Hsep as [Es|Es].
  - specialize (Hp Es). rewrite Ep in Hp.
    apply app_eq_nil in Hp as [_ Hp2]. contradiction.
  - apply Hw.
    apply (reaches_into p2 ((sep ++ ws ++ kw) ++ tail) w r
             ((ws ++ kw) ++ tail) semicolon E Hl).
    now rewrite Es.
Qed.

Lemma sub_holds_start r f text :
  avoids semicolon r ->
  (forall p a m, match_at r p a = Some m ->
     exists L y, a = L ++ y /\ In (Text.upper L) heads) ->
  holds_start sep ws kw text -> holds_start sep ws kw (sub r f text).
Proof.
  intros Hav Hhead (pre & tail & -> & Hp).
  destruct (sub_keeps_middle r f pre (sep ++ ws ++ kw) tail)
    as (pre' & tail' & E & H0).
  - intros k1 k2 p' Ek Hne.
    destruct (match_at r p' (k2 ++ tail)) as [m|] eqn:Em; [|reflexivity].
    destruct (Hhead _ _ _ Em) as (L & y & Es & Hh).
    exfalso. exact (no_rule_starts_inside k1 k2 tail L y Ek Hne Hh Es).
  - intros p1 p2 p' m Ep Hne Hm.
    pose proof (match_avoids semicolon r _ _ _ Hav Hm) as Hw.
    apply match_at_sound in Hm as (st' & _ & Ea & _).
    exact (ends_before_statement pre p1 p2 (whole m) (rest st') tail
             Hp Ep Hne Ea Hw).
  - exists pre', tail'. split; [exact E|]. intros Es. apply H0, Hp, Es.
Qed.

Lemma replace_holds_start head old_rest new text :
  In (Text.upper head) heads -> head <> [] ->
  ~ In semicolon (head ++ old_rest) ->
  holds_start sep ws kw text ->
  holds_start sep ws kw (Text.replace (head ++ old_rest) new text).
Proof.
  intros Hh Hne Hw (pre & tail & -> & Hp).
  destruct (replace_keeps_middle (head ++ old_rest) new pre
              (sep ++ ws ++ kw) tail) as (pre' & tail' & E & H0).
  - destruct head; [contradiction|discriminate].
  - intros k1 k2 Ek Hk2.
    destruct (Text.strip_prefix (head ++ old_rest) (k2 ++ tail)) as [y|] eqn:Es;
      [|reflexivity].
    apply strip_prefix_app in Es. rewrite <- app_assoc in Es.
    exfalso.
    exact (no_rule_starts_inside k1 k2 tail head (old_rest ++ y) Ek Hk2 Hh Es).
  - intros p1 p2 y Ep Hp2 Es. apply strip_prefix_app in Es.
    exact (ends_before_statement pre p1 p2 (head ++ old_rest) y tail
             Hp Ep Hp2 Es Hw).
  - exists pre', tail'. split; [exact E|]. intros Es. apply H0, Hp, Es.
Qed.

(** Rule 2 writes into a block, before its closing brace: what the
    block holds stays. *)
Lemma block_holds_start props ins text :
  holds_start sep ws kw text ->
  holds_start sep ws kw
    (Text.replace (# "{" ++ props ++ # "}") (# "{" ++ props ++ ins ++ # "}")
                  text).
Proof.
  intros (pre & tail & -> & Hp).
  change (# "{" ++ props ++ # "}")
    with ((# "{" ++ props) ++ [closing_brace]).
  change (# "{" ++ props ++ ins ++ # "}")
    with ((# "{" ++ props) ++ ins ++ [closing_brace]).
  change (Text.replace ((# "{" ++ props) ++ [closing_brace])
            ((# "{" ++ props) ++ ins ++ [closing_brace])
            (pre ++ (sep ++ ws ++ kw) ++ tail))
    with (Text.replace_go ((# "{" ++ props) ++ [closing_brace])
            ((# "{" ++ props) ++ ins ++ [closing_brace]) 0
            (pre ++ (sep ++ ws ++ kw) ++ tail)).
  destruct (replace_go_block_keeps (# "{" ++ props) ins closing_brace
              (sep ++ ws ++ kw) tail
              (statement_start_no_brace sep ws kw Hsep Hws Hkw)
              (statement_start_nonempty sep ws kw Hkw))
    with (pre := pre) (skip := 0) as (pre' & tail' & E & H0).
  - intros k1 k2 Ek Hk2.
    destruct (Text.strip_prefix ((# "{" ++ props) ++ [closing_brace])
                (k2 ++ tail)) as [y|] eqn:Es; [|reflexivity].
    apply strip_prefix_app in Es. rewrite <- !app_assoc in Es.
    exfalso.
    apply (no_rule_starts_inside k1 k2 tail (# "{")
             (props ++ [closing_brace] ++ y) Ek Hk2); [cbn; tauto|exact Es].
  - lia.
  - exists pre', tail'. split; [exact E|]. intros Es. apply H0, Hp, Es.
Qed.

Lemma set_pattern_avoids : avoids semicolon set_pattern.
Proof. vm_compute. repeat split. Qed.

Lemma poly_pattern_avoids : avoids semicolon poly_pattern.
Proof. vm_compute. repeat split. Qed.

Lemma single_label_pattern_avoids : avoids semicolon single_label_pattern.
Proof. vm_compute. repeat split. Qed.

Lemma escape_patterns_avoid :
  Forall (fun l => avoids semicolon (escape_pattern l)) labels_to_escape.
Proof. repeat constructor. Qed.

Lemma translate_set_holds_start text parameters :
  holds_start sep ws kw text ->
  holds_start sep ws kw (fst (fst (translate_set text parameters))).
Proof.
  intros H. unfold translate_set.
  destruct (Text.contains _ _ && Text.contains _ _); [|exact H].
  destruct (search set_pattern text) as [m|] eqn:Es; [|exact H].
  assert (Hw : (exists w, whole m = # "SET" ++ w)
               /\ ~ In semicolon (whole m)).
  { apply search_sound in Es as (pre & post & p' & _ & Hm). split.
    - apply set_pattern_shape in Hm as (w1 & w2 & w3 & -> & _). eauto.
    - exact (match_avoids semicolon set_pattern _ _ _ set_pattern_avoids Hm). }
  destruct Hw as [(w & Ew) Hsc].
  destruct (match Py.get (group 2 m) parameters with
            | Some v => v
            | None => Py.VDict []
            end); try exact H.
  destruct (expand_props _ _ _ _ _) as [[|cl cls] np]; cbn [fst];
    rewrite Ew in *; apply replace_holds_start; auto;
    (cbn; tauto) || discriminate.
Qed.

Lemma merge_step_holds_start um st m :
  holds_start sep ws kw (t_query st) ->
  holds_start sep ws kw (t_query (merge_step um st m)).
Proof.
  intros H. unfold merge_step.
  destruct (assoc _ um); [|exact H].
  destruct (build_uid _ _ _ _); [|exact H].
  destruct (Text.contains _ _); cbn [t_query]; [|exact H].
  exact (block_holds_start (group 3 m) (# ", uid: $" ++ # "__uid_" ++ group 1 m)
                           (t_query st) H).
Qed.

Lemma inject_uids_holds_start um st :
  holds_start sep ws kw (t_query st) ->
  holds_start sep ws kw (t_query (inject_uids um st)).
Proof.
  unfold inject_uids. generalize (finditer merge_pattern (t_query st)) as ms.
  intros ms. revert st. induction ms as [|m ms IH]; intros st H; simpl;
    [exact H|].
  apply IH. now apply merge_step_holds_start.
Qed.

Lemma escape_labels_holds_start text :
  holds_start sep ws kw text -> holds_start sep ws kw (escape_labels text).
Proof.
  unfold escape_labels. pose proof escape_patterns_avoid as Hav.
  revert text. induction Hav as [|l ls Hl Hls IH]; intros text H; simpl;
    [exact H|].
  apply IH. unfold escape_label.
  apply sub_holds_start; [exact Hl|apply escape_head|exact H].
Qed.

Lemma label_predicates_holds_start text :
  holds_start sep ws kw text -> holds_start sep ws kw (label_predicates text).
Proof.
  intros H. unfold label_predicates.
  apply sub_holds_start;
    [exact single_label_pattern_avoids|apply single_label_head|].
  apply sub_holds_start; [exact poly_pattern_avoids|apply poly_head|].
  rewrite <- (app_nil_r (# "labels(n)[0]")).
  apply replace_holds_start; auto; [cbn; tauto|discriminate|].
  cbn. intuition discriminate.
Qed.

Lemma holds_start_is_schema_statement text :
  holds_start sep ws kw text -> is_schema_statement text = true.
Proof.
  intros (pre & tail & -> & _).
  unfold is_schema_statement, schema_keywords. rewrite !upper_app.
  cbn [existsb].
  unfold is_keyword, schema_keywords in Hkw.
  assert (E : forall a b c d e : str,
             a ++ (b ++ c ++ d) ++ e = (a ++ b ++ c) ++ d ++ e).
  { intros. now rewrite <- !app_assoc. }
  rewrite E.
  destruct Hkw as [H|[H|[]]]; rewrite <- H, contains_intro;
    [reflexivity|apply orb_true_r].
Qed.

End Start.




End SchemaFacts.

(** * Records and results: the rest of the interface *)

Module RecFacts.

Import Kuzu Notions Samples TextFacts PyFacts RecordFacts.

Lemma get_key_some k (d : Py.dict) :
  In k (Py.keys d) -> exists v, Py.get k d = Some v.
Proof.
  induction d as [|[k' v'] d IH]; simpl; [tauto|].
  intros H. destruct (Text.eqb k k') eqn:E; [eauto|].
  apply IH. destruct H as [H|H]; [|exact H].
  apply eqb_neq in E. congruence.
Qed.

Lemma get_key_none k (d : Py.dict) :
  ~ In k (Py.keys d) -> Py.get k d = None.
Proof.
  induction d as [|[k' v'] d IH]; simpl; [reflexivity|].
  intros H. destruct (Text.eqb k k') eqn:E.
  - apply eqb_eq in E. subst. tauto.
  - apply IH. tauto.
Qed.

(** X1.  [get] and the subscript agree on the names a record has: a
    name that is a column gives the same value through both; a name
    that is not makes the subscript raise KeyError and [get] return
    the default; and [get] with a position returns the default even
    where the subscript finds a value. *)
Theorem get_agrees_with_subscript_on_names (self : KuzuRecord) (k : str)
        (default : Py.value) (i : Z) :
  (In k (Py.keys (_data self)) ->
     exists v, __getitem__ self (ByName k) = Return v
               /\ Rec.get self (ByName k) default = v)
  /\ (~ In k (Py.keys (_data self)) ->
      __getitem__ self (ByName k) = Raise (Exn (# "KeyError") (Py.repr_str k))
      /\ Rec.get self (ByName k) default = default)
  /\ Rec.get self (ByPosition i) default = default.
Proof.
  unfold __getitem__, subscript, Rec.get. split; [|split].
  - intros H. destruct (get_key_some _ _ H) as (v & ->). eauto.
  - intros H. now rewrite (get_key_none _ _ H).
  - reflexivity.
Qed.

Lemma get_agrees_with_subscript_on_names_witness :
  Rec.get (KuzuRecord_init row_demo) (ByName (# "line")) Py.VNone = Py.VInt 10
  /\ Rec.get (KuzuRecord_init row_demo) (ByName (# "col")) (Py.VInt 7)
     = Py.VInt 7.
Proof.
  split.
  - destruct (proj1 (get_agrees_with_subscript_on_names
                       (KuzuRecord_init row_demo) (# "line") Py.VNone 0))
      as (v & Hv & ->).
    + simpl. right. left. reflexivity.
    + vm_compute in Hv. now injection Hv as <-.
  - apply (proj1 (proj2 (get_agrees_with_subscript_on_names
                           (KuzuRecord_init row_demo) (# "col") (Py.VInt 7) 0))).
    vm_compute. intros [H|[H|[]]]; discriminate.
Defined.

(** X2.  In a record built from a dictionary, [keys()], [values()]
    and [items()] have [len(record)] entries, and position [i] gives
    the [i]-th of [values()], which [items()] pairs with the [i]-th of
    [keys()]. *)
Theorem values_follow_positions (d : Py.dict) (i : nat) :
  Py.wf d ->
  let r := KuzuRecord_init d in
  length (Rec.keys r) = Rec.__len__ r
  /\ length (Rec.values r) = Rec.__len__ r
  /\ (i < Rec.__len__ r ->
      exists k v,
        nth_error (Rec.keys r) i = Some k
        /\ nth_error (Rec.values r) i = Some v
        /\ nth_error (Rec.items r) i = Some (k, v)
        /\ __getitem__ r (ByPosition (Z.of_nat i)) = Return v)
  /\ (Rec.__len__ r <= i ->
      nth_error (Rec.values r) i = None
      /\ exists e, __getitem__ r (ByPosition (Z.of_nat i)) = Raise e
                   /\ exn_class e = # "IndexError").
Proof.
  intros Hwf r. subst r. unfold Rec.keys, Rec.values, Rec.items, Rec.__len__.
  cbn [_keys _data KuzuRecord_init]. unfold Py.keys. rewrite !length_map.
  split; [reflexivity|]. split; [reflexivity|]. split.
  - intros Hi. destruct (nth_error d i) as [[k v]|] eqn:E.
    2:{ apply nth_error_None in E. lia. }
    exists k, v.
    assert (Hk : nth_error (map fst d) i = Some k)
      by (change (Some k) with (Some (fst (k, v))); now apply map_nth_error).
    assert (Hv : nth_error (map snd d) i = Some v)
      by (change (Some v) with (Some (snd (k, v))); now apply map_nth_error).
    repeat split; auto.
    unfold __getitem__. cbn [_keys _data KuzuRecord_init]. unfold Py.keys.
    rewrite length_map, Nat2Z.id, Hk.
    replace ((0 <=? Z.of_nat i)%Z && (Z.of_nat i <? Z.of_nat (length d))%Z)
      with true
      by (symmetry; apply andb_true_iff; split;
          [apply Z.leb_le|apply Z.ltb_lt]; lia).
    unfold subscript. now rewrite (get_nth Hwf i E).
  - intros Hi. split.
    + apply nth_error_None. now rewrite length_map.
    + unfold __getitem__. cbn [_keys _data KuzuRecord_init]. unfold Py.keys.
      rewrite length_map.
      replace ((0 <=? Z.of_nat i)%Z && (Z.of_nat i <? Z.of_nat (length d))%Z)
        with false
        by (symmetry; apply andb_false_iff; right; apply Z.ltb_ge; lia).
      eexists. split; reflexivity.
Qed.

Lemma values_follow_positions_witness :
  exists v, nth_error (Rec.values (KuzuRecord_init row_demo)) 1 = Some v
            /\ __getitem__ (KuzuRecord_init row_demo) (ByPosition 1) = Return v.
Proof.
  destruct (proj1 (proj2 (proj2 (values_follow_positions 1 row_demo_wf))))
    as (k & v & _ & Hv & _ & Hg); [vm_compute; lia|].
  exists v. split; assumption.
Defined.

End RecFacts.

(** * Reading a native result *)

Module ResultFacts.

Import Kuzu Notions Notions2 Samples TextFacts PyFacts RecFacts.

#[local] Unset Implicit Arguments.

Lemma skipn_nth (cols : list str) : forall i c,
  nth_error cols i = Some c -> skipn i cols = c :: skipn (S i) cols.
Proof.
  induction cols as [|x cols IH]; intros [|i] c H; simpl in *; try discriminate.
  - now injection H as ->.
  - now apply IH.
Qed.

Lemma fill_record_zip cols : forall row i record,
  length row + i <= length cols ->
  fill_record cols i row record
  = Return (fold_left (fun d cv => Py.set (fst cv) (snd cv) d)
                      (combine (skipn i cols) row) record).
Proof.
  induction row as [|val row IH]; intros i record H; simpl.
  - now destruct (skipn i cols).
  - destruct (nth_error cols i) as [c|] eqn:E.
    2:{ apply nth_error_None in E. simpl in H. lia. }
    rewrite (skipn_nth _ _ _ E). simpl. apply IH. simpl in H. lia.
Qed.

Lemma fill_record_long cols : forall row i record,
  i <= length cols -> length cols < length row + i ->
  fill_record cols i row record = Raise index_error.
Proof.
  induction row as [|val row IH]; intros i record Hi H; simpl in *; [lia|].
  destruct (nth_error cols i) as [c|] eqn:E; [|reflexivity].
  assert (i < length cols) by (apply nth_error_Some; congruence).
  apply IH; lia.
Qed.

Lemma set_fresh k v (d : Py.dict) :
  ~ In k (Py.keys d) -> Py.set k v d = d ++ [(k, v)].
Proof.
  induction d as [|[k' v'] d IH]; simpl; [reflexivity|].
  intros H. destruct (Text.eqb k k') eqn:E.
  - apply eqb_eq in E. subst. tauto.
  - f_equal. apply IH. tauto.
Qed.

Lemma fold_set_fresh : forall (l d : Py.dict),
  NoDup (Py.keys l) ->
  (forall k, In k (Py.keys l) -> ~ In k (Py.keys d)) ->
  fold_left (fun d cv => Py.set (fst cv) (snd cv) d) l d = d ++ l.
Proof.
  induction l as [|[k v] l IH]; intros d Hnd Hdis; simpl.
  - now rewrite app_nil_r.
  - simpl in Hnd. inversion Hnd as [|? ? Hk Hl]; subst.
    rewrite set_fresh by (apply Hdis; now left).
    rewrite IH; [now rewrite <- app_assoc|exact Hl|].
    intros k' Hk' Hin. unfold Py.keys in Hin. rewrite map_app in Hin.
    apply in_app_or in Hin as [Hin|[<-|[]]].
    + apply (Hdis k'); [now right|exact Hin].
    + contradiction.
Qed.

Lemma keys_combine (cols : list str) : forall row : list Py.value,
  Py.keys (combine cols row) = firstn (length row) cols.
Proof.
  induction cols as [|c cols IH]; intros [|v row]; simpl; try reflexivity.
  f_equal. apply IH.
Qed.

Lemma combine_firstn (cols : list str) : forall row : list Py.value,
  combine (firstn (length row) cols) row = combine cols row.
Proof.
  induction cols as [|c cols IH]; intros [|v row]; simpl; try reflexivity.
  f_equal. apply IH.
Qed.

Lemma In_firstn (cols : list str) c : forall n,
  In c (firstn n cols) -> In c cols.
Proof.
  induction cols as [|x cols IH]; intros [|n]; simpl; try tauto.
  intros [H|H]; eauto.
Qed.

Lemma NoDup_firstn (cols : list str) : forall n,
  NoDup cols -> NoDup (firstn n cols).
Proof.
  induction cols as [|c cols IH]; intros [|n] H; simpl; try constructor.
  - inversion H; subst. intros Hin. apply In_firstn in Hin. contradiction.
  - inversion H; subst. auto.
Qed.

(** With distinct column names, the record of a row pairs the names
    with the cells, in order. *)
Lemma row_dict_distinct cols row :
  NoDup cols -> row_dict cols row = combine cols row.
Proof.
  intros H. unfold row_dict. rewrite fold_set_fresh; [reflexivity| |].
  - rewrite keys_combine. now apply NoDup_firstn.
  - intros k _ [].
Qed.

Lemma read_rows_fit cols : forall rows records,
  Forall (fits cols) rows ->
  read_rows cols rows records
  = (Return (records ++ map (row_dict cols) rows), []).
Proof.
  induction rows as [|row rows IH]; intros records H; simpl.
  - now rewrite app_nil_r.
  - inversion H as [|? ? Hrow Hrows]; subst.
    rewrite fill_record_zip by (unfold fits in Hrow; lia).
    cbn [skipn]. fold (row_dict cols row).
    rewrite IH by exact Hrows. now rewrite <- app_assoc.
Qed.

Lemma read_rows_long cols : forall pre records bad post,
  Forall (fits cols) pre -> length cols < length bad ->
  read_rows cols (pre ++ bad :: post) records = (Raise index_error, post).
Proof.
  induction pre as [|row pre IH]; intros records bad post H Hbad; simpl.
  - now rewrite fill_record_long by (simpl; lia).
  - inversion H as [|? ? Hrow Hrows]; subst.
    rewrite fill_record_zip by (unfold fits in Hrow; lia).
    now apply IH.
Qed.

Lemma read_rows_returns_at_end cols : forall rows records rs,
  fst (read_rows cols rows records) = Return rs ->
  snd (read_rows cols rows records) = [].
Proof.
  induction rows as [|row rows IH]; intros records rs H; simpl in *.
  - reflexivity.
  - destruct (fill_record cols 0 row []); [eauto|discriminate].
Qed.

Lemma iter_of_fitting_rows cols rows consumed :
  Forall (fits cols) rows ->
  __iter__ (MkWrapper (Some (NativeResult cols rows)) consumed)
  = Return (map (fun row => KuzuRecord_init (row_dict cols row)) rows).
Proof.
  intros H. unfold __iter__, data_raw. cbn [result].
  cbn [column_names pending_rows _consumed].
  rewrite (read_rows_fit cols rows [] H). cbn [app fst].
  now rewrite map_map.
Qed.

(** X3.  When every row has at most as many cells as there are
    columns, reading a native result gives one record per row, in
    order, each [dict(zip(columns, row))]; with distinct column names
    the record's items are the names paired with the cells, and the
    iterator yields these records.  The cursor is left at its end. *)
Theorem data_raw_zips_rows (cols : list str) (rows : list (list Py.value))
        (consumed : bool) :
  Forall (fits cols) rows ->
  let self := MkWrapper (Some (NativeResult cols rows)) consumed in
  data_raw self
  = (Return (map (row_dict cols) rows),
     MkWrapper (Some (NativeResult cols [])) consumed)
  /\ __iter__ self = Return (map (fun row => KuzuRecord_init (row_dict cols row)) rows)
  /\ (NoDup cols ->
      forall row, row_dict cols row = combine cols row).
Proof.
  intros H self. subst self. unfold __iter__, data_raw. cbn [result].
  cbn [column_names pending_rows _consumed].
  rewrite (read_rows_fit cols rows [] H). cbn [app fst].
  split; [reflexivity|]. split.
  - now rewrite map_map.
  - intros Hnd row. now apply row_dict_distinct.
Qed.

Lemma data_raw_zips_rows_witness :
  __iter__ (MkWrapper (Some (NativeResult [# "name"; # "line"]
                               [[Py.VStr (# "foo"); Py.VInt 10]])) false)
  = Return [KuzuRecord_init row_demo].
Proof.
  apply (data_raw_zips_rows [# "name"; # "line"]
           [[Py.VStr (# "foo"); Py.VInt 10]] false).
  repeat constructor.
Defined.

(** X4.  A row with more cells than there are columns makes the
    reading raise IndexError: the records of the rows before it are
    lost, the rows after it are still pending, and [single] and the
    iterator raise the same. *)
Theorem data_raw_raises_on_wide_row (cols : list str)
        (pre post : list (list Py.value)) (bad : list Py.value)
        (consumed : bool) :
  Forall (fits cols) pre -> length cols < length bad ->
  let self := MkWrapper (Some (NativeResult cols (pre ++ bad :: post)))
                        consumed in
  data_raw self
  = (Raise index_error, MkWrapper (Some (NativeResult cols post)) consumed)
  /\ single self = Raise index_error
  /\ __iter__ self = Raise index_error.
Proof.
  intros H Hbad self. subst self. unfold single, __iter__, data_raw.
  cbn [result column_names pending_rows _consumed].
  rewrite (read_rows_long cols pre [] bad post H Hbad).
  repeat split.
Qed.

Lemma data_raw_raises_on_wide_row_witness :
  single (MkWrapper (Some (NativeResult [# "name"]
                             [[Py.VInt 1]; [Py.VInt 2; Py.VInt 3]; []])) false)
  = Raise index_error.
Proof.
  apply (data_raw_raises_on_wide_row [# "name"] [[Py.VInt 1]] [[]]
           [Py.VInt 2; Py.VInt 3] false).
  - repeat constructor.
  - simpl. lia.
Defined.

(** X5.  A result is read once: after a reading that returned, the
    same wrapper has no rows, so [data_raw] gives the empty list,
    [single] gives [None] and the iterator yields nothing.
    [consume] reads nothing. *)
Theorem result_is_read_once (self : KuzuResultWrapper)
        (records : list Py.dict) :
  fst (data_raw self) = Return records ->
  let after := snd (data_raw self) in
  fst (data_raw after) = Return []
  /\ single after = Return None
  /\ __iter__ after = Return []
  /\ fst (data_raw (Rec.consume self)) = Return records.
Proof.
  intros H after. subst after. unfold single, __iter__.
  assert (E : fst (data_raw (snd (data_raw self))) = Return []).
  { unfold data_raw in *. destruct (result self) as [r|] eqn:Er.
    - destruct (read_rows (column_names r) (pending_rows r) [])
        as [out unread] eqn:Erd.
      cbn [fst snd result column_names pending_rows] in *.
      pose proof (read_rows_returns_at_end (column_names r) (pending_rows r) [])
        as Hend.
      rewrite Erd in Hend. cbn [fst snd] in Hend.
      rewrite (Hend records H). reflexivity.
    - cbn [snd]. now rewrite Er. }
  rewrite E. repeat split.
  unfold data_raw, Rec.consume in *. cbn [result _consumed].
  destruct (result self) as [r|]; [|exact H].
  destruct (read_rows _ _ _). exact H.
Qed.

Lemma result_is_read_once_witness :
  __iter__ (snd (data_raw (MkWrapper (Some (NativeResult [# "name"]
                                              [[Py.VInt 1]])) false)))
  = Return [].
Proof.
  apply (result_is_read_once
           (MkWrapper (Some (NativeResult [# "name"] [[Py.VInt 1]])) false)
           [[(# "name", Py.VInt 1)]]).
  reflexivity.
Defined.

End ResultFacts.

(** * The session's [run], when the engine answers *)

Module RunFacts.

Import Kuzu Notions Notions2 Samples TextFacts PyFacts SessionFacts ResultFacts.

#[local] Unset Implicit Arguments.

(** X6.  When the engine answers the translated query with a result
    whose rows fit its columns, [run] returns a wrapper of that very
    result and logs no error, and iterating the wrapper yields one
    record per row of the engine's answer, in order. *)
Theorem run_yields_the_engine_rows (is_Exception : exn -> bool)
        (self : session connection) (query : str)
        (parameters : Py.dict) (r : native_result) :
  let tr := _translate_query self query parameters in
  session_conn self (tr_query tr) (tr_params tr) = Return r ->
  Forall (fits (column_names r)) (pending_rows r) ->
  fst (run is_Exception self query parameters)
  = Return (KuzuResultWrapper_init (Some r))
  /\ filter is_error_log (snd (run is_Exception self query parameters)) = []
  /\ __iter__ (KuzuResultWrapper_init (Some r))
     = Return (map (fun row => KuzuRecord_init (row_dict (column_names r) row))
                   (pending_rows r)).
Proof.
  intros tr Hexec Hfit. unfold run. fold tr. rewrite Hexec. cbn [fst snd].
  split; [reflexivity|]. split; [apply no_error_before|].
  destruct r as [cols rows]. apply (iter_of_fitting_rows cols rows false Hfit).
Qed.

(** X7.  [run] writes an error line exactly when it raises an
    exception that is an instance of [Exception].  What it raises is
    what the engine raised on the translated query, with a text that
    does not hold "already exists" in any letter case when it is such
    an instance; an exception of the engine that is no instance of
    [Exception] is raised as it is, with no error line. *)
Theorem run_logs_the_exceptions_it_raises (is_Exception : exn -> bool)
        (self : session connection) (query : str) (parameters : Py.dict) :
  let tr := _translate_query self query parameters in
  let res := fst (run is_Exception self query parameters) in
  let trace := snd (run is_Exception self query parameters) in
  (filter is_error_log trace <> []
   <-> exists e, res = Raise e /\ is_Exception e = true)
  /\ (forall e, res = Raise e ->
        session_conn self (tr_query tr) (tr_params tr) = Raise e
        /\ (is_Exception e = true ->
            Text.contains (# "already exists") (Text.lower (exn_str e)) = false))
  /\ (forall e, session_conn self (tr_query tr) (tr_params tr) = Raise e ->
        is_Exception e = false ->
        res = Raise e /\ filter is_error_log trace = []).
Proof.
  intros tr res trace. subst res trace. unfold run. fold tr.
  destruct (session_conn self (tr_query tr) (tr_params tr)) as [r|e0] eqn:Hexec.
  - cbn [fst snd]. rewrite no_error_before. split; [|split].
    + split; [intros H; now destruct H|intros (e & H & _); discriminate].
    + intros e H. discriminate.
    + intros e H. discriminate.
  - destruct (is_Exception e0) eqn:Ei.
    + destruct (Text.contains _ (Text.lower (exn_str e0))) eqn:Hc; cbn [fst snd].
      * rewrite no_error_before. split; [|split].
        -- split; [intros H; now destruct H|intros (e & H & _); discriminate].
        -- intros e H. discriminate.
        -- intros e [= <-] H. congruence.
      * rewrite filter_app, no_error_before. cbn. split; [|split].
        -- split; [eauto|discriminate].
        -- intros e [= <-]. auto.
        -- intros e [= <-] H. congruence.
    + cbn [fst snd]. rewrite no_error_before. split; [|split].
      * split; [intros H; now destruct H|].
        intros (e & [= <-] & H). congruence.
      * intros e [= <-]. split; [reflexivity|]. intros H. congruence.
      * intros e [= <-] _. auto.
Qed.

Lemma run_yields_the_engine_rows_witness :
  fst (run builtin_is_Exception
           (session_init
              (fun _ _ => Return (NativeResult [# "name"; # "line"]
                                    [[Py.VStr (# "foo"); Py.VInt 10]])))
           (# "RETURN 1") [])
  = Return (KuzuResultWrapper_init
              (Some (NativeResult [# "name"; # "line"]
                       [[Py.VStr (# "foo"); Py.VInt 10]]))).
Proof.
  apply (run_yields_the_engine_rows builtin_is_Exception
           (session_init
              (fun _ _ => Return (NativeResult [# "name"; # "line"]
                                    [[Py.VStr (# "foo"); Py.VInt 10]])))
           (# "RETURN 1") []
           (NativeResult [# "name"; # "line"] [[Py.VStr (# "foo"); Py.VInt 10]])
           eq_refl).
  repeat constructor.
Defined.

Lemma run_logs_the_exceptions_it_raises_witness :
  session_conn (session_init (failing (# "Parser exception")))
    (# "RETURN 1") [] = Raise (Exn (# "RuntimeError") (# "Parser exception"))
  /\ filter is_error_log
       (snd (run builtin_is_Exception (session_init interrupted)
                 (# "RETURN 1") [])) = [].
Proof.
  split.
  - apply (proj1 (proj2 (run_logs_the_exceptions_it_raises builtin_is_Exception
                           (session_init (failing (# "Parser exception")))
                           (# "RETURN 1") []))
                 (Exn (# "RuntimeError") (# "Parser exception"))).
    reflexivity.
  - apply (proj2 (proj2 (run_logs_the_exceptions_it_raises builtin_is_Exception
                           (session_init interrupted) (# "RETURN 1") []))
                 (Exn (# "KeyboardInterrupt") [])); reflexivity.
Defined.

End RunFacts.

(** * The parameters across a translation *)

Module ParamFacts.

Import Re Kuzu Notions Notions2 Samples TextFacts PyFacts RecFacts ReFacts
       PruneFacts ShapeFacts SetFacts.

#[local] Unset Implicit Arguments.

Lemma get_set_same k v (d : Py.dict) : Py.get k (Py.set k v d) = Some v.
Proof.
  induction d as [|[k' v'] d IH]; simpl.
  - now rewrite eqb_refl.
  - destruct (Text.eqb k k') eqn:E; simpl; [now rewrite eqb_refl|].
    now rewrite E.
Qed.

Lemma get_set_other k k' v (d : Py.dict) :
  k <> k' -> Py.get k (Py.set k' v d) = Py.get k d.
Proof.
  intros N. apply eqb_neq in N.
  induction d as [|[k0 v0] d IH]; simpl.
  - now rewrite N.
  - destruct (Text.eqb k' k0) eqn:E; simpl.
    + apply eqb_eq in E. subst k0. now rewrite N.
    + now rewrite IH.
Qed.

Lemma keys_set k k' v (d : Py.dict) :
  In k (Py.keys (Py.set k' v d)) <-> In k (Py.keys d) \/ k = k'.
Proof.
  destruct (in_dec (list_eq_dec ascii_dec) k' (Py.keys d)) as [Hin|Hin].
  - rewrite keys_set_old by exact Hin. split; [tauto|].
    intros [H| ->]; assumption.
  - rewrite keys_set_new by exact Hin. rewrite in_app_iff. simpl.
    split; intros [H|H]; auto.
    + destruct H as [<-|[]]. now right.
Qed.

Lemma get_pop_other k k' (d : Py.dict) :
  k <> k' -> Py.get k (Py.pop k' d) = Py.get k d.
Proof.
  intros N. apply eqb_neq in N.
  induction d as [|[k0 v0] d IH]; simpl; [reflexivity|].
  destruct (Text.eqb k' k0) eqn:E; simpl.
  - apply eqb_eq in E. subst k0. now rewrite N.
  - now rewrite IH.
Qed.

Lemma keys_pop k k' (d : Py.dict) :
  In k (Py.keys (Py.pop k' d)) -> In k (Py.keys d).
Proof.
  induction d as [|[k0 v0] d IH]; simpl; [tauto|].
  destruct (Text.eqb k' k0); simpl; tauto.
Qed.

Lemma pop_absent k (d : Py.dict) :
  Py.wf d -> ~ In k (Py.keys (Py.pop k d)).
Proof.
  unfold Py.wf. induction d as [|[k0 v0] d IH]; simpl; [tauto|].
  intros H. inversion H as [|? ? Hk Hd]; subst.
  destruct (Text.eqb k k0) eqn:E; simpl.
  - apply eqb_eq in E. now subst k0.
  - apply eqb_neq in E. intros [Heq|Hin]; [congruence|]. now apply IH.
Qed.

Lemma wf_filter (g : str * Py.value -> bool) (d : Py.dict) :
  Py.wf d -> Py.wf (filter g d).
Proof.
  unfold Py.wf. induction d as [|kv d IH]; simpl; [auto|].
  intros H. inversion H as [|? ? Hk Hd]; subst.
  destruct (g kv); simpl; [|auto]. constructor; [|auto].
  intros Hin. apply Hk. unfold Py.keys in *. apply in_map_iff in Hin
    as (x & Ex & Hx). apply filter_In in Hx as [Hx _].
  apply in_map_iff. eauto.
Qed.

(** A name [param_k] is never the name [param] itself. *)
Lemma clean_name_differs (pn k : str) : pn ++ # "_" ++ k <> pn.
Proof.
  intros E. apply (f_equal (@length ascii)) in E.
  rewrite !length_app in E. simpl in E. lia.
Qed.

Lemma fold_bind_other pn k0 : forall (kept d : Py.dict),
  (forall k, In k (Py.keys kept) -> k0 <> pn ++ # "_" ++ k) ->
  Py.get k0 (fold_left (bind_item pn) kept d) = Py.get k0 d.
Proof.
  induction kept as [|[k v] kept IH]; intros d H; simpl; [reflexivity|].
  rewrite IH by (intros k' Hk'; apply H; now right).
  unfold bind_item. cbn [fst snd]. apply get_set_other. apply H. now left.
Qed.

Lemma fold_bind_keys pn k0 : forall (kept d : Py.dict),
  In k0 (Py.keys (fold_left (bind_item pn) kept d)) ->
  In k0 (Py.keys d) \/ exists k, In k (Py.keys kept) /\ k0 = pn ++ # "_" ++ k.
Proof.
  induction kept as [|[k v] kept IH]; intros d H; simpl in *; [now left|].
  apply IH in H as [H|(k' & Hk' & ->)].
  - unfold bind_item in H. cbn [fst snd] in H. apply keys_set in H as [H| ->].
    + now left.
    + right. exists k. auto.
  - right. exists k'. auto.
Qed.

Lemma fold_bind_wf pn : forall (kept d : Py.dict),
  Py.wf d -> Py.wf (fold_left (bind_item pn) kept d).
Proof.
  induction kept as [|[k v] kept IH]; intros d H; simpl; [exact H|].
  apply IH. unfold bind_item. now apply wf_set.
Qed.

Lemma fold_bind_kept pn : forall (kept d : Py.dict) k v,
  Py.wf kept -> In (k, v) kept ->
  Py.get (pn ++ # "_" ++ k) (fold_left (bind_item pn) kept d) = Some v.
Proof.
  unfold Py.wf.
  induction kept as [|[k' v'] kept IH]; intros d k v Hwf Hin; simpl in *;
    [tauto|].
  inversion Hwf as [|? ? Hk Hd]; subst.
  destruct Hin as [[= -> ->]|Hin].
  - rewrite fold_bind_other.
    + unfold bind_item. cbn [fst snd]. apply get_set_same.
    + intros k0 Hk0 E. apply app_inv_head in E. injection E as E.
      subst k0. contradiction.
  - now apply IH.
Qed.

(** Rule 1 hands on the caller's dictionary itself unless it has
    expanded a fragment. *)
Lemma translate_set_not_copied query parameters :
  snd (translate_set query parameters) = false ->
  snd (fst (translate_set query parameters)) = parameters.
Proof.
  unfold translate_set.
  destruct (Text.contains (# "SET") query && Text.contains (# "+=") query);
    [|reflexivity].
  destruct (search set_pattern query) as [m|]; [|reflexivity].
  destruct (match Py.get (group 2 m) parameters with
            | Some v => v
            | None => Py.VDict []
            end); try reflexivity.
  destruct (expand_props _ _ _ _ _) as [[|c cl] np]; [reflexivity|].
  discriminate.
Qed.

Lemma merge_step_get um st m k :
  (forall w, k <> # "__uid_" ++ w) ->
  Py.get k (t_params (merge_step um st m)) = Py.get k (t_params st).
Proof.
  intros N. unfold merge_step.
  destruct (assoc _ um) as [pk|]; [|reflexivity].
  destruct (build_uid pk _ _ _) as [u|]; [|reflexivity].
  destruct (Text.contains _ _); cbn [t_params]; apply get_set_other, N.
Qed.

Lemma merge_step_keys um st m k :
  In k (Py.keys (t_params (merge_step um st m))) <->
  In k (Py.keys (t_params st))
  \/ (k = # "__uid_" ++ group 1 m
      /\ t_params (merge_step um st m) <> t_params st).
Proof.
  unfold merge_step.
  destruct (assoc _ um) as [pk|]; [|tauto].
  destruct (build_uid pk _ _ _) as [u|]; [|tauto].
  destruct (in_dec (list_eq_dec ascii_dec) k (Py.keys (t_params st)))
    as [Hin|Hin].
  - destruct (Text.contains _ _); cbn [t_params]; rewrite keys_set; tauto.
  - assert (Hne : k = # "__uid_" ++ group 1 m ->
                  Py.set (# "__uid_" ++ group 1 m) (Py.VStr u) (t_params st)
                  <> t_params st).
    { intros -> E. apply Hin. rewrite <- E. apply keys_set. now right. }
    destruct (Text.contains _ _); cbn [t_params]; rewrite keys_set;
      split; intros [H|H]; auto; tauto.
Qed.

Lemma merge_steps_get um k : forall ms st,
  (forall w, k <> # "__uid_" ++ w) ->
  Py.get k (t_params (fold_left (merge_step um) ms st)) = Py.get k (t_params st).
Proof.
  induction ms as [|m ms IH]; intros st N; simpl; [reflexivity|].
  rewrite IH by exact N. now apply merge_step_get.
Qed.

Lemma merge_steps_keys um k : forall ms st,
  (In k (Py.keys (t_params st)) ->
   In k (Py.keys (t_params (fold_left (merge_step um) ms st))))
  /\ (In k (Py.keys (t_params (fold_left (merge_step um) ms st))) ->
      In k (Py.keys (t_params st))
      \/ exists m, In m ms /\ k = # "__uid_" ++ group 1 m).
Proof.
  induction ms as [|m ms IH]; intros st; simpl; [tauto|].
  destruct (IH (merge_step um st m)) as [IH1 IH2]. split.
  - intros H. apply IH1. apply merge_step_keys. now left.
  - intros H. apply IH2 in H as [H|(m' & Hm' & ->)].
    + apply merge_step_keys in H as [H|[-> _]]; [now left|].
      right. exists m. auto.
    + right. exists m'. auto.
Qed.

(** The names after a [$] that rule 5 finds. *)
Lemma used_params_shape query k :
  In k (used_params query) ->
  k <> [] /\ all_of Text.is_word k
  /\ exists pre post, query = pre ++ # "$" ++ k ++ post.
Proof.
  unfold used_params, findall1. intros H.
  apply in_map_iff in H as (m & <- & Hm).
  apply finditer_sound in Hm as (pre & post & p' & Eq & Hm).
  apply match_at_sound in Hm as (st' & P & Ea & Eg & _).
  unfold param_pattern, Seq in P. walk P.
  apply (path_lit (# "$")) in P0 as (E0 & C0).
  apply path_group_plus in P as (w & E1 & H1 & N1 & C1).
  simpl rest in E0. simpl caps in C0.
  assert (G1 : group 1 m = w).
  { unfold group. rewrite Eg, C1. reflexivity. }
  rewrite G1. split; [exact N1|]. split; [exact H1|].
  rewrite E0, E1 in Ea.
  assert (Ew : whole m = # "$" ++ w).
  { apply (app_inv_tail (rest st')). rewrite <- Ea. now rewrite <- !app_assoc. }
  exists pre, post. rewrite Eq, Ew. now rewrite <- !app_assoc.
Qed.

(** X8.  Whatever the query, a translation leaves every binding of
    the caller's dictionary that is not named [__uid_...] as it was,
    removes no key from it, and adds keys only under names
    [__uid_...]. *)
Theorem translation_keeps_caller_bindings (conn : Type) (self : session conn)
        (query : str) (parameters : Py.dict) :
  let tr := _translate_query self query parameters in
  (forall k, (forall w, k <> # "__uid_" ++ w) ->
     Py.get k (tr_caller_params tr) = Py.get k parameters)
  /\ (forall k, In k (Py.keys parameters) ->
        In k (Py.keys (tr_caller_params tr)))
  /\ (forall k, In k (Py.keys (tr_caller_params tr)) ->
        In k (Py.keys parameters) \/ exists w, k = # "__uid_" ++ w).
Proof.
  intros tr.
  assert (E : tr_caller_params tr = parameters
              \/ exists q1, tr_caller_params tr
                 = t_params (inject_uids (session_uid_map self)
                                         (TState q1 parameters []))).
  { subst tr. unfold _translate_query, rewrite.
    pose proof (translate_set_not_copied query parameters) as Hc.
    destruct (translate_set query parameters) as [[q1 p1] copied].
    cbn [fst snd] in Hc. cbn [t_query t_params t_out].
    destruct copied.
    - left. now destruct (is_schema_statement _).
    - right. exists q1. rewrite (Hc eq_refl).
      now destruct (is_schema_statement _). }
  destruct E as [->|(q1 & ->)]; [repeat split; auto|].
  unfold inject_uids. cbn [t_query]. split; [|split].
  - intros k N. now rewrite merge_steps_get.
  - intros k H. now apply merge_steps_keys.
  - intros k H. apply merge_steps_keys in H as [H|(m & _ & ->)]; eauto.
Qed.

Lemma translation_keeps_caller_bindings_witness :
  Py.get (# "name")
    (tr_caller_params (_translate_query (session_init tt) foo_merge foo_params))
  = Py.get (# "name") foo_params.
Proof.
  apply (proj1 (translation_keeps_caller_bindings unit (session_init tt)
                  foo_merge foo_params)).
  intros w. discriminate.
Defined.

(** X9.  When rule 1 expands [SET var += $param] with [param] bound
    to a map of which some key is kept, the parameters it hands on
    bind every [param_k] to the map's value for the kept key [k], no
    longer bind [param], and bind every other name as before; the
    engine is never given [param], and the caller's dictionary is left
    exactly as it was. *)
Theorem set_parameters_are_rebound (query : str) (parameters : Py.dict)
        (m : rmatch) (props : Py.dict) :
  search set_pattern query = Some m ->
  let node_var := group 1 m in
  let param_name := group 2 m in
  Py.get param_name parameters = Some (Py.VDict props) ->
  Py.wf parameters -> Py.wf props ->
  let kept := filter (kept_key (known_attrs query node_var)) props in
  kept <> [] ->
  let parameters1 := snd (fst (translate_set query parameters)) in
  (forall k v, In (k, v) kept ->
     Py.get (param_name ++ # "_" ++ k) parameters1 = Some v)
  /\ Py.get param_name parameters1 = None
  /\ (forall k0, k0 <> param_name ->
        (forall k, In k (Py.keys kept) -> k0 <> param_name ++ # "_" ++ k) ->
        Py.get k0 parameters1 = Py.get k0 parameters)
  /\ (forall (conn : Type) (self : session conn),
        let tr := _translate_query self query parameters in
        tr_caller_params tr = parameters
        /\ ((forall w, param_name <> # "__uid_" ++ w) ->
            ~ In param_name (Py.keys (tr_params tr)))).
Proof.
  intros Hs node_var param_name Hget Hwf Hwfp kept Hne parameters1.
  assert (Et : translate_set query parameters
               = (Text.replace (whole m)
                    (# "SET " ++ Text.join (# ", ")
                                   (map (assignment node_var param_name) kept))
                    query,
                  Py.pop param_name
                         (fold_left (bind_item param_name) kept parameters),
                  true)).
  { unfold translate_set. rewrite (set_match_guard _ Hs), Hs.
    fold node_var param_name. rewrite Hget. unfold expand_props.
    rewrite (expand_fold node_var param_name
               (match search (def_pattern node_var) query with
                | Some def_match => Some (group 1 def_match)
                | None => None
                end) props [] parameters).
    cbn [app].
    replace (match match search (def_pattern node_var) query with
                   | Some def_match => Some (group 1 def_match)
                   | None => None
                   end with
             | Some l => assoc l SCHEMA_MAP
             | None => None
             end) with (known_attrs query node_var)
      by (unfold known_attrs; now destruct (search (def_pattern node_var) query)).
    fold kept. destruct kept; [congruence|reflexivity]. }
  assert (Hnone : Py.get param_name parameters1 = None).
  { subst parameters1. rewrite Et. cbn [fst snd].
    apply get_key_none. apply pop_absent. now apply fold_bind_wf. }
  split; [|split; [exact Hnone|split]].
  - intros k v Hin. subst parameters1. rewrite Et. cbn [fst snd].
    rewrite get_pop_other by apply clean_name_differs.
    apply fold_bind_kept; [|exact Hin]. now apply wf_filter.
  - intros k0 N1 N2. subst parameters1. rewrite Et. cbn [fst snd].
    rewrite get_pop_other by exact N1. now apply fold_bind_other.
  - intros conn self tr. subst tr. unfold _translate_query, rewrite.
    subst parameters1. rewrite Et in *. cbn [fst snd] in Hnone.
    cbn [t_query t_params t_out].
    set (p1 := Py.pop param_name _) in *.
    set (st2 := inject_uids _ _).
    assert (Hb : (forall w, param_name <> # "__uid_" ++ w) ->
                 ~ In param_name (Py.keys (t_params st2))).
    { intros N Hin. subst st2. unfold inject_uids in Hin. cbn [t_query] in Hin.
      apply get_key_some in Hin as (v & Hv).
      rewrite merge_steps_get in Hv by exact N. cbn [t_params] in Hv.
      congruence. }
    destruct (is_schema_statement _); cbn [tr_caller_params tr_params].
    + split; [reflexivity|]. intros _ [].
    + split; [reflexivity|]. intros N Hin. apply (Hb N).
      unfold prune in Hin.
      now apply (keys_filter_In (fun k => in_set k (used_params _))) in Hin
        as [Hin _].
Qed.

Lemma doc_params_wf : Py.wf doc_params.
Proof.
  unfold Py.wf. vm_compute.
  repeat constructor; simpl; intuition discriminate.
Qed.

Lemma set_parameters_are_rebound_witness :
  Py.get (# "props") (snd (fst (translate_set doc_query doc_params))) = None
  /\ Py.get (# "props_docstring") (snd (fst (translate_set doc_query doc_params)))
     = Some (Py.VStr (# "hi")).
Proof.
  assert (Hs : search set_pattern doc_query = Some doc_match) by reflexivity.
  assert (Hp : Py.wf [(# "docstring", Py.VStr (# "hi"));
                      (# "color", Py.VStr (# "red"));
                      (# "lang", Py.VList []);
                      (# "args", Py.VList [Py.VStr (# "x")])]).
  { unfold Py.wf. vm_compute. repeat constructor; simpl; intuition discriminate. }
  assert (Hk : filter (kept_key (known_attrs doc_query (group 1 doc_match)))
                 [(# "docstring", Py.VStr (# "hi"));
                  (# "color", Py.VStr (# "red"));
                  (# "lang", Py.VList []);
                  (# "args", Py.VList [Py.VStr (# "x")])] <> [])
    by (vm_compute; discriminate).
  pose proof (set_parameters_are_rebound doc_query doc_params doc_match _
                Hs eq_refl doc_params_wf Hp Hk) as (H1 & H2 & _).
  split; [exact H2|].
  apply (H1 (# "docstring") (Py.VStr (# "hi"))).
  vm_compute. left. reflexivity.
Defined.

(** X10.  Every parameter name handed to the engine is a non-empty
    run of word characters and stands after a [$] in the translated
    text. *)
Theorem engine_parameters_are_word_names (conn : Type) (self : session conn)
        (query : str) (parameters : Py.dict) (k : str) :
  let tr := _translate_query self query parameters in
  In k (Py.keys (tr_params tr)) ->
  k <> [] /\ all_of Text.is_word k
  /\ exists pre post, tr_query tr = pre ++ # "$" ++ k ++ post.
Proof.
  intros tr. subst tr. unfold _translate_query.
  destruct (rewrite self query parameters) as [st copied].
  destruct (is_schema_statement (t_query st)); cbn [tr_params tr_query].
  - intros [].
  - intros H. unfold prune in H.
    apply (keys_filter_In (fun k => in_set k (used_params _))) in H as [_ H].
    apply in_set_In in H. now apply used_params_shape.
Qed.

Lemma engine_parameters_are_word_names_witness :
  exists pre post,
    tr_query (_translate_query (session_init tt) plain_query plain_params)
    = pre ++ # "$" ++ # "path" ++ post.
Proof.
  apply (engine_parameters_are_word_names unit (session_init tt)
           plain_query plain_params (# "path")).
  vm_compute. left. reflexivity.
Defined.

End ParamFacts.

(** * The connection manager *)

Module ManagerFacts.

Import Kuzu Manager Notions2 Samples Samples2 TextFacts.

#[local] Unset Implicit Arguments.

Lemma statements_app (a b : list boot_event) :
  statements (a ++ b) = statements a ++ statements b.
Proof. unfold statements. now rewrite flat_map_app. Qed.

(** One turn of a loop executes the statement of its table, logs no
    error line, and is left only by an exception that is no instance
    of [Exception]. *)
Lemma create_table_spec {W DB H : Type} (env : kuzu_env W DB H) (c : H)
      (KIND kind : str) (w : W) (table : str * str) :
  let out := create_table env c KIND kind w table in
  statements (snd out) = [create_statement KIND (fst table) (snd table)]
  /\ (forall line, ~ In (BError line) (snd out))
  /\ (forall e, fst (fst out) = Some e -> is_Exception env e = false)
  /\ (raises_only_exceptions env -> fst (fst out) = None)
  /\ (only_already_exists env ->
      snd out = [BExecute (create_statement KIND (fst table) (snd table))]).
Proof.
  destruct table as [table_name schema]. unfold create_table. cbn [fst snd].
  pose proof (fun H0 : raises_only_exceptions env =>
                H0 c (create_statement KIND table_name schema) w) as Hr.
  pose proof (fun H0 : only_already_exists env =>
                H0 c (create_statement KIND table_name schema) w) as Hq.
  destruct (execute env c _ w) as [[r|e] w']; cbn [fst snd] in *.
  - split; [reflexivity|]. split; [intros line [H0|[]]; discriminate|].
    split; [intros e [=]|]. split; reflexivity.
  - destruct (is_Exception env e) eqn:Ei.
    + destruct (negb _) eqn:En; cbn [fst snd].
      * split; [reflexivity|].
        split; [intros line [H0|[H0|[H0|[]]]]; discriminate|].
        split; [intros e' [=]|]. split; [reflexivity|].
        intros H0. destruct (Hq H0 e eq_refl) as [_ Hc]. rewrite Hc in En.
        discriminate.
      * split; [reflexivity|]. split; [intros line [H0|[]]; discriminate|].
        split; [intros e' [=]|]. split; reflexivity.
    + cbn [fst snd]. split; [reflexivity|].
      split; [intros line [H0|[]]; discriminate|].
      split; [intros e' [= <-]; exact Ei|]. split.
      * intros H0. rewrite (Hr H0 e eq_refl) in Ei. discriminate.
      * intros H0. destruct (Hq H0 e eq_refl) as [Hc _]. congruence.
Qed.

(** A loop executes the statements of a start of its list, in order:
    of the whole list when it is not left early. *)
Lemma create_tables_spec {W DB H : Type} (env : kuzu_env W DB H) (c : H)
      (KIND kind : str) : forall tables (w : W),
  let out := create_tables env c KIND kind tables w in
  (exists done rest,
     tables = done ++ rest
     /\ statements (snd out)
        = map (fun t => create_statement KIND (fst t) (snd t)) done
     /\ (fst (fst out) = None -> rest = [])
     /\ (forall e, fst (fst out) = Some e ->
           is_Exception env e = false /\ done <> []))
  /\ (forall line, ~ In (BError line) (snd out))
  /\ (raises_only_exceptions env -> fst (fst out) = None)
  /\ (only_already_exists env ->
      snd out
      = map (fun t => BExecute (create_statement KIND (fst t) (snd t))) tables).
Proof.
  induction tables as [|t tables IH]; intros w; cbn [create_tables].
  - cbn [fst snd]. split; [|split; [intros line []|split; reflexivity]].
    exists [], []. split; [reflexivity|]. split; [reflexivity|].
    split; [reflexivity|]. intros e [=].
  - destruct (create_table_spec env c KIND kind w t)
      as (Hs & Hb & He & Hr & Hq).
    destruct (create_table env c KIND kind w t) as [[[e|] w'] trace];
      cbn [fst snd] in *.
    + split; [|split; [exact Hb|split]].
      * exists [t], tables. cbn [map app]. split; [reflexivity|].
        split; [exact Hs|]. split; [discriminate|].
        intros e' [= <-]. split; [now apply He|discriminate].
      * intros H0. now apply Hr.
      * intros H0. specialize (Hr (fun c0 s0 w0 e0 E =>
                                     proj1 (H0 c0 s0 w0 e0 E))).
        discriminate.
    + destruct (IH w')
        as ((done & rest & Et & Hd & Hn & Hsome) & Hb' & Hr' & Hq').
      destruct (create_tables env c KIND kind tables w') as [[r w''] trace'];
        cbn [fst snd] in *.
      split; [|split; [|split]].
      * exists (t :: done), rest. cbn [map app]. split; [now rewrite Et|].
        split; [now rewrite statements_app, Hs, Hd|]. split; [exact Hn|].
        intros e E. destruct (Hsome e E) as [Hi _]. split; [exact Hi|discriminate].
      * intros line Hin. apply in_app_or in Hin as [Hin|Hin];
          [exact (Hb line Hin)|exact (Hb' line Hin)].
      * exact Hr'.
      * intros H0. rewrite (Hq H0), (Hq' H0). reflexivity.
Qed.

(** The bootstrap executes a start of the 24 statements, in order:
    all of them when no exception leaves it. *)
Lemma initialize_schema_spec {W DB H : Type} (env : kuzu_env W DB H)
      (c : H) (w : W) :
  let out := _initialize_schema env c w in
  (exists rest, schema_statements = statements (snd out) ++ rest
                /\ (fst (fst out) = None -> rest = [])
                /\ (forall e, fst (fst out) = Some e ->
                      is_Exception env e = false /\ statements (snd out) <> []))
  /\ (forall line, ~ In (BError line) (snd out))
  /\ (raises_only_exceptions env -> fst (fst out) = None)
  /\ (only_already_exists env -> snd out = map BExecute schema_statements).
Proof.
  unfold _initialize_schema, schema_statements.
  destruct (create_tables_spec env c (# "NODE") (# "Node") node_tables w)
    as ((done & rest & Et & Hd & Hn & Hsome) & Hb & Hr & Hq).
  destruct (create_tables env c (# "NODE") (# "Node") node_tables w)
    as [[[e|] w'] trace]; cbn [fst snd] in *.
  - split; [|split; [exact Hb|split]].
    + exists (map (fun t => create_statement (# "NODE") (fst t) (snd t)) rest
              ++ map (fun t => create_statement (# "REL") (fst t) (snd t))
                     rel_tables).
      split; [now rewrite Et, Hd, map_app, <- app_assoc|].
      split; [discriminate|].
      intros e' E. destruct (Hsome e' E) as [Hi Hne]. split; [exact Hi|].
      rewrite Hd. destruct done; [contradiction|discriminate].
    + exact Hr.
    + intros H0. specialize (Hr (fun c0 s0 w0 e0 E =>
                                   proj1 (H0 c0 s0 w0 e0 E))).
      discriminate.
  - specialize (Hn eq_refl). subst rest. rewrite app_nil_r in Et.
    destruct (create_tables_spec env c (# "REL") (# "Rel") rel_tables w')
      as ((done2 & rest2 & Et2 & Hd2 & Hn2 & Hsome2) & Hb2 & Hr2 & Hq2).
    destruct (create_tables env c (# "REL") (# "Rel") rel_tables w')
      as [[r w''] trace']; cbn [fst snd] in *.
    split; [|split; [|split]].
    + exists (map (fun t => create_statement (# "REL") (fst t) (snd t)) rest2).
      split.
      { rewrite statements_app, Hd, Hd2, <- Et, <- app_assoc, <- map_app.
        now rewrite <- Et2. }
      split; [intros E; now rewrite (Hn2 E)|].
      intros e E. destruct (Hsome2 e E) as [Hi _]. split; [exact Hi|].
      rewrite statements_app, Hd, <- Et. discriminate.
    + intros line Hin. apply in_app_or in Hin as [Hin|Hin];
        [exact (Hb line Hin)|exact (Hb2 line Hin)].
    + exact Hr2.
    + intros H0. rewrite (Hq H0), (Hq2 H0). now rewrite map_app, !map_map.
Qed.

(** X11.  The bootstrap executes the statement that creates each of
    the 17 node tables and then each of the 7 relationship tables, in
    the order of the two lists, and no other statement.  A failure
    that is an instance of [Exception] stops nothing: when the engine
    raises nothing else, all 24 statements are executed and the
    bootstrap returns.  It returns only after all 24; it is left early
    only by an exception of a statement that is no instance of
    [Exception].  When the only failures are instances of [Exception]
    of the kind [already exists], it prints and logs nothing. *)
Theorem initialize_schema_tries_every_table {W DB H : Type}
        (env : kuzu_env W DB H) (c : H) (w : W) :
  let out := _initialize_schema env c w in
  length schema_statements = 24
  /\ (exists rest, schema_statements = statements (snd out) ++ rest)
  /\ (fst (fst out) = None -> statements (snd out) = schema_statements)
  /\ (forall e, fst (fst out) = Some e ->
        is_Exception env e = false /\ statements (snd out) <> [])
  /\ (raises_only_exceptions env ->
      fst (fst out) = None /\ statements (snd out) = schema_statements)
  /\ (only_already_exists env ->
      fst (fst out) = None /\ snd out = map BExecute schema_statements).
Proof.
  intros out. subst out.
  destruct (initialize_schema_spec env c w)
    as ((rest & Es & Hn & Hsome) & _ & Hr & Hq).
  assert (Hall : fst (fst (_initialize_schema env c w)) = None ->
                 statements (snd (_initialize_schema env c w))
                 = schema_statements).
  { intros E. pose proof Es as Es'. rewrite (Hn E), app_nil_r in Es'.
    now symmetry. }
  split; [reflexivity|]. split; [eauto|]. split; [exact Hall|].
  split; [exact Hsome|]. split.
  - intros H0. split; [now apply Hr|]. apply Hall. now apply Hr.
  - intros H0. split; [|now apply Hq].
    apply Hr. intros c0 s0 w0 e0 E. exact (proj1 (H0 c0 s0 w0 e0 E)).
Qed.

Lemma working_only_already_exists : only_already_exists working.
Proof. intros c statement w e H. discriminate. Qed.

Lemma initialize_schema_tries_every_table_witness :
  snd (_initialize_schema working tt 0) = map BExecute schema_statements
  /\ statements (snd (_initialize_schema interrupting tt 0)) <> [].
Proof.
  split.
  - apply (proj2 (proj2 (proj2 (proj2 (proj2
             (initialize_schema_tries_every_table working tt 0)))))).
    exact working_only_already_exists.
  - apply (proj1 (proj2 (proj2 (proj2
             (initialize_schema_tries_every_table interrupting tt 0))))
             (Exn (# "KeyboardInterrupt") [])).
    reflexivity.
Defined.

Lemma init_failed_shape {W DB H : Type} (env : kuzu_env W DB H) (e0 : exn)
      (self : manager DB H) (w : W) (trace : list boot_event)
      (r : outcome (KuzuDriverWrapper H)) (self1 : manager DB H) (w1 : W)
      (t1 : list boot_event) :
  init_failed env e0 self w trace = (r, self1, w1, t1) ->
  self1 = self
  /\ ((is_ImportError env e0 = true /\ r = Raise missing_error
       /\ exists line, t1 = trace ++ [BError line])
      \/ (is_ImportError env e0 = false /\ is_Exception env e0 = true
          /\ r = Raise e0 /\ exists line, t1 = trace ++ [BError line])
      \/ (is_ImportError env e0 = false /\ is_Exception env e0 = false
          /\ r = Raise e0 /\ t1 = trace)).
Proof.
  unfold init_failed. destruct (is_ImportError env e0) eqn:E.
  { intros [= <- <- <- <-]. split; [reflexivity|]. left. eauto. }
  destruct (is_Exception env e0) eqn:E'; intros [= <- <- <- <-];
    (split; [reflexivity|]); right; [left|right]; eauto 10.
Qed.

Lemma init_failed_raises {W DB H : Type} (env : kuzu_env W DB H) (e0 : exn)
      (self : manager DB H) (w : W) (trace : list boot_event)
      (d : KuzuDriverWrapper H) (self1 : manager DB H) (w1 : W)
      (t1 : list boot_event) :
  init_failed env e0 self w trace <> (Return d, self1, w1, t1).
Proof.
  intros Hf. apply init_failed_shape in Hf
    as (_ & [(_ & [=] & _)|[(_ & _ & [=] & _)|(_ & _ & [=] & _)]]).
Qed.

(** X12.  A driver that [get_driver] returns is kept: the manager
    holds its connection, and every later call returns the same driver
    without importing, opening, executing or logging anything.  When
    the manager held no connection, the call has executed the whole
    bootstrap on the new connection; after [close_driver] the manager
    holds none again, [is_connected] answers no without asking the
    engine, and the next [get_driver] that succeeds runs the bootstrap
    again. *)
Theorem driver_is_opened_once {W DB H : Type} (env : kuzu_env W DB H)
        (self self1 : manager DB H) (w w1 : W) (d : KuzuDriverWrapper H)
        (t1 : list boot_event) :
  get_driver env self w = (Return d, self1, w1, t1) ->
  _conn self1 = Some (conn d)
  /\ (forall w', get_driver env self1 w' = (Return d, self1, w', []))
  /\ (_conn self = None ->
      statements t1 = schema_statements
      /\ db_path self1 = db_path self
      /\ _db self1 <> None)
  /\ _conn (close_driver self1) = None
  /\ (forall w', is_connected env (close_driver self1) w' = (Return false, w'))
  /\ (forall w2 d2 self2 w3 t2,
        get_driver env (close_driver self1) w2 = (Return d2, self2, w3, t2) ->
        statements t2 = schema_statements).
Proof.
  assert (Hopen : forall (m m1 : manager DB H) w0 w0' d0 t0,
             _conn m = None ->
             get_driver env m w0 = (Return d0, m1, w0', t0) ->
             _conn m1 = Some (conn d0)
             /\ statements t0 = schema_statements
             /\ db_path m1 = db_path m /\ _db m1 <> None).
  { intros m m1 w0 w0' d0 t0 Hn. unfold get_driver. rewrite Hn.
    destruct (import_kuzu env w0) as [[e|] wa].
    { intros Hf. now apply init_failed_raises in Hf. }
    destruct (Database env (db_path m) wa) as [[db|e] wb].
    2:{ intros Hf. now apply init_failed_raises in Hf. }
    destruct (Connection env db wb) as [[c|e] wc].
    2:{ intros Hf. now apply init_failed_raises in Hf. }
    destruct (initialize_schema_spec env c wc)
      as ((rest & Es & Hnone & _) & _).
    destruct (_initialize_schema env c wc) as [[[e|] wd] trace2];
      cbn [fst snd] in *.
    { intros Hf. now apply init_failed_raises in Hf. }
    intros [= <- <- <- <-]. cbn [_conn conn db_path _db].
    split; [reflexivity|]. split; [|split; [reflexivity|discriminate]].
    rewrite (Hnone eq_refl), app_nil_r in Es.
    cbn [app statements flat_map]. fold (statements (trace2 ++ [BInfo
      (KuzuDB_name ++ # " connection established and schema verified")])).
    rewrite statements_app, <- Es. cbn [statements flat_map app].
    now rewrite app_nil_r. }
  intros Hg.
  assert (Hc : _conn self1 = Some (conn d)).
  { destruct (_conn self) as [c|] eqn:Ec.
    - unfold get_driver in Hg. rewrite Ec in Hg.
      injection Hg as <- <- <- <-. exact Ec.
    - now apply (Hopen self self1 w w1 d t1 Ec Hg). }
  split; [exact Hc|]. split.
  { intros w'. unfold get_driver. rewrite Hc. now destruct d. }
  split.
  { intros Hn. now apply (Hopen self self1 w w1 d t1 Hn Hg). }
  split; [reflexivity|]. split; [reflexivity|].
  intros w2 d2 self2 w3 t2 Hg2.
  now apply (Hopen (close_driver self1) self2 w2 w3 d2 t2 eq_refl Hg2).
Qed.

Lemma driver_is_opened_once_witness :
  get_driver working (MkManager (db_path fresh_manager) (Some tt) (Some tt)) 7
  = (Return (MkDriver tt),
     MkManager (db_path fresh_manager) (Some tt) (Some tt), 7, []).
Proof.
  apply (proj1 (proj2 (driver_is_opened_once working fresh_manager
                         (MkManager (db_path fresh_manager) (Some tt) (Some tt))
                         0 24 (MkDriver tt)
                         (snd (get_driver working fresh_manager 0))
                         eq_refl))).
Defined.

(** X13.  ImportError being a class of [Exception]: when [get_driver]
    raises, the manager held no connection before, and what is raised
    is either the ValueError that says the engine is missing or an
    exception of the library that is no ImportError.  Either an error
    line is the last thing logged, the manager still holds no
    connection, no statement of the bootstrap was executed and
    [is_connected] answers no without asking the engine: this is so
    whenever what is raised is an instance of [Exception].  Or what is
    raised is no instance of [Exception] and no error line was logged;
    the manager then holds a connection only if the exception left the
    bootstrap, after a statement was executed. *)
Theorem failed_open_leaves_no_connection {W DB H : Type}
        (env : kuzu_env W DB H) (self self1 : manager DB H) (w w1 : W)
        (e : exn) (t1 : list boot_event) :
  (forall x, is_ImportError env x = true -> is_Exception env x = true) ->
  get_driver env self w = (Raise e, self1, w1, t1) ->
  _conn self = None
  /\ (e = missing_error \/ is_ImportError env e = false)
  /\ (((exists pre line, t1 = pre ++ [BError line])
       /\ _conn self1 = None
       /\ statements t1 = []
       /\ (forall w', is_connected env self1 w' = (Return false, w')))
      \/ ((forall line, ~ In (BError line) t1)
          /\ is_Exception env e = false
          /\ (_conn self1 <> None -> statements t1 <> [])))
  /\ (is_Exception env e = true ->
      _conn self1 = None /\ statements t1 = []
      /\ exists pre line, t1 = pre ++ [BError line]).
Proof.
  intros Hsub. unfold get_driver.
  destruct (_conn self) as [c|] eqn:Ec; [discriminate|].
  intros Hg. split; [reflexivity|].
  assert (Hmain :
    (e = missing_error \/ is_ImportError env e = false)
    /\ (((exists pre line, t1 = pre ++ [BError line])
         /\ _conn self1 = None
         /\ statements t1 = []
         /\ (forall w', is_connected env self1 w' = (Return false, w')))
        \/ ((forall line, ~ In (BError line) t1)
            /\ is_Exception env e = false
            /\ (_conn self1 <> None -> statements t1 <> [])))).
  { assert (Hclean : forall e0 (m : manager DB H) w0 trace,
               _conn m = None -> statements trace = [] ->
               (forall line, ~ In (BError line) trace) ->
               init_failed env e0 m w0 trace = (Raise e, self1, w1, t1) ->
               (e = missing_error \/ is_ImportError env e = false)
               /\ (((exists pre line, t1 = pre ++ [BError line])
                    /\ _conn self1 = None
                    /\ statements t1 = []
                    /\ (forall w', is_connected env self1 w' = (Return false, w')))
                   \/ ((forall line, ~ In (BError line) t1)
                       /\ is_Exception env e = false
                       /\ (_conn self1 <> None -> statements t1 <> [])))).
    { intros e0 m w0 trace Hm Ht Hb Hf.
      assert (Hleft : forall line, t1 = trace ++ [BError line] -> self1 = m ->
                (exists pre line0, t1 = pre ++ [BError line0])
                /\ _conn self1 = None
                /\ statements t1 = []
                /\ (forall w', is_connected env self1 w' = (Return false, w'))).
      { intros line -> ->. split; [eauto|]. split; [exact Hm|].
        split; [now rewrite statements_app, Ht|].
        intros w'. unfold is_connected. now rewrite Hm. }
      apply init_failed_shape in Hf
        as (Em & [(Hi & [= <-] & line & Et)
                 |[(Hi & Hx & [= <-] & line & Et)|(Hi & Hx & [= <-] & Et)]]).
      - split; [now left|]. left. now apply (Hleft line).
      - split; [now right|]. left. now apply (Hleft line).
      - split; [now right|]. right. subst t1 self1.
        split; [exact Hb|]. split; [exact Hx|].
        intros Hc. now rewrite Hm in Hc. }
    destruct (import_kuzu env w) as [[e0|] wa].
    { apply (Hclean e0 self wa [] Ec eq_refl); [intros line []|exact Hg]. }
    destruct (Database env (db_path self) wa) as [[db|e0] wb].
    2:{ apply Hclean in Hg; [exact Hg|exact Ec|reflexivity|].
        intros line [H0|[]]. discriminate. }
    destruct (Connection env db wb) as [[c|e0] wc].
    2:{ apply Hclean in Hg; [exact Hg|reflexivity|reflexivity|].
        intros line [H0|[]]. discriminate. }
    destruct (initialize_schema_spec env c wc)
      as ((rest & Es & _ & Hsome) & Hb & _).
    destruct (_initialize_schema env c wc) as [[[e0|] wd] trace2];
      cbn [fst snd] in *; [|discriminate].
    destruct (Hsome e0 eq_refl) as [Hx0 Hne].
    assert (Hi0 : is_ImportError env e0 = false).
    { destruct (is_ImportError env e0) eqn:Ei; [|reflexivity].
      rewrite (Hsub e0 Ei) in Hx0. discriminate. }
    apply init_failed_shape in Hg
      as (_ & [(Hi & _)|[(_ & Hx & _)|(_ & _ & [= <-] & Et)]]);
      [congruence|congruence|].
    split; [now right|]. right. subst t1. split; [|split; [exact Hx0|]].
    - intros line Hin. cbn [app] in Hin. destruct Hin as [H0|Hin];
        [discriminate|exact (Hb line Hin)].
    - intros _. cbn [app statements flat_map]. exact Hne. }
  split; [exact (proj1 Hmain)|]. split; [exact (proj2 Hmain)|].
  intros Hx. destruct (proj2 Hmain) as [(Hl & Hc & Hs & _)|(_ & Hx' & _)].
  - auto.
  - congruence.
Qed.

Lemma builtin_classes_nest x :
  builtin_is_ImportError x = true -> builtin_is_Exception x = true.
Proof.
  unfold builtin_is_ImportError, builtin_is_Exception.
  intros H. apply Bool.orb_true_iff in H as [H|H]; apply eqb_eq in H;
    rewrite H; reflexivity.
Qed.

Lemma failed_open_leaves_no_connection_witness :
  is_connected not_installed fresh_manager 3 = (Return false, 3)
  /\ statements (snd (get_driver interrupting fresh_manager 0)) <> [].
Proof.
  split.
  - destruct (proj2 (proj2 (failed_open_leaves_no_connection
                              not_installed fresh_manager fresh_manager 0 0
                              missing_error
                              (snd (get_driver not_installed fresh_manager 0))
                              builtin_classes_nest eq_refl)))
      as [[(_ & _ & _ & Hc)|(Hb & _)] _].
    + apply Hc.
    + exfalso. apply (Hb (KuzuDB_name ++ # " is not installed. Run 'pip install kuzu'")).
      left. reflexivity.
  - destruct (proj2 (proj2 (failed_open_leaves_no_connection
                              interrupting fresh_manager
                              (MkManager (db_path fresh_manager) (Some tt) (Some tt))
                              0 1 (Exn (# "KeyboardInterrupt") [])
                              (snd (get_driver interrupting fresh_manager 0))
                              builtin_classes_nest eq_refl)))
      as [[(_ & _ & Hs & _)|(_ & _ & Hc)] _].
    + discriminate Hs.
    + apply Hc. discriminate.
Defined.

End ManagerFacts.

(** * Choosing the backend *)

Module FactoryFacts.

Import Kuzu Factory Notions2 Samples2 TextFacts.

#[local] Unset Implicit Arguments.

Lemma truthy_some (v : option str) :
  truthy v = true <-> exists c a, v = Some (c :: a).
Proof.
  destruct v as [[|c a]|]; simpl; split;
    try discriminate; try (intros (c' & a' & [=])); eauto.
Qed.

Lemma available_true h name :
  available h name = Return true <-> find_spec h name = Return true.
Proof.
  unfold available. destruct (find_spec h name) as [b|e]; [tauto|].
  destruct (host_is_ImportError h e); split; discriminate.
Qed.

Lemma available_raise h name e :
  available h name = Raise e ->
  find_spec h name = Raise e /\ host_is_ImportError h e = false.
Proof.
  unfold available. destruct (find_spec h name) as [b|e0]; [discriminate|].
  destruct (host_is_ImportError h e0) eqn:E; [discriminate|].
  now intros [= <-].
Qed.

Lemma kuzudb_usable h :
  _is_kuzudb_available h = Return true <-> usable h KuzuDBManager.
Proof. apply available_true. Qed.

Lemma falkordb_usable h :
  _is_falkordb_available h = Return true <-> usable h FalkorDBManager.
Proof.
  unfold _is_falkordb_available, usable.
  destruct (Text.eqb (platform_system h) (# "Windows")) eqn:Ew.
  - apply eqb_eq in Ew. split; [discriminate|tauto].
  - apply eqb_neq in Ew. destruct (before_3_12 (version_info h)).
    + split; [discriminate|]. intros (_ & [=] & _).
    + rewrite available_true. tauto.
Qed.

Lemma falkordb_raise h e :
  _is_falkordb_available h = Raise e ->
  find_spec h (# "redislite") = Raise e /\ host_is_ImportError h e = false.
Proof.
  unfold _is_falkordb_available.
  destruct (Text.eqb _ _); [discriminate|].
  destruct (before_3_12 _); [discriminate|]. apply available_raise.
Qed.

Lemma neo4j_usable h :
  _is_neo4j_configured h = true <-> usable h DatabaseManager.
Proof.
  unfold _is_neo4j_configured, usable.
  rewrite !andb_true_iff, !truthy_some. split.
  - intros [[H1 H2] H3] name [<-|[<-|[<-|[]]]]; assumption.
  - intros H. repeat split; apply H; simpl; auto.
Qed.

Lemma backend_name_choice (t : str) :
  (Text.eqb t (# "kuzudb") = true /\ t = backend_name KuzuDBManager)
  \/ (Text.eqb t (# "kuzudb") = false
      /\ Text.eqb t (# "falkordb") = true /\ t = backend_name FalkorDBManager)
  \/ (Text.eqb t (# "kuzudb") = false /\ Text.eqb t (# "falkordb") = false
      /\ Text.eqb t (# "neo4j") = true /\ t = backend_name DatabaseManager)
  \/ (Text.eqb t (# "kuzudb") = false /\ Text.eqb t (# "falkordb") = false
      /\ Text.eqb t (# "neo4j") = false /\ forall b, backend_name b <> t).
Proof.
  destruct (Text.eqb t (# "kuzudb")) eqn:E1.
  { left. apply eqb_eq in E1. auto. }
  destruct (Text.eqb t (# "falkordb")) eqn:E2.
  { right. left. apply eqb_eq in E2. auto. }
  destruct (Text.eqb t (# "neo4j")) eqn:E3.
  { right. right. left. apply eqb_eq in E3. auto. }
  right. right. right. repeat split; auto.
  apply eqb_neq in E1, E2, E3. intros [] E; unfold backend_name in E; subst t; congruence.
Qed.

Lemma instantiate_spec h b line :
  fst (instantiate h b line) = constructed h b
  /\ snd (instantiate h b line) = [line].
Proof.
  unfold instantiate, constructed. now destruct (construct h b).
Qed.

Lemma constructed_return h b b' :
  constructed h b = Return b' -> b' = b /\ construct h b = Return tt.
Proof.
  unfold constructed. destruct (construct h b) as [[]|e]; [|discriminate].
  now intros [= <-].
Qed.

Lemma constructed_raise h b e :
  constructed h b = Raise e -> construct h b = Raise e.
Proof.
  unfold constructed. destruct (construct h b) as [[]|e0]; [discriminate|].
  now intros [= <-].
Qed.

(** X14.  The factory only ever returns a backend that the host can
    run and whose constructor returned: the embedded engine when its
    module is found, FalkorDB Lite only off Windows, on Python 3.12 or
    later and with its module found, the server only with its three
    settings not empty.  It logs one line, before it calls the
    constructor.  When it raises, either nothing was logged and what
    is raised is one of its own five ValueErrors or an exception of
    the module lookup that is not an ImportError, or one line was
    logged and what is raised is the exception of the constructor of
    a backend the host can run. *)
Theorem factory_returns_a_usable_backend (h : host) :
  (forall b, fst (get_database_manager h) = Return b ->
     usable h b /\ construct h b = Return tt
     /\ exists line, snd (get_database_manager h) = [line])
  /\ (forall e, fst (get_database_manager h) = Raise e ->
        (snd (get_database_manager h) = []
         /\ (In e [kuzudb_not_installed; falkordb_not_installed;
                   neo4j_not_configured; no_backend h]
             \/ (exists t, e = unknown_type t)
             \/ (exists name, find_spec h name = Raise e
                              /\ host_is_ImportError h e = false)))
        \/ (exists b line, snd (get_database_manager h) = [line]
                           /\ usable h b /\ construct h b = Raise e)).
Proof.
  assert (Hinst : forall b line,
             usable h b ->
             (forall b', fst (instantiate h b line) = Return b' ->
                usable h b' /\ construct h b' = Return tt
                /\ exists line', snd (instantiate h b line) = [line'])
             /\ (forall e, fst (instantiate h b line) = Raise e ->
                   (snd (instantiate h b line) = []
                    /\ (In e [kuzudb_not_installed; falkordb_not_installed;
                              neo4j_not_configured; no_backend h]
                        \/ (exists t, e = unknown_type t)
                        \/ (exists name, find_spec h name = Raise e
                                         /\ host_is_ImportError h e = false)))
                   \/ (exists b0 line0, snd (instantiate h b line) = [line0]
                                        /\ usable h b0
                                        /\ construct h b0 = Raise e))).
  { intros b line Hu. destruct (instantiate_spec h b line) as [-> ->]. split.
    - intros b' Hb. apply constructed_return in Hb as [-> Hc]. eauto.
    - intros e He. apply constructed_raise in He. right. eauto. }
  assert (Hfail : forall e0 : exn,
             (In e0 [kuzudb_not_installed; falkordb_not_installed;
                     neo4j_not_configured; no_backend h]
              \/ (exists t, e0 = unknown_type t)
              \/ (exists name, find_spec h name = Raise e0
                               /\ host_is_ImportError h e0 = false)) ->
             (forall b', @Raise backend e0 = Return b' ->
                usable h b' /\ construct h b' = Return tt
                /\ exists line', @nil str = [line'])
             /\ (forall e, @Raise backend e0 = Raise e ->
                   (@nil str = []
                    /\ (In e [kuzudb_not_installed; falkordb_not_installed;
                              neo4j_not_configured; no_backend h]
                        \/ (exists t, e = unknown_type t)
                        \/ (exists name, find_spec h name = Raise e
                                         /\ host_is_ImportError h e = false)))
                   \/ (exists b0 line0, @nil str = [line0]
                                        /\ usable h b0
                                        /\ construct h b0 = Raise e))).
  { intros e0 H0. split; [intros b' [=]|]. intros e [= <-]. left. auto. }
  unfold get_database_manager, default_manager.
  pose proof (proj1 (kuzudb_usable h)) as Hk.
  pose proof (proj1 (falkordb_usable h)) as Hf.
  pose proof (proj1 (neo4j_usable h)) as Hn.
  pose proof (available_raise h (# "kuzu")) as Rk.
  pose proof (falkordb_raise h) as Rf.
  fold (_is_kuzudb_available h) in Rk.
  destruct (truthy (requested_type h)).
  - destruct (Text.eqb _ (# "kuzudb")).
    { destruct (_is_kuzudb_available h) as [[|]|e0]; cbn [fst snd].
      - apply Hinst. now apply Hk.
      - apply Hfail. simpl. auto.
      - apply Hfail. right. right. exists (# "kuzu"). now apply Rk. }
    destruct (Text.eqb _ (# "falkordb")).
    { destruct (_is_falkordb_available h) as [[|]|e0]; cbn [fst snd].
      - apply Hinst. now apply Hf.
      - apply Hfail. simpl. auto.
      - apply Hfail. right. right. exists (# "redislite"). now apply Rf. }
    destruct (Text.eqb _ (# "neo4j")).
    { destruct (_is_neo4j_configured h); cbn [negb fst snd].
      - apply Hinst. now apply Hn.
      - apply Hfail. simpl. auto. }
    cbn [fst snd]. apply Hfail. right. left. eauto.
  - destruct (_is_kuzudb_available h) as [[|]|e0]; cbn [fst snd].
    { apply Hinst. now apply Hk. }
    2:{ apply Hfail. right. right. exists (# "kuzu"). now apply Rk. }
    destruct (_is_falkordb_available h) as [[|]|e0]; cbn [fst snd].
    { apply Hinst. now apply Hf. }
    2:{ apply Hfail. right. right. exists (# "redislite"). now apply Rf. }
    destruct (_is_neo4j_configured h); cbn [fst snd].
    + apply Hinst. now apply Hn.
    + apply Hfail. simpl. auto 8.
Qed.

Lemma factory_returns_a_usable_backend_witness :
  usable (kuzu_host None) KuzuDBManager
  /\ construct read_only_host KuzuDBManager = Raise no_directory.
Proof.
  split.
  - apply (proj1 (factory_returns_a_usable_backend (kuzu_host None))
                 KuzuDBManager eq_refl).
  - destruct (proj2 (factory_returns_a_usable_backend read_only_host)
                    no_directory eq_refl) as [[H _]|(b & line & _ & _ & H)].
    + discriminate H.
    + destruct b; exact H.
Defined.

(** X15.  A database type that is asked for is never replaced by
    another: in any letter case, the factory returns the backend of
    that name or raises.  When the host can run the backend, the
    factory calls its constructor and hands on what that gives, the
    instance or the exception, with no other backend tried; it raises
    the ValueError for an unknown type when the name is none of the
    three; and it reads the type from [CGC_RUNTIME_DB_TYPE] whenever
    that variable is set and not empty. *)
Theorem explicit_choice_is_never_replaced (h : host) (t : str) :
  requested_type h = Some t -> t <> [] ->
  (forall b, fst (get_database_manager h) = Return b ->
     backend_name b = Text.lower t)
  /\ (forall b, backend_name b = Text.lower t -> usable h b ->
        fst (get_database_manager h) = constructed h b)
  /\ ((forall b, backend_name b <> Text.lower t) ->
      fst (get_database_manager h) = Raise (unknown_type (Text.lower t)))
  /\ (forall c a, getenv h (# "CGC_RUNTIME_DB_TYPE") = Some (c :: a) ->
        t = c :: a).
Proof.
  intros Hr Ht.
  assert (Htr : truthy (requested_type h) = true).
  { rewrite Hr. destruct t; [congruence|reflexivity]. }
  pose proof (kuzudb_usable h) as Hk.
  pose proof (falkordb_usable h) as Hf.
  pose proof (neo4j_usable h) as Hn.
  assert (Hi : forall b line b', fst (instantiate h b line) = Return b' -> b' = b).
  { intros b line b' H0. rewrite (proj1 (instantiate_spec h b line)) in H0.
    now apply constructed_return in H0. }
  split; [|split; [|split]].
  4:{ intros c a Hc. unfold requested_type in Hr. rewrite Hc in Hr.
      cbn in Hr. congruence. }
  all: unfold get_database_manager; rewrite Htr, Hr;
    destruct (backend_name_choice (Text.lower t))
      as [(E1 & N)|[(E1 & E2 & N)|[(E1 & E2 & E3 & N)|(E1 & E2 & E3 & N)]]];
    rewrite ?E1, ?E2, ?E3.
  - intros b. destruct (_is_kuzudb_available h) as [[|]|e0]; cbn [fst];
      intros Hb; [|discriminate Hb|discriminate Hb].
    apply Hi in Hb. subst b. now rewrite N.
  - intros b. destruct (_is_falkordb_available h) as [[|]|e0]; cbn [fst];
      intros Hb; [|discriminate Hb|discriminate Hb].
    apply Hi in Hb. subst b. now rewrite N.
  - intros b. destruct (_is_neo4j_configured h); cbn [negb fst];
      intros Hb; [|discriminate Hb].
    apply Hi in Hb. subst b. now rewrite N.
  - intros b [=].
  - intros b Hb Hu. rewrite N in Hb. destruct b; try discriminate.
    apply Hk in Hu. rewrite Hu. apply instantiate_spec.
  - intros b Hb Hu. rewrite N in Hb. destruct b; try discriminate.
    apply Hf in Hu. rewrite Hu. apply instantiate_spec.
  - intros b Hb Hu. rewrite N in Hb. destruct b; try discriminate.
    apply Hn in Hu. rewrite Hu. apply instantiate_spec.
  - intros b Hb. now apply N in Hb.
  - intros Hno. now destruct (Hno KuzuDBManager).
  - intros Hno. now destruct (Hno FalkorDBManager).
  - intros Hno. now destruct (Hno DatabaseManager).
  - reflexivity.
Qed.

Lemma explicit_choice_is_never_replaced_witness :
  fst (get_database_manager (kuzu_host (Some (# "KuzuDB"))))
  = Return KuzuDBManager
  /\ fst (get_database_manager (kuzu_host (Some (# "sqlite"))))
     = Raise (unknown_type (# "sqlite")).
Proof.
  split.
  - apply (proj1 (proj2 (explicit_choice_is_never_replaced
                           (kuzu_host (Some (# "KuzuDB"))) (# "KuzuDB")
                           eq_refl ltac:(discriminate)))
                 KuzuDBManager); reflexivity.
  - apply (proj1 (proj2 (proj2 (explicit_choice_is_never_replaced
                                  (kuzu_host (Some (# "sqlite"))) (# "sqlite")
                                  eq_refl ltac:(discriminate))))).
    intros []; discriminate.
Defined.

(** X16.  With no database type asked for, and a module lookup that
    fails only with ImportError, the factory takes the first backend
    the host can run, in the order embedded engine, FalkorDB Lite,
    server, calls its constructor and hands on what that gives, the
    instance or the exception: after a constructor that raises, no
    later backend is tried.  When the host can run none, it raises
    its own ValueError with nothing logged, and the message names
    FalkorDB Lite exactly off Windows. *)
Theorem default_is_first_usable_backend (h : host) :
  truthy (requested_type h) = false ->
  (forall name e, find_spec h name = Raise e ->
                  host_is_ImportError h e = true) ->
  (usable h KuzuDBManager ->
   fst (get_database_manager h) = constructed h KuzuDBManager)
  /\ (~ usable h KuzuDBManager -> usable h FalkorDBManager ->
      fst (get_database_manager h) = constructed h FalkorDBManager)
  /\ (~ usable h KuzuDBManager -> ~ usable h FalkorDBManager ->
      usable h DatabaseManager ->
      fst (get_database_manager h) = constructed h DatabaseManager)
  /\ ((forall b, ~ usable h b) ->
      get_database_manager h = (Raise (no_backend h), []))
  /\ Text.contains (# "FalkorDB") (exn_str (no_backend h))
     = negb (Text.eqb (platform_system h) (# "Windows")).
Proof.
  intros Htr Hq.
  pose proof (kuzudb_usable h) as Hk.
  pose proof (falkordb_usable h) as Hf.
  pose proof (neo4j_usable h) as Hn.
  pose proof (available_raise h (# "kuzu")) as Rk.
  pose proof (falkordb_raise h) as Rf.
  fold (_is_kuzudb_available h) in Rk.
  assert (Ek : ~ usable h KuzuDBManager ->
               _is_kuzudb_available h = Return false).
  { intros N. destruct (_is_kuzudb_available h) as [[|]|e0]; auto.
    - tauto.
    - destruct (Rk e0 eq_refl) as [R1 R2]. rewrite (Hq _ _ R1) in R2.
      discriminate. }
  assert (Ef : ~ usable h FalkorDBManager ->
               _is_falkordb_available h = Return false).
  { intros N. destruct (_is_falkordb_available h) as [[|]|e0]; auto.
    - tauto.
    - destruct (Rf e0 eq_refl) as [R1 R2]. rewrite (Hq _ _ R1) in R2.
      discriminate. }
  assert (En : ~ usable h DatabaseManager -> _is_neo4j_configured h = false).
  { intros N. destruct (_is_neo4j_configured h); tauto. }
  unfold get_database_manager, default_manager. rewrite Htr.
  split; [|split; [|split; [|split]]].
  - intros U. apply Hk in U. rewrite U. apply instantiate_spec.
  - intros N U. apply Hf in U. rewrite (Ek N), U. apply instantiate_spec.
  - intros N1 N2 U. apply Hn in U. rewrite (Ek N1), (Ef N2), U.
    apply instantiate_spec.
  - intros N. now rewrite (Ek (N _)), (Ef (N _)), (En (N _)).
  - unfold no_backend. destruct (Text.eqb (platform_system h) (# "Windows"));
      reflexivity.
Qed.

Lemma default_is_first_usable_backend_witness :
  fst (get_database_manager (kuzu_host None)) = Return KuzuDBManager
  /\ fst (get_database_manager read_only_host) = Raise no_directory.
Proof.
  split.
  - apply (proj1 (default_is_first_usable_backend (kuzu_host None) eq_refl
                    ltac:(intros name e; discriminate))).
    reflexivity.
  - apply (proj1 (default_is_first_usable_backend read_only_host eq_refl
                    ltac:(intros name e; discriminate))).
    reflexivity.
Defined.

End FactoryFacts.

(** * The tables of the graph and the translator's tables *)

Module TableFacts.

Import Re Kuzu Manager Notions Notions2 TextFacts PruneFacts.

#[local] Unset Implicit Arguments.

Lemma assoc_In {B : Type} (k : str) : forall (l : list (str * B)) b,
  assoc k l = Some b -> In k (map fst l).
Proof.
  induction l as [|[k' b'] l IH]; intros b; simpl; [discriminate|].
  destruct (Text.eqb k k') eqn:E.
  - apply eqb_eq in E. auto.
  - intros H. right. eauto.
Qed.

Lemma forallb_in_set (l cols : list str) :
  forallb (fun k => in_set k cols) l = true <-> forall k, In k l -> In k cols.
Proof.
  rewrite forallb_forall. split; intros H k Hk; apply in_set_In; auto.
Qed.

Lemma node_tables_agree : forallb table_agrees node_tables = true.
Proof. vm_compute. reflexivity. Qed.

Lemma schema_labels_have_tables :
  forallb (fun l => in_set l (map fst node_tables)) (map fst SCHEMA_MAP) = true.
Proof. vm_compute. reflexivity. Qed.

Lemma table_agrees_spec label schema :
  table_agrees (label, schema) = true ->
  exists attrs pk,
    assoc label SCHEMA_MAP = Some attrs
    /\ (forall k, In k attrs <-> In k (columns schema))
    /\ primary_key schema = Some pk
    /\ In pk (columns schema)
    /\ match assoc label Kuzu.uid_map with
       | Some parts =>
           pk = # "uid" /\ forall p, In p parts -> In p (columns schema)
       | None => pk <> # "uid"
       end.
Proof.
  unfold table_agrees. cbn [fst snd].
  destruct (assoc label SCHEMA_MAP) as [attrs|]; [|discriminate].
  destruct (primary_key schema) as [pk|]; [|discriminate].
  rewrite !andb_true_iff. intros [[[H1 H2] H3] H4].
  exists attrs, pk. split; [reflexivity|]. split.
  { intros k. split.
    - now apply forallb_in_set.
    - revert k. now apply forallb_in_set. }
  split; [reflexivity|]. split; [now apply in_set_In|].
  destruct (assoc label Kuzu.uid_map) as [parts|].
  - apply andb_true_iff in H4 as [H4 H5]. split; [now apply eqb_eq|].
    now apply forallb_in_set.
  - apply negb_true_iff in H4. now apply eqb_neq.
Qed.



End TableFacts.

(** * What a translation leaves behind *)

Module PurityFacts.

Import Re Kuzu Notions Notions2 Samples TextFacts PyFacts RecFacts ReFacts
       TextMore PruneFacts ShapeFacts SetFacts ParamFacts.

#[local] Unset Implicit Arguments.

Lemma keys_again : forall (A d : Py.dict),
  (forall k, In k (Py.keys A) -> In k (Py.keys d)) ->
  Py.keys (again A d) = Py.keys d.
Proof.
  induction A as [|[k v] A IH]; intros d H; simpl; [reflexivity|].
  rewrite IH.
  - apply keys_set_old. apply H. now left.
  - intros k' Hk'. apply keys_set. left. apply H. now right.
Qed.

Lemma keys_again_mono : forall (A d : Py.dict) k,
  In k (Py.keys d) \/ In k (Py.keys A) -> In k (Py.keys (again A d)).
Proof.
  induction A as [|[k0 v0] A IH]; intros d k H; simpl in *; [tauto|].
  apply IH. destruct H as [H|[<-|H]]; auto.
  - left. apply keys_set. now left.
  - left. apply keys_set. now right.
Qed.

Lemma wf_again : forall (A d : Py.dict), Py.wf d -> Py.wf (again A d).
Proof.
  induction A as [|[k v] A IH]; intros d H; simpl; [exact H|].
  apply IH. now apply wf_set.
Qed.

Lemma get_again k : forall (A d : Py.dict),
  Py.get k (again A d)
  = match last_value k A with
    | Some v => Some v
    | None => Py.get k d
    end.
Proof.
  induction A as [|[k0 v0] A IH]; intros d; simpl; [reflexivity|].
  rewrite IH. destruct (last_value k A) as [v|]; [reflexivity|].
  destruct (Text.eqb k k0) eqn:E.
  - apply eqb_eq in E. subst k0. apply get_set_same.
  - apply eqb_neq in E. now apply get_set_other.
Qed.

Lemma last_value_keys k : forall (A : Py.dict) v,
  last_value k A = Some v -> In k (Py.keys A).
Proof.
  induction A as [|[k0 v0] A IH]; intros v; simpl; [discriminate|].
  destruct (last_value k A) as [v'|] eqn:El; [eauto|].
  destruct (Text.eqb k k0) eqn:E; [|discriminate].
  apply eqb_eq in E. auto.
Qed.

(** Two dictionaries with the same keys in the same order and the
    same values are one dictionary. *)
Lemma dict_ext : forall d1 d2 : Py.dict,
  Py.wf d1 -> Py.wf d2 -> Py.keys d1 = Py.keys d2 ->
  (forall k, Py.get k d1 = Py.get k d2) -> d1 = d2.
Proof.
  unfold Py.wf.
  induction d1 as [|[k v] d1 IH]; intros [|[k2 v2] d2] W1 W2 Ek Eg;
    try discriminate; [reflexivity|].
  simpl in Ek. injection Ek as <- Ek.
  inversion W1 as [|? ? N1 W1']; subst. inversion W2 as [|? ? N2 W2']; subst.
  pose proof (Eg k) as E0. simpl in E0. rewrite eqb_refl in E0.
  injection E0 as <-. f_equal. apply IH; auto.
  intros k'. destruct (Text.eqb k' k) eqn:E.
  - apply eqb_eq in E. subst k'.
    now rewrite (get_key_none _ _ N1), (get_key_none _ _ N2).
  - specialize (Eg k'). simpl in Eg. now rewrite E in Eg.
Qed.

(** Writing the same sequence of bindings a second time changes
    nothing. *)
Lemma again_again (A d : Py.dict) :
  Py.wf d -> again A (again A d) = again A d.
Proof.
  intros W. apply dict_ext.
  - now apply wf_again, wf_again.
  - now apply wf_again.
  - apply keys_again. intros k Hk. apply keys_again_mono. now right.
  - intros k. rewrite (get_again k A (again A d)).
    destruct (last_value k A) as [v|] eqn:El; [|reflexivity].
    now rewrite get_again, El.
Qed.

Lemma agrees_again (A p p' : Py.dict) :
  Forall uid_named A -> agrees p p' -> agrees (again A p) (again A p').
Proof.
  revert p p'. induction A as [|[k v] A IH]; intros p p' HA Hag; simpl;
    [exact Hag|].
  inversion HA as [|? ? (w & Ew) HA']; subst. cbn [fst] in Ew. subst k.
  apply IH; [exact HA'|]. intros k N.
  rewrite !get_set_other by apply N. now apply Hag.
Qed.

(** A key field's parameter, as rule 2 finds it. *)
Lemma part_pattern_shape part p a m :
  match_at (part_pattern part) p a = Some m ->
  exists w, whole m = part ++ # ":" ++ w ++ # "$" ++ group 1 m.
Proof.
  intros H. apply match_at_sound in H as (st' & P & Ea & Eg & _).
  unfold part_pattern, Seq in P. walk P.
  apply (path_lit part) in P0 as (E0 & C0).
  apply (path_lit (# ":")) in P1 as (E1 & C1).
  apply path_star_chr in P2 as (w & E2 & H2 & C2).
  apply (path_lit (# "$")) in P3 as (E3 & C3).
  apply path_group_plus in P as (v & E4 & H4 & N4 & C4).
  simpl rest in E0. simpl caps in C0.
  assert (G1 : group 1 m = v).
  { unfold group. rewrite Eg, C4. reflexivity. }
  rewrite G1. exists w.
  rewrite E0, E1, E2, E3, E4 in Ea.
  apply (app_inv_tail (rest st')). rewrite <- Ea.
  now rewrite <- !app_assoc.
Qed.

(** In a text that does not hold [$__uid_], the parameter of a key
    field is not one of rule 2's own. *)
Lemma key_parameter_not_uid part props l r m :
  Text.contains (# "$__uid_") (l ++ props ++ r) = false ->
  search (part_pattern part) props = Some m ->
  forall w, group 1 m <> # "__uid_" ++ w.
Proof.
  intros Hc Hs w E.
  apply search_sound in Hs as (pre & post & p' & Ep & Hm).
  apply part_pattern_shape in Hm as (ws & Ew).
  rewrite E in Ew. rewrite Ew in Ep. rewrite Ep in Hc.
  replace (l ++ (pre ++ (part ++ # ":" ++ ws ++ # "$" ++ # "__uid_" ++ w)
                      ++ post) ++ r)
    with ((l ++ pre ++ part ++ # ":" ++ ws) ++ # "$__uid_" ++ (w ++ post ++ r))
    in Hc.
  - rewrite contains_intro in Hc. discriminate.
  - repeat rewrite <- app_assoc. reflexivity.
Qed.

Lemma build_uid_agrees props l r p p' :
  Text.contains (# "$__uid_") (l ++ props ++ r) = false ->
  agrees p p' ->
  forall parts u, build_uid parts props p u = build_uid parts props p' u.
Proof.
  intros Hc Hag. induction parts as [|part parts IH]; intros u; simpl;
    [reflexivity|].
  destruct (search (part_pattern part) props) as [m|] eqn:Es; [|reflexivity].
  rewrite <- (Hag (group 1 m) (key_parameter_not_uid part props l r m Hc Es)).
  destruct (Py.get (group 1 m) p) as [[]|]; auto.
Qed.

(** One step of rule 2 on two states that differ only in the
    parameters named [__uid_...] writes the same binding, or none,
    in both. *)
Lemma merge_step_pair um m st st' l r :
  Text.contains (# "$__uid_") (l ++ group 3 m ++ r) = false ->
  t_query st = t_query st' -> t_out st = t_out st' ->
  agrees (t_params st) (t_params st') ->
  exists A, Forall uid_named A
    /\ t_params (merge_step um st m) = again A (t_params st)
    /\ t_params (merge_step um st' m) = again A (t_params st')
    /\ t_query (merge_step um st m) = t_query (merge_step um st' m)
    /\ t_out (merge_step um st m) = t_out (merge_step um st' m).
Proof.
  intros Hc Eq Eo Hag. unfold merge_step.
  destruct (assoc _ um) as [pk|].
  2:{ exists []. repeat split; auto. }
  rewrite <- (build_uid_agrees _ l r _ _ Hc Hag pk []).
  destruct (build_uid pk _ (t_params st) []) as [u|].
  2:{ exists []. repeat split; auto. }
  exists [(# "__uid_" ++ group 1 m, Py.VStr u)].
  split; [repeat constructor; now exists (group 1 m)|].
  rewrite <- Eq, <- Eo.
  destruct (Text.contains _ (t_query st)); cbn [t_params t_query t_out again
    fold_left fst snd]; repeat split; reflexivity.
Qed.

Lemma again_app (A B d : Py.dict) : again (A ++ B) d = again B (again A d).
Proof. unfold again. apply fold_left_app. Qed.

Lemma merge_steps_pair um text : forall ms st st',
  Text.contains (# "$__uid_") text = false ->
  (forall m, In m ms -> exists l r, text = l ++ group 3 m ++ r) ->
  t_query st = t_query st' -> t_out st = t_out st' ->
  agrees (t_params st) (t_params st') ->
  exists A, Forall uid_named A
    /\ t_params (fold_left (merge_step um) ms st) = again A (t_params st)
    /\ t_params (fold_left (merge_step um) ms st') = again A (t_params st')
    /\ t_query (fold_left (merge_step um) ms st)
       = t_query (fold_left (merge_step um) ms st')
    /\ t_out (fold_left (merge_step um) ms st)
       = t_out (fold_left (merge_step um) ms st').
Proof.
  induction ms as [|m ms IH]; intros st st' Hc Hin Eq Eo Hag; simpl.
  - exists []. repeat split; auto.
  - destruct (Hin m (or_introl eq_refl)) as (l & r & Et).
    rewrite Et in Hc.
    destruct (merge_step_pair um m st st' l r Hc Eq Eo Hag)
      as (A1 & HA1 & E1 & E1' & Eq1 & Eo1).
    rewrite <- Et in Hc.
    destruct (IH (merge_step um st m) (merge_step um st' m) Hc
                 (fun m0 H0 => Hin m0 (or_intror H0)) Eq1 Eo1)
      as (A2 & HA2 & E2 & E2' & Eq2 & Eo2).
    { rewrite E1, E1'. now apply agrees_again. }
    exists (A1 ++ A2). split; [now apply Forall_app|].
    rewrite !again_app, <- E1, <- E1'. auto.
Qed.

(** The property block of a [MERGE] fragment stands in the text. *)
Lemma merge_block_in_text text m :
  In m (finditer merge_pattern text) ->
  exists l r, text = l ++ group 3 m ++ r.
Proof.
  intros H. apply finditer_sound in H as (pre & post & p' & Et & Hm).
  apply merge_pattern_shape in Hm as (w1 & w2 & Ew & _).
  exists (pre ++ # "MERGE" ++ w1 ++ # "(" ++ group 1 m ++ # ":" ++ group 2 m
              ++ w2 ++ # "{"), (# "})" ++ post).
  rewrite Et, Ew. repeat rewrite <- app_assoc. reflexivity.
Qed.

(** Rule 1 reads the parameters only under the name after [+= $]. *)
Lemma translate_set_agrees query p p' :
  Text.contains (# "$__uid_") query = false ->
  agrees p p' ->
  snd (translate_set query p) = false ->
  translate_set query p' = (fst (fst (translate_set query p)), p', false).
Proof.
  intros Hc Hag. unfold translate_set.
  destruct (Text.contains (# "SET") query && Text.contains (# "+=") query);
    [|reflexivity].
  destruct (search set_pattern query) as [m|] eqn:Es; [|reflexivity].
  assert (N : forall w, group 2 m <> # "__uid_" ++ w).
  { intros w E. apply search_sound in Es as (pre & post & q' & Eq & Hm).
    apply set_pattern_shape in Hm as (w1 & w2 & w3 & Ew & _).
    rewrite E in Ew. rewrite Ew in Eq. rewrite Eq in Hc.
    replace (pre ++ (# "SET" ++ w1 ++ group 1 m ++ w2 ++ # "+=" ++ w3 ++ # "$"
                       ++ # "__uid_" ++ w) ++ post)
      with ((pre ++ # "SET" ++ w1 ++ group 1 m ++ w2 ++ # "+=" ++ w3)
              ++ # "$__uid_" ++ (w ++ post)) in Hc.
    - rewrite contains_intro in Hc. discriminate.
    - repeat rewrite <- app_assoc. reflexivity. }
  rewrite <- (Hag _ N).
  destruct (match Py.get (group 2 m) p with
            | Some v => v
            | None => Py.VDict []
            end) as [| | | | |props]; try reflexivity.
  unfold expand_props.
  rewrite (expand_fold (group 1 m) (group 2 m)
             (match search (def_pattern (group 1 m)) query with
              | Some def_match => Some (group 1 def_match)
              | None => None
              end) props [] p),
          (expand_fold (group 1 m) (group 2 m)
             (match search (def_pattern (group 1 m)) query with
              | Some def_match => Some (group 1 def_match)
              | None => None
              end) props [] p').
  cbn [app].
  destruct (map _ (filter _ props)); cbn [fst snd]; [reflexivity|discriminate].
Qed.

(** C8, as stated, fails: the translation is not pure.  It writes the
    identity parameter into the dictionary it was given; it may print
    a line; and where the query names a parameter [__uid_...], a
    second translation with the dictionary as the first left it gives
    another text. *)
Lemma translation_writes_into_its_parameters :
  tr_caller_params (_translate_query (session_init tt) foo_merge foo_params)
  = foo_params ++ [(# "__uid_f", Py.VStr (# "foo/x.py10"))]
  /\ tr_printed (_translate_query (session_init tt) twin_query
                                  shared_block_params)
     = [# "DEBUG_FAILURE: Could not find old_block in query: '{name: $n, path: $p, line_number: $l}'"]
  /\ (let tr := _translate_query (session_init tt) own_uid_query
                                 shared_block_params in
      let tr2 := _translate_query (session_init tt) own_uid_query
                                  (tr_caller_params tr) in
      tr_query tr
      = # "MERGE (a:Function {name: $n, path: $p, line_number: $l, uid: $__uid_a}) "
      /\ tr_query tr2
         = # "MERGE (a:Function {name: $n, path: $p, line_number: $l, uid: $__uid_a}) SET a += $__uid_a").
Proof. vm_compute. repeat split. Qed.

(** C8, amended.  What a translation returns and leaves behind
    depends on the query, the parameters and the session's key table,
    not on the connection.  The dictionary it was given keeps every
    binding that is not named [__uid_...].  And the writing does not
    show when the dictionary is used again: where the text [$__uid_]
    stands neither in the query nor in the text rule 1 hands on, a
    second translation of the query, with the dictionary as the first
    left it, returns the same text and parameters, prints the same
    lines and leaves the dictionary as it is. *)
Theorem translation_repeats_on_the_map_it_wrote (conn : Type)
        (self : session conn) (query : str) (parameters : Py.dict) :
  Py.wf parameters ->
  Text.contains (# "$__uid_") query = false ->
  Text.contains (# "$__uid_") (fst (fst (translate_set query parameters)))
  = false ->
  let tr := _translate_query self query parameters in
  (forall (conn' : Type) (c' : conn'),
     _translate_query (Session c' (session_uid_map self)) query parameters
     = tr)
  /\ (forall k, (forall w, k <> # "__uid_" ++ w) ->
        Py.get k (tr_caller_params tr) = Py.get k parameters)
  /\ _translate_query self query (tr_caller_params tr) = tr.
Proof.
  intros W Hq Hq1 tr. split; [reflexivity|].
  assert (Hcase : tr_caller_params tr = parameters
                  \/ (snd (translate_set query parameters) = false
                      /\ tr_caller_params tr
                         = t_params (inject_uids (session_uid_map self)
                             (TState (fst (fst (translate_set query parameters)))
                                     parameters [])))).
  { subst tr. unfold _translate_query, rewrite.
    pose proof (translate_set_not_copied query parameters) as Hc.
    destruct (translate_set query parameters) as [[q1 p1] copied].
    cbn [fst snd] in *. cbn [t_query t_params t_out].
    destruct copied.
    - left. now destruct (is_schema_statement _).
    - right. split; [reflexivity|]. rewrite (Hc eq_refl).
      now destruct (is_schema_statement _). }
  destruct Hcase as [E|[Hnc E]].
  { rewrite E. split; [reflexivity|]. reflexivity. }
  set (q1 := fst (fst (translate_set query parameters))) in *.
  set (um := session_uid_map self) in *.
  unfold inject_uids in E. cbn [t_query] in E.
  destruct (merge_steps_pair um q1 (finditer merge_pattern q1)
              (TState q1 parameters []) (TState q1 parameters [])
              Hq1 (fun m H0 => merge_block_in_text q1 m H0)
              eq_refl eq_refl (fun k _ => eq_refl))
    as (A & HA & EA & _).
  cbn [t_params] in EA.
  assert (Hag : agrees parameters (tr_caller_params tr)).
  { rewrite E, EA. intros k N.
    rewrite get_again.
    destruct (last_value k A) as [v|] eqn:El; [|reflexivity].
    exfalso. apply last_value_keys in El. unfold Py.keys in El.
    apply in_map_iff in El as (kv & Ek & Hin).
    rewrite Forall_forall in HA. destruct (HA kv Hin) as (w & Ew).
    apply (N w). congruence. }
  split; [intros k N; symmetry; now apply Hag|].
  pose proof (translate_set_agrees query parameters (tr_caller_params tr)
                Hq Hag Hnc) as Ets.
  fold q1 in Ets.
  destruct (merge_steps_pair um q1 (finditer merge_pattern q1)
              (TState q1 parameters [])
              (TState q1 (tr_caller_params tr) [])
              Hq1 (fun m H0 => merge_block_in_text q1 m H0)
              eq_refl eq_refl Hag)
    as (B & HB & EB & EB' & EBq & EBo).
  cbn [t_params] in EB, EB'.
  assert (Est : fold_left (merge_step um) (finditer merge_pattern q1)
                          (TState q1 (tr_caller_params tr) [])
                = fold_left (merge_step um) (finditer merge_pattern q1)
                            (TState q1 parameters [])).
  { assert (Ep : t_params (fold_left (merge_step um) (finditer merge_pattern q1)
                             (TState q1 (tr_caller_params tr) []))
                 = t_params (fold_left (merge_step um) (finditer merge_pattern q1)
                               (TState q1 parameters []))).
    { rewrite EB'. rewrite E at 1. rewrite EB. rewrite again_again by exact W.
      reflexivity. }
    destruct (fold_left (merge_step um) (finditer merge_pattern q1)
                (TState q1 (tr_caller_params tr) [])) as [a1 a2 a3].
    destruct (fold_left (merge_step um) (finditer merge_pattern q1)
                (TState q1 parameters [])) as [b1 b2 b3].
    cbn [t_query t_params t_out] in *. congruence. }
  subst tr. unfold _translate_query at 1. unfold rewrite.
  rewrite Ets. unfold inject_uids. cbn [t_query]. fold um. rewrite Est.
  unfold _translate_query, rewrite.
  destruct (translate_set query parameters) as [[q1' p1] copied] eqn:Et.
  cbn [fst snd] in *. subst copied. subst q1.
  pose proof (translate_set_not_copied query parameters) as Hc.
  rewrite Et in Hc. cbn [fst snd] in Hc. rewrite (Hc eq_refl) in *.
  unfold inject_uids. cbn [t_query t_params t_out]. fold um.
  set (st := fold_left (merge_step um) (finditer merge_pattern q1')
                       (TState q1' parameters [])) in *.
  destruct (is_schema_statement _); reflexivity.
Qed.

Lemma translation_repeats_on_the_map_it_wrote_witness :
  _translate_query (session_init tt) foo_merge
    (foo_params ++ [(# "__uid_f", Py.VStr (# "foo/x.py10"))])
  = _translate_query (session_init tt) foo_merge foo_params.
Proof.
  assert (W : Py.wf foo_params).
  { unfold Py.wf. vm_compute. repeat constructor; simpl; intuition discriminate. }
  exact (proj2 (proj2 (translation_repeats_on_the_map_it_wrote
                         unit (session_init tt) foo_merge foo_params
                         W eq_refl eq_refl))).
Defined.

End PurityFacts.
